(** * Power4: a shallow embedding of the game engine of the Connect-Four
      variant server, and the properties of its rule engine, heuristic
      opponent and lobby chat.

    Go's [int] and [int64] values are modelled by [Z]; every counter of the
    program stays far below 2^63 on the states considered (a turn counter is
    bounded by the number of cells, a chat identifier by the number of posts),
    so no wrap-around is involved.  A [byte] is a [Z] in [0, 256).  A slice
    is a [list]; the nil slice is the empty list. *)

From stdpp Require Import gmap strings list fin_maps.
From Stdlib Require Import ZArith Lia.

Local Open Scope Z_scope.

(** ** Cells and grids *)

(** [const ( cellEmpty = byte(0); cellR = byte('R'); cellY = byte('Y');
    cellBlk = byte('X') )] *)
Definition cellEmpty : Z := 0.
Definition cellR : Z := 82.
Definition cellY : Z := 89.
Definition cellBlk : Z := 88.

(** [len(s)] as a Go [int]. *)
Definition len {A} (l : list A) : Z := Z.of_nat (length l).

(** A value that is no byte: what a read outside a slice yields in the model.
    Go panics there; on a rectangular grid the reads of the engine are kept
    inside by the loop bounds, by the result of [dropRow] or by [in]. *)
Definition outOfRange : Z := -1.

(** [m[r][c]], [None] outside the slice. *)
Definition getAt {A} (m : list (list A)) (r c : Z) : option A :=
  if (r <? 0) || (c <? 0) then None
  else match m !! Z.to_nat r with
       | Some row => row !! Z.to_nat c
       | None => None
       end.

(** [grid[r][c]] *)
Definition cellAt (grid : list (list Z)) (r c : Z) : Z :=
  default outOfRange (getAt grid r c).

(** [g.Winning[r][c]], read by the view of the game only. *)
Definition winAt (win : list (list bool)) (r c : Z) : bool :=
  default false (getAt win r c).

(** [m[r][c] = v]; a write outside the slice (a panic in Go, never reached by
    the engine) leaves the slice as it is. *)
Definition setAt {A} (m : list (list A)) (r c : Z) (v : A) : list (list A) :=
  if (r <? 0) || (c <? 0) then m
  else alter (fun row => <[Z.to_nat c := v]> row) (Z.to_nat r) m.

(** [len(grid[0])] *)
Definition width {A} (grid : list (list A)) : Z :=
  len (default [] (grid !! 0%nat)).

(** Every row of the grid has the length of the first one, as [newGame]
    builds it. *)
Definition rectangular {A} (grid : list (list A)) : Prop :=
  Forall (fun row => len row = width grid) grid.

(** ** dropRow *)

(** [for r := h - 1; r >= 0; r-- { if grid[r][col] == cellEmpty { return r } };
    return -1], entered with [n = h]. *)
Fixpoint dropDown (grid : list (list Z)) (col : Z) (n : nat) : Z :=
  match n with
  | O => -1
  | S k => if cellAt grid (Z.of_nat k) col =? cellEmpty then Z.of_nat k
           else dropDown grid col k
  end.

(** [for r := 0; r < h; r++ { if grid[r][col] == cellEmpty { return r } };
    return -1], with [n] iterations left from row [r]. *)
Fixpoint dropUp (grid : list (list Z)) (col r : Z) (n : nat) : Z :=
  match n with
  | O => -1
  | S k => if cellAt grid r col =? cellEmpty then r
           else dropUp grid col (r + 1) k
  end.

Definition dropRow (grid : list (list Z)) (col : Z) (gravityUp : bool) : Z :=
  let h := len grid in
  if (h =? 0) || (col <? 0) || (width grid <=? col) then -1
  else if negb gravityUp then dropDown grid col (length grid)
  else dropUp grid col 0 (length grid).

(** ** winningLine *)

(** The closure [in] of [winningLine] and [evalBoard]. *)
Definition inGrid (h w rr cc : Z) : bool :=
  (0 <=? rr) && (rr <? h) && (0 <=? cc) && (cc <? w).

(** [for in(rr, cc) && grid[rr][cc] == p { line = append(line, {rr, cc});
    rr += d[0]; cc += d[1] }].  The Go loop carries no bound; [n] bounds the
    iterations of the model and [axisLine] supplies more than a line of the
    grid has cells, so that the loop always leaves through its condition
    (lemmas [run_inside_short] and [axisLine_is_run]). *)
Fixpoint extendFwd (n : nat) (grid : list (list Z)) (h w p : Z) (d : Z * Z)
    (rr cc : Z) (line : list (Z * Z)) : list (Z * Z) :=
  match n with
  | O => line
  | S k =>
      if inGrid h w rr cc && (cellAt grid rr cc =? p)
      then extendFwd k grid h w p d (rr + d.1) (cc + d.2) (line ++ [(rr, cc)])
      else line
  end.

(** [for in(rr, cc) && grid[rr][cc] == p { line = append({{rr, cc}}, line...);
    rr -= d[0]; cc -= d[1] }] *)
Fixpoint extendBwd (n : nat) (grid : list (list Z)) (h w p : Z) (d : Z * Z)
    (rr cc : Z) (line : list (Z * Z)) : list (Z * Z) :=
  match n with
  | O => line
  | S k =>
      if inGrid h w rr cc && (cellAt grid rr cc =? p)
      then extendBwd k grid h w p d (rr - d.1) (cc - d.2) ((rr, cc) :: line)
      else line
  end.

(** Iterations granted to the two loops above. *)
Definition lineFuel (h w : Z) : nat := S (Z.to_nat h + Z.to_nat w).

(** The body of [for _, d := range dirs] up to the test on [len(line)]. *)
Definition axisLine (grid : list (list Z)) (r c p : Z) (d : Z * Z) : list (Z * Z) :=
  let h := len grid in
  let w := width grid in
  let line := [(r, c)] in
  let line := extendFwd (lineFuel h w) grid h w p d (r + d.1) (c + d.2) line in
  extendBwd (lineFuel h w) grid h w p d (r - d.1) (c - d.2) line.

(** [dirs := [][2]int{{0, 1}, {1, 0}, {1, 1}, {1, -1}}] *)
Definition dirs : list (Z * Z) := [(0, 1); (1, 0); (1, 1); (1, -1)].

Fixpoint winningLineLoop (grid : list (list Z)) (r c p : Z) (ds : list (Z * Z))
    : list (Z * Z) :=
  match ds with
  | [] => []
  | d :: ds' =>
      let line := axisLine grid r c p d in
      if 4 <=? len line then line else winningLineLoop grid r c p ds'
  end.

Definition winningLine (grid : list (list Z)) (r c p : Z) : list (Z * Z) :=
  winningLineLoop grid r c p dirs.

(** ** isDraw *)

(** [for c := 0; c < len(grid[0]); c++ { if grid[0][c] == cellEmpty
    { return false } }; return true], with [n] iterations left from [c]. *)
Fixpoint isDrawLoop (grid : list (list Z)) (c : Z) (n : nat) : bool :=
  match n with
  | O => true
  | S k => if cellAt grid 0 c =? cellEmpty then false
           else isDrawLoop grid (c + 1) k
  end.

Definition isDraw (grid : list (list Z)) : bool :=
  isDrawLoop grid 0 (Z.to_nat (width grid)).

(** ** The game state *)

(** [type Game struct]; [Scores struct{ R, Y int }] is flattened into
    [ScoresR] and [ScoresY], and [CreatedAt] is a clock reading. *)
Record Game := mkGame {
  Rows : Z;
  Cols : Z;
  Grid : list (list Z);
  Winning : list (list bool);
  Current : Z;
  Player1 : string;
  Player2 : string;
  ScoresR : Z;
  ScoresY : Z;
  Message : string;
  GameOver : bool;
  Turns : Z;
  GravityUp : bool;
  Mode : string;
  CreatedAt : Z;
  Difficulty : string;
  LobbyCode : string;
  ThisIsRed : bool;
  LastPlayed : Z
}.

Definition setGrid (v : list (list Z)) (g : Game) : Game :=
  mkGame (Rows g) (Cols g) v (Winning g) (Current g) (Player1 g) (Player2 g)
    (ScoresR g) (ScoresY g) (Message g) (GameOver g) (Turns g) (GravityUp g)
    (Mode g) (CreatedAt g) (Difficulty g) (LobbyCode g) (ThisIsRed g)
    (LastPlayed g).
Definition setWinning (v : list (list bool)) (g : Game) : Game :=
  mkGame (Rows g) (Cols g) (Grid g) v (Current g) (Player1 g) (Player2 g)
    (ScoresR g) (ScoresY g) (Message g) (GameOver g) (Turns g) (GravityUp g)
    (Mode g) (CreatedAt g) (Difficulty g) (LobbyCode g) (ThisIsRed g)
    (LastPlayed g).
Definition setCurrent (v : Z) (g : Game) : Game :=
  mkGame (Rows g) (Cols g) (Grid g) (Winning g) v (Player1 g) (Player2 g)
    (ScoresR g) (ScoresY g) (Message g) (GameOver g) (Turns g) (GravityUp g)
    (Mode g) (CreatedAt g) (Difficulty g) (LobbyCode g) (ThisIsRed g)
    (LastPlayed g).
Definition setPlayer1 (v : string) (g : Game) : Game :=
  mkGame (Rows g) (Cols g) (Grid g) (Winning g) (Current g) v (Player2 g)
    (ScoresR g) (ScoresY g) (Message g) (GameOver g) (Turns g) (GravityUp g)
    (Mode g) (CreatedAt g) (Difficulty g) (LobbyCode g) (ThisIsRed g)
    (LastPlayed g).
Definition setPlayer2 (v : string) (g : Game) : Game :=
  mkGame (Rows g) (Cols g) (Grid g) (Winning g) (Current g) (Player1 g) v
    (ScoresR g) (ScoresY g) (Message g) (GameOver g) (Turns g) (GravityUp g)
    (Mode g) (CreatedAt g) (Difficulty g) (LobbyCode g) (ThisIsRed g)
    (LastPlayed g).
Definition setScoresR (v : Z) (g : Game) : Game :=
  mkGame (Rows g) (Cols g) (Grid g) (Winning g) (Current g) (Player1 g)
    (Player2 g) v (ScoresY g) (Message g) (GameOver g) (Turns g) (GravityUp
    g) (Mode g) (CreatedAt g) (Difficulty g) (LobbyCode g) (ThisIsRed g)
    (LastPlayed g).
Definition setScoresY (v : Z) (g : Game) : Game :=
  mkGame (Rows g) (Cols g) (Grid g) (Winning g) (Current g) (Player1 g)
    (Player2 g) (ScoresR g) v (Message g) (GameOver g) (Turns g) (GravityUp
    g) (Mode g) (CreatedAt g) (Difficulty g) (LobbyCode g) (ThisIsRed g)
    (LastPlayed g).
Definition setMessage (v : string) (g : Game) : Game :=
  mkGame (Rows g) (Cols g) (Grid g) (Winning g) (Current g) (Player1 g)
    (Player2 g) (ScoresR g) (ScoresY g) v (GameOver g) (Turns g) (GravityUp
    g) (Mode g) (CreatedAt g) (Difficulty g) (LobbyCode g) (ThisIsRed g)
    (LastPlayed g).
Definition setGameOver (v : bool) (g : Game) : Game :=
  mkGame (Rows g) (Cols g) (Grid g) (Winning g) (Current g) (Player1 g)
    (Player2 g) (ScoresR g) (ScoresY g) (Message g) v (Turns g) (GravityUp
    g) (Mode g) (CreatedAt g) (Difficulty g) (LobbyCode g) (ThisIsRed g)
    (LastPlayed g).
Definition setTurns (v : Z) (g : Game) : Game :=
  mkGame (Rows g) (Cols g) (Grid g) (Winning g) (Current g) (Player1 g)
    (Player2 g) (ScoresR g) (ScoresY g) (Message g) (GameOver g) v
    (GravityUp g) (Mode g) (CreatedAt g) (Difficulty g) (LobbyCode g)
    (ThisIsRed g) (LastPlayed g).
Definition setGravityUp (v : bool) (g : Game) : Game :=
  mkGame (Rows g) (Cols g) (Grid g) (Winning g) (Current g) (Player1 g)
    (Player2 g) (ScoresR g) (ScoresY g) (Message g) (GameOver g) (Turns g) v
    (Mode g) (CreatedAt g) (Difficulty g) (LobbyCode g) (ThisIsRed g)
    (LastPlayed g).
Definition setMode (v : string) (g : Game) : Game :=
  mkGame (Rows g) (Cols g) (Grid g) (Winning g) (Current g) (Player1 g)
    (Player2 g) (ScoresR g) (ScoresY g) (Message g) (GameOver g) (Turns g)
    (GravityUp g) v (CreatedAt g) (Difficulty g) (LobbyCode g) (ThisIsRed g)
    (LastPlayed g).
Definition setDifficulty (v : string) (g : Game) : Game :=
  mkGame (Rows g) (Cols g) (Grid g) (Winning g) (Current g) (Player1 g)
    (Player2 g) (ScoresR g) (ScoresY g) (Message g) (GameOver g) (Turns g)
    (GravityUp g) (Mode g) (CreatedAt g) v (LobbyCode g) (ThisIsRed g)
    (LastPlayed g).
Definition setLobbyCode (v : string) (g : Game) : Game :=
  mkGame (Rows g) (Cols g) (Grid g) (Winning g) (Current g) (Player1 g)
    (Player2 g) (ScoresR g) (ScoresY g) (Message g) (GameOver g) (Turns g)
    (GravityUp g) (Mode g) (CreatedAt g) (Difficulty g) v (ThisIsRed g)
    (LastPlayed g).
Definition setThisIsRed (v : bool) (g : Game) : Game :=
  mkGame (Rows g) (Cols g) (Grid g) (Winning g) (Current g) (Player1 g)
    (Player2 g) (ScoresR g) (ScoresY g) (Message g) (GameOver g) (Turns g)
    (GravityUp g) (Mode g) (CreatedAt g) (Difficulty g) (LobbyCode g) v
    (LastPlayed g).
Definition setLastPlayed (v : Z) (g : Game) : Game :=
  mkGame (Rows g) (Cols g) (Grid g) (Winning g) (Current g) (Player1 g)
    (Player2 g) (ScoresR g) (ScoresY g) (Message g) (GameOver g) (Turns g)
    (GravityUp g) (Mode g) (CreatedAt g) (Difficulty g) (LobbyCode g)
    (ThisIsRed g) v.

(** ** checkResult *)

(** [for _, rc := range line[:4] { g.Winning[rc[0]][rc[1]] = true }] *)
Definition markWinning (win : list (list bool)) (line : list (Z * Z))
    : list (list bool) :=
  fold_left (fun m rc => setAt m rc.1 rc.2 true) (take 4 line) win.

Definition drawMessage : string := "🤝 Égalité !".

Definition checkResult (g : Game) (r c p : Z) : Game * bool :=
  let line := winningLine (Grid g) r c p in
  if 4 <=? len line then
    let g := setWinning (markWinning (Winning g) line) g in
    let g := setGameOver true g in
    let g := if p =? cellR then setScoresR (ScoresR g + 1) g
             else setScoresY (ScoresY g + 1) g in
    let g := setMessage "" g in
    (g, true)
  else if isDraw (Grid g) then
    let g := setGameOver true g in
    let g := setMessage drawMessage g in
    (g, true)
  else (g, false).

(** ** configByDifficulty *)

Definition configByDifficulty (d : string) : Z * Z * Z :=
  if String.eqb d "hard" then (7, 8, 7)
  else if String.eqb d "normal" then (6, 9, 5)
  else (6, 7, 3).

(** The table of the README ("Difficulté | Grille | Blocs"): Easy 6x7 with 3
    blocks, Normal 6x8 with 5, Hard 6x9 with 7, as (rows, cols, blocks). *)
Definition documentedConfig (d : string) : Z * Z * Z :=
  if String.eqb d "hard" then (6, 9, 7)
  else if String.eqb d "normal" then (6, 8, 5)
  else (6, 7, 3).

(** ** The heuristic opponent *)

(** The loop [for i := 0; i < k; i++] of [countK], with [n] iterations left:
    it yields the flag [clear] and the counter [cnt]. *)
Fixpoint windowLoop (n : nat) (grid : list (list Z)) (h w p : Z) (d : Z * Z)
    (rr cc cnt : Z) : bool * Z :=
  match n with
  | O => (true, cnt)
  | S k =>
      if negb (inGrid h w rr cc) || (cellAt grid rr cc =? cellBlk)
      then (false, cnt)
      else windowLoop k grid h w p d (rr + d.1) (cc + d.2)
             (if cellAt grid rr cc =? p then cnt + 1 else cnt)
  end.

(** The closure [countK] of [evalBoard]. *)
Definition countK (grid : list (list Z)) (p k : Z) : Z :=
  let h := len grid in
  let w := width grid in
  fold_left (fun total r =>
    fold_left (fun total c =>
      fold_left (fun total d =>
        let '(clear, cnt) := windowLoop (Z.to_nat k) grid h w p d r c 0 in
        if clear && (cnt =? k) then total + 1 else total)
      dirs total)
    (seqZ 0 w) total)
  (seqZ 0 h) 0.

Definition evalBoard (g : Game) (me : Z) : Z :=
  let op := if me =? cellR then cellY else cellR in
  50 * countK (Grid g) me 3 + 10 * countK (Grid g) me 2
  - 50 * countK (Grid g) op 3 - 10 * countK (Grid g) op 2.

Definition abs (x : Z) : Z := if x <? 0 then - x else x.

(** The inner loop of [chooseAIMove],
    [for cc := 0; cc < g.Cols && !needBlock; cc++], with [n] iterations left.
    The grid is written and restored in place, so it is threaded through. *)
Fixpoint needBlockLoop (n : nat) (grid : list (list Z)) (cols : Z) (up : bool)
    (cc : Z) (needBlock : bool) : list (list Z) * bool :=
  match n with
  | O => (grid, needBlock)
  | S k =>
      if (cc <? cols) && negb needBlock then
        let rr := dropRow grid cc up in
        if (rr =? -1) || negb (cellAt grid rr cc =? cellEmpty)
        then needBlockLoop k grid cols up (cc + 1) needBlock
        else
          let grid := setAt grid rr cc cellR in
          let needBlock :=
            if 4 <=? len (winningLine grid rr cc cellR) then true else needBlock in
          let grid := setAt grid rr cc cellEmpty in
          needBlockLoop k grid cols up (cc + 1) needBlock
      else (grid, needBlock)
  end.

(** The score the outer loop of [chooseAIMove] gives to column [c], on the
    grid that already holds Yellow's piece. *)
Definition columnScore (g : Game) (c : Z) (needBlock : bool) : Z :=
  let score := evalBoard g cellY in
  let score := if needBlock then score + 5000 else score in
  let center := Z.quot (Cols g) 2 in
  score - abs (c - center).

(** The outer loop of [chooseAIMove], [for c := 0; c < g.Cols; c++], with [n]
    iterations left. *)
Fixpoint chooseLoop (n : nat) (g : Game) (c bestCol bestScore : Z) : Game * Z :=
  match n with
  | O => (g, bestCol)
  | S k =>
      if c <? Cols g then
        let r := dropRow (Grid g) c (GravityUp g) in
        if (r =? -1) || negb (cellAt (Grid g) r c =? cellEmpty)
        then chooseLoop k g (c + 1) bestCol bestScore
        else
          let g := setGrid (setAt (Grid g) r c cellY) g in
          if 4 <=? len (winningLine (Grid g) r c cellY)
          then (setGrid (setAt (Grid g) r c cellEmpty) g, c)
          else
            let '(grid, needBlock) :=
              needBlockLoop (Z.to_nat (Cols g)) (Grid g) (Cols g) (GravityUp g)
                0 false in
            let g := setGrid grid g in
            let score := columnScore g c needBlock in
            let g := setGrid (setAt (Grid g) r c cellEmpty) g in
            if bestScore <? score
            then chooseLoop k g (c + 1) c score
            else chooseLoop k g (c + 1) bestCol bestScore
      else (g, bestCol)
  end.

Definition chooseAIMove (g : Game) : Game * Z :=
  chooseLoop (Z.to_nat (Cols g)) g 0 (-1) (-1000000).

(** ** newGame *)

(** The loop of [placeBlocks], [for n > 0 && tries > 0], with [fuel]
    iterations left.  [rnd] is the stream of values drawn from [math/rand];
    [mrand.Intn(h)] is the next value reduced into [0, h). *)
Fixpoint placeBlocksLoop (fuel : nat) (rnd : nat -> Z) (i : nat)
    (grid : list (list Z)) (h w n tries : Z) : list (list Z) :=
  match fuel with
  | O => grid
  | S k =>
      if (0 <? n) && (0 <? tries) then
        let tries := tries - 1 in
        let r := rnd i `mod` h in
        let c := rnd (S i) `mod` w in
        if cellAt grid r c =? cellEmpty
        then placeBlocksLoop k rnd (S (S i)) (setAt grid r c cellBlk) h w (n - 1) tries
        else placeBlocksLoop k rnd (S (S i)) grid h w n tries
      else grid
  end.

Definition placeBlocks (rnd : nat -> Z) (grid : list (list Z)) (n : Z)
    : list (list Z) :=
  placeBlocksLoop (Z.to_nat (n * 10)) rnd 0 grid (len grid) (width grid) n (n * 10).

(** [newGame(rows, cols, blocks)] at clock reading [now]. *)
Definition newGame (rows cols blocks : Z) (now : Z) (rnd : nat -> Z) : Game :=
  let grid := replicate (Z.to_nat rows) (replicate (Z.to_nat cols) cellEmpty) in
  let winning := replicate (Z.to_nat rows) (replicate (Z.to_nat cols) false) in
  mkGame rows cols (placeBlocks rnd grid blocks) winning cellR "" "" 0 0 ""
    false 0 false "local" now "" "" false 0.

(** ** handlePlay *)

Inductive Redirect := ToRoot | ToGame | ToResult | ToWait.

(** [if g.Turns%5 == 0 { g.GravityUp = !g.GravityUp; g.Message = "" }] *)
Definition flipGravity (g : Game) : Game :=
  if Z.rem (Turns g) 5 =? 0
  then setMessage "" (setGravityUp (negb (GravityUp g)) g)
  else g.

(** The move of the requesting player in [handlePlay], from the write
    [g.Grid[row][c] = g.Current] to the gravity flip. *)
Definition humanTurn (g : Game) (row c : Z) : Game * bool :=
  let g := setGrid (setAt (Grid g) row c (Current g)) g in
  let g := setLastPlayed (Current g) g in
  let g := setTurns (Turns g + 1) g in
  let '(g, over) := checkResult g row c (Current g) in
  if over then (g, true)
  else
    let g := setCurrent (if Current g =? cellR then cellY else cellR) g in
    (flipGravity g, false).

(** The answer of the computer in [handlePlay], from
    [if g.Mode == "ai" && g.Current == cellY && !g.GameOver] to the end. *)
Definition aiTurn (g : Game) : Game * Redirect :=
  if String.eqb (Mode g) "ai" && (Current g =? cellY) && negb (GameOver g) then
    let '(g, aiCol) := chooseAIMove g in
    if 0 <=? aiCol then
      let rowAI := dropRow (Grid g) aiCol (GravityUp g) in
      if negb (rowAI =? -1) && (cellAt (Grid g) rowAI aiCol =? cellEmpty) then
        let g := setGrid (setAt (Grid g) rowAI aiCol cellY) g in
        let g := setLastPlayed (Current g) g in
        let g := setTurns (Turns g + 1) g in
        let '(g, over) := checkResult g rowAI aiCol cellY in
        if over then (g, ToResult)
        else
          let g := setCurrent cellR g in
          (flipGravity g, ToGame)
      else (g, ToGame)
    else (g, ToGame)
  else (g, ToGame).

(** [handlePlay] on the game [g] that [gameForRequest] resolves for the
    request; [post] tells a POST request, [col] is the result of
    [strconv.Atoi] on the form value ([None] when it fails). *)
Definition handlePlay (post : bool) (g : Game) (col : option Z) : Game * Redirect :=
  if negb post then (g, ToGame)
  else if GameOver g then (g, ToResult)
  else match col with
       | None => (g, ToGame)
       | Some c =>
           if (c <? 0) || (Cols g <=? c) then (g, ToGame)
           else
             let row := dropRow (Grid g) c (GravityUp g) in
             if (row =? -1) || negb (cellAt (Grid g) row c =? cellEmpty)
             then (g, ToGame)
             else
               let '(g, over) := humanTurn g row c in
               if over then (g, ToResult) else aiTurn g
       end.

(** ** handleOnlinePlay, on the game of the lobby *)

(** The critical section of [handleOnlinePlay] once the lobby is found:
    [None] when the move is refused (nothing is written), [Some (g, over)]
    when it is applied. [side] is the trimmed, upper-cased form value and [c]
    the column ([strconv.Atoi] yields 0 on a malformed value). *)
Definition onlineTurn (g : Game) (side : string) (c : Z) : option (Game * bool) :=
  let expect := if String.eqb side "Y" then cellY else cellR in
  if negb (Current g =? expect) || GameOver g then None
  else
    let row := dropRow (Grid g) c (GravityUp g) in
    if (row =? -1) || negb (cellAt (Grid g) row c =? cellEmpty) then None
    else
      let g := setGrid (setAt (Grid g) row c (Current g)) g in
      let g := setTurns (Turns g + 1) g in
      let '(g, over) := checkResult g row c (Current g) in
      if over then Some (g, true)
      else
        let g := setCurrent (if Current g =? cellR then cellY else cellR) g in
        Some (flipGravity g, false).

(** ** New games and the states reached from them *)

(** The cases ["local"] and ["ai"] of [handleStartPost]. *)
Definition startGame (mode p1 p2 diff : string) (now : Z) (rnd : nat -> Z) : Game :=
  let '(rows, cols, blocks) := configByDifficulty diff in
  let g := newGame rows cols blocks now rnd in
  setMode mode (setDifficulty diff (setPlayer2 p2 (setPlayer1 p1 g))).

(** The game [handleOnlineCreate] puts in a new lobby. *)
Definition onlineGame (rows cols blocks : Z) (p1 p2 diff code : string) (now : Z)
    (rnd : nat -> Z) : Game :=
  let rows := if rows <=? 0 then 6 else rows in
  let cols := if cols <=? 0 then 7 else cols in
  let g := newGame rows cols blocks now rnd in
  setThisIsRed true (setLobbyCode code (setMode "online"
    (setDifficulty diff (setPlayer2 p2 (setPlayer1 p1 g))))).

(** [handleReplay]: a new game that keeps names, scores and difficulty. *)
Definition replayGame (g : Game) (now : Z) (rnd : nat -> Z) : Game :=
  let diff := Difficulty g in
  let '(rows, cols, blocks) := configByDifficulty diff in
  let g' := newGame rows cols blocks now rnd in
  setDifficulty diff (setScoresY (ScoresY g) (setScoresR (ScoresR g)
    (setPlayer2 (Player2 g) (setPlayer1 (Player1 g) g')))).

(** The games the server creates: by [gameForRequest] (default board), by
    [handleStartPost], by [handleOnlineCreate] and by [handleReplay]. *)
Inductive fresh : Game -> Prop :=
  | fresh_session now rnd : fresh (newGame 6 7 3 now rnd)
  | fresh_start mode p1 p2 diff now rnd :
      mode = "local" \/ mode = "ai" ->
      fresh (startGame mode p1 p2 diff now rnd)
  | fresh_online rows cols blocks p1 p2 diff code now rnd :
      fresh (onlineGame rows cols blocks p1 p2 diff code now rnd)
  | fresh_replay g now rnd : fresh (replayGame g now rnd).

(** One applied move: a piece is placed by the local player, by the computer
    or by an online player. *)
Inductive applied : Game -> Game -> Prop :=
  | applied_human g c :
      GameOver g = false -> 0 <= c < Cols g ->
      dropRow (Grid g) c (GravityUp g) <> -1 ->
      applied g (humanTurn g (dropRow (Grid g) c (GravityUp g)) c).1
  | applied_ai g :
      Turns (aiTurn g).1 <> Turns g ->
      applied g (aiTurn g).1
  | applied_online g side c g' over :
      onlineTurn g side c = Some (g', over) ->
      applied g g'.

(** [movesFrom g0 n g]: [g] is reached from [g0] by [n] applied moves. *)
Inductive movesFrom (g0 : Game) : nat -> Game -> Prop :=
  | moves_none : movesFrom g0 O g0
  | moves_next n g g' : movesFrom g0 n g -> applied g g' -> movesFrom g0 (S n) g'.

(** The states reached from [g0] by requests to [handlePlay] and
    [handleOnlinePlay]. *)
Inductive reachable (g0 : Game) : Game -> Prop :=
  | reach_start : reachable g0 g0
  | reach_play g col :
      reachable g0 g -> reachable g0 (handlePlay true g col).1
  | reach_online g side c g' over :
      reachable g0 g -> onlineTurn g side c = Some (g', over) ->
      reachable g0 g'.

(** The state after the local requests [cols], played in order. *)
Definition playAll (g : Game) (cols : list Z) : Game :=
  fold_left (fun g c => (handlePlay true g (Some c)).1) cols g.

(** ** Lobbies and their chat *)

Record ChatMessage := mkChatMessage {
  ID : Z;
  When : Z;
  Side : string;
  Name : string;
  Text : string
}.

(** [type lobby struct]; the field [Game] is called [lobbyGame] here. *)
Record lobby := mkLobby {
  lobbyGame : Game;
  UpdatedAt : Z;
  HasRed : bool;
  HasYellow : bool;
  Chat : list ChatMessage;
  NextChatID : Z
}.

(** [type server struct], without the templates and with the mutex left
    implicit: every handler below is one critical section.  The maps hold
    pointers in Go; a write through the pointer is an update of the map
    here.  The only sharing the program creates, between a finished lobby
    game and the session it is copied into, concerns a game that no handler
    writes any more. *)
Record server := mkServer {
  sessions : gmap string Game;
  lobbies : gmap string lobby
}.

Definition strlen (s : string) : Z := Z.of_nat (String.length s).

(** [handleOnlineCreate]; [code] is the trimmed, upper-cased query value and
    [gen] the code [newLobbyCode] would draw. *)
Definition handleOnlineCreate (s : server) (rows cols blocks : Z)
    (p1 p2 diff code gen : string) (now : Z) (rnd : nat -> Z) : server * Redirect :=
  let p1 := if String.eqb p1 "" then "Rouge" else p1 in
  let p2 := if String.eqb p2 "" then "Jaune" else p2 in
  let diff := if String.eqb diff "" then "easy" else diff in
  let code := if strlen code <? 4 then gen else code in
  match lobbies s !! code with
  | Some _ => (s, ToRoot)
  | None =>
      let g := onlineGame rows cols blocks p1 p2 diff code now rnd in
      let lb := mkLobby g now true false [] 0 in
      (mkServer (sessions s) (<[code := lb]> (lobbies s)), ToWait)
  end.

(** [handleOnlineJoin] *)
Definition handleOnlineJoin (s : server) (code : string) (now : Z) : server * Redirect :=
  if String.eqb code "" then (s, ToRoot)
  else match lobbies s !! code with
       | None => (s, ToRoot)
       | Some lb =>
           if negb (HasYellow lb)
           then (mkServer (sessions s)
                   (<[code := mkLobby (lobbyGame lb) now (HasRed lb) true
                                (Chat lb) (NextChatID lb)]> (lobbies s)), ToWait)
           else (s, ToWait)
       end.

(** [handleOnlinePlay]; [sid] is the identifier [newID] draws for the session
    that receives the copy of a finished game. *)
Definition handleOnlinePlay (post : bool) (s : server) (code side : string)
    (col : option Z) (sid : string) (now : Z) : server * Redirect :=
  if negb post then (s, ToRoot)
  else
    let c := default 0 col in
    match lobbies s !! code with
    | None => (s, ToRoot)
    | Some lb =>
        match onlineTurn (lobbyGame lb) side c with
        | None => (s, ToWait)
        | Some (g, over) =>
            let lb := mkLobby g now (HasRed lb) (HasYellow lb) (Chat lb)
                        (NextChatID lb) in
            if over
            then (mkServer (<[sid := g]> (sessions s)) (<[code := lb]> (lobbies s)),
                  ToResult)
            else (mkServer (sessions s) (<[code := lb]> (lobbies s)), ToWait)
        end
    end.

(** [if len(text) > 240 { text = text[:240] }] *)
Definition capText (text : string) : string :=
  if 240 <? strlen text then String.substring 0 240 text else text.

(** [if len(lb.Chat) > 200 { lb.Chat = lb.Chat[len(lb.Chat)-200:] }] *)
Definition capChat (chat : list ChatMessage) : list ChatMessage :=
  if 200 <? len chat then drop (length chat - 200) chat else chat.

(** [handleChatPost]; the strings are the form values after
    [strings.TrimSpace] (and [strings.ToUpper] for [code] and [side]); the
    result carries the HTTP status. *)
Definition handleChatPost (post : bool) (s : server) (code side name text : string)
    (now : Z) : server * Z :=
  if negb post then (s, 405)
  else if String.eqb code ""
          || (negb (String.eqb side "R") && negb (String.eqb side "Y"))
          || String.eqb text ""
  then (s, 400)
  else
    let text := capText text in
    let name := if String.eqb name "" then "Joueur" else name in
    match lobbies s !! code with
    | None => (s, 404)
    | Some lb =>
        let next := NextChatID lb + 1 in
        let msg := mkChatMessage next now side name text in
        let chat := capChat (Chat lb ++ [msg]) in
        (mkServer (sessions s)
           (<[code := mkLobby (lobbyGame lb) now (HasRed lb) (HasYellow lb)
                        chat next]> (lobbies s)), 204)
    end.

(** What [handleChatFeed] answers: status 400, status 404, or status 200
    with the messages collected in [out], which it renders as JSON items. *)
Inductive FeedResponse :=
  | FeedBadRequest
  | FeedNotFound
  | FeedItems (out : list ChatMessage).

(** [for _, m := range lb.Chat { if m.ID > since { out = append(out, m) } }] *)
Fixpoint collectSince (chat : list ChatMessage) (since : Z) : list ChatMessage :=
  match chat with
  | [] => []
  | m :: chat' =>
      if since <? ID m then m :: collectSince chat' since
      else collectSince chat' since
  end.

(** [handleChatFeed]; [since] is the result of [strconv.ParseInt] on the
    query value, [None] when the value is empty or malformed. *)
Definition handleChatFeed (s : server) (code : string) (since : option Z)
    : FeedResponse :=
  let since := default 0 since in
  if String.eqb code "" then FeedBadRequest
  else match lobbies s !! code with
       | None => FeedNotFound
       | Some lb => FeedItems (collectSince (Chat lb) since)
       end.

(** The states of the server, from its start, together with the chat
    identifiers issued so far, each with the code of its lobby.  The handlers
    of the local game only write the session map. *)
Inductive serving : server -> list (string * Z) -> Prop :=
  | serving_start : serving (mkServer ∅ ∅) []
  | serving_sessions s log ss :
      serving s log -> serving (mkServer ss (lobbies s)) log
  | serving_create s log rows cols blocks p1 p2 diff code gen now rnd :
      serving s log -> String.length gen = 4%nat ->
      serving (handleOnlineCreate s rows cols blocks p1 p2 diff code gen now rnd).1 log
  | serving_join s log code now :
      serving s log -> serving (handleOnlineJoin s code now).1 log
  | serving_play s log code side col sid now :
      serving s log ->
      serving (handleOnlinePlay true s code side col sid now).1 log
  | serving_chat s log code side name text now s' lb :
      serving s log ->
      handleChatPost true s code side name text now = (s', 204) ->
      lobbies s' !! code = Some lb ->
      serving s' ((code, NextChatID lb) :: log).

(** The identifiers of the stored messages increase along the log, start
    above zero and stay at or below the counter of the lobby. *)
Fixpoint chatSorted (lo : Z) (chat : list ChatMessage) (hi : Z) : Prop :=
  match chat with
  | [] => lo <= hi
  | m :: chat' => lo < ID m /\ chatSorted (ID m) chat' hi
  end.

(** ** Sample positions *)

(** A 4x2 grid whose first column holds, from the top, an empty cell, a
    block, an empty cell and a Red piece. *)
Definition columnSample : list (list Z) :=
  [[cellEmpty; cellY]; [cellBlk; cellEmpty]; [cellEmpty; cellR]; [cellR; cellY]].

(** ** Runs along an axis *)

(** The cell [i] steps from [(r, c)] along [d]. *)
Definition cellOn (r c : Z) (d : Z * Z) (i : Z) : Z * Z :=
  (r + i * d.1, c + i * d.2).

(** The cell lies in the grid and holds [p]. *)
Definition sameAt (grid : list (list Z)) (p : Z) (rc : Z * Z) : bool :=
  inGrid (len grid) (width grid) rc.1 rc.2 && (cellAt grid rc.1 rc.2 =? p).

(** The run of [p] through [(r, c)] along [d] reaches [b] cells backwards and
    [f] cells forwards: these cells hold [p] and the next one at either end
    does not. *)
Definition axisRun (grid : list (list Z)) (r c p : Z) (d : Z * Z) (b f : Z) : Prop :=
  0 <= b /\ 0 <= f
  /\ (forall i, - b <= i <= f -> i <> 0 -> sameAt grid p (cellOn r c d i) = true)
  /\ sameAt grid p (cellOn r c d (f + 1)) = false
  /\ sameAt grid p (cellOn r c d (- b - 1)) = false.

(** The cells of that run, from its backward end to its forward end. *)
Definition runCells (r c : Z) (d : Z * Z) (b f : Z) : list (Z * Z) :=
  cellOn r c d <$> seqZ (- b) (b + 1 + f).

(** No cell of [win] is highlighted. *)
Definition noneMarked (win : list (list bool)) : bool :=
  forallb (forallb negb) win.

(** A local game on the easy board whose blocks fall on (2,6), (4,6) and
    (4,1), and twenty-one requests played on it; Yellow is then to move. *)
Definition crossRnd (n : nat) : Z := nth n [2; 6; 4; 6; 4; 1] 0.
Definition crossStart : Game := startGame "local" "" "" "easy" 0 crossRnd.
Definition crossMoves : list Z :=
  [3; 3; 5; 6; 4; 5; 1; 0; 2; 2; 0; 5; 3; 3; 4; 4; 1; 4; 3; 4; 5].
Definition crossBefore : Game := playAll crossStart crossMoves.

(** The same game once Yellow's piece is written in column 4, where it lands
    on row 3, as [checkResult] receives it. *)
Definition crossPlaced : Game :=
  setTurns 22 (setLastPlayed cellY
    (setGrid (setAt (Grid crossBefore) 3 4 cellY) crossBefore)).

(** ** Blocks *)

(** Every block of [grid] is still a block in [grid']. *)
Definition keepsBlocks (grid grid' : list (list Z)) : Prop :=
  forall r c, cellAt grid r c = cellBlk -> cellAt grid' r c = cellBlk.

(** ** Moves *)

(** The effect of a placed piece, common to the three places where the
    program applies a move: the piece is written on [(row, c)], the turn is
    counted, and either the game ends with gravity as it was, or the game
    goes on, with gravity inverted when the count is a multiple of five. *)
Definition moveEffect (g g' : Game) (row c piece next : Z) : Prop :=
  Grid g' = setAt (Grid g) row c piece
  /\ Turns g' = Turns g + 1
  /\ Mode g' = Mode g /\ Cols g' = Cols g
  /\ ((GameOver g' = true /\ GravityUp g' = GravityUp g /\ Current g' = Current g)
      \/ (GameOver g' = GameOver g /\ Current g' = next
          /\ GravityUp g'
             = if Z.rem (Turns g + 1) 5 =? 0 then negb (GravityUp g)
               else GravityUp g)).

(** The game after the local player has put a piece in column [c]. *)
Definition humanMove (g : Game) (c : Z) : Game :=
  (humanTurn g (dropRow (Grid g) c (GravityUp g)) c).1.

(** The first moves of the sample game above. *)
Definition crossAfter4 : Game :=
  humanMove (humanMove (humanMove (humanMove crossStart 3) 3) 5) 6.

(** A local game on the easy board whose blocks fall on (2,6), (3,6) and
    (4,6), and seventeen requests that never line up four pieces. *)
Definition drawRnd (n : nat) : Z := nth n [2; 6; 3; 6; 4; 6] 0.
Definition drawStart : Game := startGame "local" "" "" "easy" 0 drawRnd.
Definition drawMoves : list Z :=
  [0; 1; 2; 3; 4; 0; 1; 2; 3; 4; 0; 1; 2; 3; 4; 5; 6].

(** A server with one lobby, "ABCD", in which Red is to move. *)
Definition sampleLobby : lobby :=
  mkLobby (onlineGame 6 7 3 "Ann" "Bob" "easy" "ABCD" 0 drawRnd) 0 true false [] 0.
Definition sampleServer : server :=
  (handleOnlineCreate (mkServer ∅ ∅) 6 7 3 "Ann" "Bob" "easy" "ABCD" "WXYZ" 0 drawRnd).1.

(** ** The chat of the lobbies *)

(** The chat of a lobby is in order and its code has four characters or
    more. *)
Definition lobbyOK (code : string) (lb : lobby) : Prop :=
  (4 <= String.length code)%nat /\ chatSorted 0 (Chat lb) (NextChatID lb).

(** Every lobby is in order and every identifier issued so far is at or
    below the counter of its lobby. *)
Definition servingInv (s : server) (log : list (string * Z)) : Prop :=
  (forall code lb, lobbies s !! code = Some lb -> lobbyOK code lb)
  /\ (forall code id, (code, id) ∈ log ->
        exists lb, lobbies s !! code = Some lb /\ id <= NextChatID lb).

(** The message [handleChatPost] appends to the lobby [lb]. *)
Definition postedMessage (lb : lobby) (side name text : string) (now : Z)
    : ChatMessage :=
  mkChatMessage (NextChatID lb + 1) now side
    (if String.eqb name "" then "Joueur" else name) (capText text).

(** The lobby [lb] after [handleChatPost] has appended to it. *)
Definition postedLobby (lb : lobby) (side name text : string) (now : Z) : lobby :=
  mkLobby (lobbyGame lb) now (HasRed lb) (HasYellow lb)
    (capChat (Chat lb ++ [postedMessage lb side name text now]))
    (NextChatID lb + 1).

(** The sample server after one and two posts of Red in its lobby. *)
Definition chatServer1 : server :=
  (handleChatPost true sampleServer "ABCD" "R" "Ann" "un" 1).1.
Definition chatServer2 : server :=
  (handleChatPost true chatServer1 "ABCD" "R" "Ann" "deux" 2).1.

(** ** Threats *)

(** A piece [p] dropped in column [cc] lands and lines up four. *)
Definition winsAt (grid : list (list Z)) (up : bool) (p cc : Z) : bool :=
  let rr := dropRow grid cc up in
  negb (rr =? -1) && (cellAt grid rr cc =? cellEmpty)
  && (4 <=? len (winningLine (setAt grid rr cc p) rr cc p)).

(** The grid of [g] once Yellow's piece is dropped in column [c]. *)
Definition withYellow (g : Game) (c : Z) : list (list Z) :=
  setAt (Grid g) (dropRow (Grid g) c (GravityUp g)) c cellY.

(** The flag [needBlock] that [chooseAIMove] computes for the candidate
    column [c]: with it the column receives the bonus of 5000. *)
Definition bonusFor (g : Game) (c : Z) : bool :=
  (needBlockLoop (Z.to_nat (Cols g)) (withYellow g c) (Cols g) (GravityUp g)
     0 false).2.

(** The score [chooseAIMove] gives to the candidate column [c]. *)
Definition candidateScore (g : Game) (c : Z) : Z :=
  columnScore (setGrid (withYellow g c) g) c (bonusFor g c).

(** A game against the computer on the easy board whose blocks fall on
    (0,0), (1,0) and (2,6).  Red plays column 0 twice, the computer answers
    each time, and Red plays column 0 a third time: three Red pieces are
    stacked under the empty cell (2,0), gravity has just been inverted and
    the computer is to choose its move. *)
Definition blockRnd (n : nat) : Z := nth n [0; 0; 1; 0; 2; 6] 0.
Definition blockStart : Game := startGame "ai" "" "" "easy" 0 blockRnd.
Definition blockBefore : Game := playAll blockStart [0; 0].
Definition blockThreat : Game := humanMove blockBefore 0.

(** ** The moves as one step *)

(** The player who does not hold [p]'s colour:
    [if g.Current == cellR { g.Current = cellY } else { g.Current = cellR }]. *)
Definition other (p : Z) : Z := if p =? cellR then cellY else cellR.

(** What the three places that apply a move have in common: the piece of the
    current player is written on [(row, c)], the turn is counted, the result
    is checked and, when the game goes on, the player is switched and gravity
    may be inverted. *)
Definition stepResult (g : Game) (row c : Z) : Game :=
  let g1 := setTurns (Turns g + 1) (setGrid (setAt (Grid g) row c (Current g)) g) in
  let '(g2, over) := checkResult g1 row c (Current g) in
  if over then g2 else flipGravity (setCurrent (other (Current g)) g2).

(** ** Counting cells *)

(** The cells of a row, of a grid, that hold [p]. *)
Definition countRow (p : Z) (row : list Z) : Z :=
  len (filter (fun x => x = p) row).

Definition countCells (p : Z) (grid : list (list Z)) : Z :=
  foldr (fun row acc => countRow p row + acc) 0 grid.

(** The empty cells of column [col]. *)
Definition emptyInColumn (grid : list (list Z)) (col : Z) : Z :=
  len (filter (fun r => cellAt grid r col = cellEmpty) (seqZ 0 (len grid))).

(** A cell holds one of the four bytes of the game. *)
Definition validCell (x : Z) : Prop :=
  x = cellEmpty \/ x = cellR \/ x = cellY \/ x = cellBlk.

(** The shape of a game as [newGame] builds it and the moves keep it. *)
Definition wfGame (g : Game) : Prop :=
  0 < Rows g /\ 0 < Cols g
  /\ len (Grid g) = Rows g /\ width (Grid g) = Cols g
  /\ rectangular (Grid g)
  /\ length <$> Winning g = length <$> Grid g
  /\ Forall (Forall validCell) (Grid g)
  /\ (Current g = cellR \/ Current g = cellY)
  /\ 0 <= Turns g.

(** ** The view of a game *)

(** The entries of the map that [viewModel] computes; the other entries copy
    a field of the game, kept here as [vGame]. *)
Record View := mkView {
  vGame : Game;
  vPlayStart : bool;
  vRows : list Z;
  vCols : list Z;
  vDisabled : list bool;
  vIsOnline : bool
}.

Definition viewModel (g : Game) : View :=
  let colsIdx := seqZ 0 (Cols g) in
  let rowsIdx := seqZ 0 (Rows g) in
  let myTurn :=
    if String.eqb (Mode g) "online"
    then (if ThisIsRed g then Current g =? cellR else Current g =? cellY)
    else true in
  let disabled :=
    (fun c => if negb myTurn || GameOver g then true
              else dropRow (Grid g) c (GravityUp g) =? -1) <$> seqZ 0 (Cols g) in
  mkView g ((Turns g =? 0) && negb (GameOver g)) rowsIdx colsIdx disabled
    (String.eqb (Mode g) "online").

(** [handleOnlineWait]: the page of a lobby for the viewer [side], [None]
    when the request is redirected to the start page. *)
Definition handleOnlineWait (s : server) (code side : string) : option View :=
  if String.eqb code "" || (negb (String.eqb side "R") && negb (String.eqb side "Y"))
  then None
  else match lobbies s !! code with
       | None => None
       | Some lb =>
           let gcopy := lobbyGame lb in
           let gcopy := setLobbyCode code gcopy in
           let gcopy := setMode "online" gcopy in
           let gcopy := setThisIsRed (String.eqb side "R") gcopy in
           Some (viewModel gcopy)
       end.

(** ** Sessions *)

(** [gameForRequest]: [cookie] is the value of the cookie of the request
    ([None] when it has none) and [id] the identifier [newID] would draw.
    The result gives the key of the session the returned pointer designates,
    the game it points to, and whether a cookie is set. *)
Definition gameForRequest (s : server) (cookie : option string) (reset : bool)
    (id : string) (now : Z) (rnd : nat -> Z) : server * string * Game * bool :=
  let fresh_session :=
    let g := newGame 6 7 3 now rnd in
    (mkServer (<[id := g]> (sessions s)) (lobbies s), id, g, true) in
  match cookie with
  | None => fresh_session
  | Some v =>
      if String.eqb v "" || reset then fresh_session
      else match sessions s !! v with
           | Some g => (s, v, g, false)
           | None =>
               let g := newGame 6 7 3 now rnd in
               (mkServer (<[v := g]> (sessions s)) (lobbies s), v, g, false)
           end
  end.

(** [handlePlay] on the server: the game of the session is resolved and the
    writes through its pointer land in the session map. *)
Definition servePlay (post : bool) (s : server) (cookie : option string)
    (col : option Z) (id : string) (now : Z) (rnd : nat -> Z) : server * Redirect :=
  if negb post then (s, ToGame)
  else
    let '(s1, key, g, _) := gameForRequest s cookie false id now rnd in
    let '(g', target) := handlePlay true g col in
    (mkServer (<[key := g']> (sessions s1)) (lobbies s1), target).

(** [handleReplay] on the server; [rnd'] feeds the blocks of the new
    board. *)
Definition serveReplay (post : bool) (s : server) (cookie : option string)
    (id : string) (now : Z) (rnd rnd' : nat -> Z) : server * Redirect :=
  if negb post then (s, ToGame)
  else
    let '(s1, key, g, _) := gameForRequest s cookie false id now rnd in
    (mkServer (<[key := replayGame g now rnd']> (sessions s1)) (lobbies s1), ToGame).

(** [handleReset] *)
Definition serveReset (post : bool) (s : server) (cookie : option string)
    (id : string) (now : Z) (rnd : nat -> Z) : server * Redirect :=
  if negb post then (s, ToRoot)
  else
    let '(s1, _, _, _) := gameForRequest s cookie true id now rnd in
    (s1, ToRoot).

(** ** Lobby codes and query values *)

(** [const letters = "ABCDEFGHJKLMNPQRSTUVWXYZ23456789"] *)
Definition letters : string := "ABCDEFGHJKLMNPQRSTUVWXYZ23456789".

(** [letters[mrand.Intn(len(letters))]], from the drawn value [x]. *)
Definition letterAt (x : Z) : Ascii.ascii :=
  default Ascii.zero (String.get (Z.to_nat (x `mod` strlen letters)) letters).

(** [newLobbyCode]: four letters, one draw each. *)
Definition newLobbyCode (rnd : nat -> Z) : string :=
  String.string_of_list_ascii (letterAt <$> (rnd <$> [0; 1; 2; 3]%nat)).

(** The bytes of the space and of the plus sign. *)
Definition spaceChar : Ascii.ascii := Ascii.ascii_of_nat 32.
Definition plusChar : Ascii.ascii := Ascii.ascii_of_nat 43.

(** [urlQueryEscape]: [strings.NewReplacer(" ", "+").Replace(s)]. *)
Fixpoint urlQueryEscape (s : string) : string :=
  match s with
  | EmptyString => EmptyString
  | String a s' =>
      String (if Ascii.eqb a spaceChar then plusChar else a) (urlQueryEscape s')
  end.

(** ** Grids that differ by added blocks *)

(** [grid'] has the shape of [grid] and each of its cells holds what it held
    in [grid], or a block where [grid] had an empty cell. *)
Definition onlyBlocksAdded (grid grid' : list (list Z)) : Prop :=
  length <$> grid' = length <$> grid
  /\ forall r c, cellAt grid' r c = cellAt grid r c
                 \/ (cellAt grid r c = cellEmpty /\ cellAt grid' r c = cellBlk).

(** ** What holds in every state of a game *)

(** The state [g] of a game that began as [g0]: its shape, the count of its
    pieces and blocks, whose turn it is, and what its scores and highlights
    may be. *)
Definition gameInv (g0 g : Game) : Prop :=
  wfGame g
  /\ Rows g = Rows g0 /\ Cols g = Cols g0 /\ Mode g = Mode g0
  /\ Turns g = countCells cellR (Grid g) + countCells cellY (Grid g)
  /\ countCells cellBlk (Grid g) = countCells cellBlk (Grid g0)
  /\ (if GameOver g
      then (Current g = cellR
            /\ countCells cellR (Grid g) = countCells cellY (Grid g) + 1)
           \/ (Current g = cellY
               /\ countCells cellR (Grid g) = countCells cellY (Grid g))
      else (Current g = cellR
            /\ countCells cellR (Grid g) = countCells cellY (Grid g))
           \/ (Current g = cellY
               /\ countCells cellR (Grid g) = countCells cellY (Grid g) + 1))
  /\ (GameOver g = false ->
      noneMarked (Winning g) = true
      /\ ScoresR g = ScoresR g0 /\ ScoresY g = ScoresY g0)
  /\ ScoresR g0 <= ScoresR g /\ ScoresY g0 <= ScoresY g
  /\ ScoresR g + ScoresY g <= ScoresR g0 + ScoresY g0 + 1
  /\ (GameOver g = false -> 0 < Turns g -> isDraw (Grid g) = false).

(** A game against the computer on the board of [blockStart]: after Red's
    requests 3, 0, 0, 0 (each answered by the computer in column 3) and
    Red's piece in column 1, Yellow holds (0,3), (1,3), (3,3) and (4,3) and
    completes a line by dropping in column 3, under inverted gravity. *)
Definition yellowThreat : Game := humanMove (playAll blockStart [3; 0; 0; 0]) 1.

(** ** Requests in a row *)

(** The server after the play requests [reqs] of the browser that holds the
    cookie [v]; a request gives the column, the identifier [newID] would
    draw, the clock reading and the random source. *)
Definition servePlays (s : server) (v : string)
    (reqs : list (Z * string * Z * (nat -> Z))) : server :=
  fold_left (fun s '(c, id, now, rnd) =>
               (servePlay true s (Some v) (Some c) id now rnd).1) reqs s.

(** The columns of the requests [reqs]. *)
Definition columnsOf (reqs : list (Z * string * Z * (nat -> Z))) : list Z :=
  (fun '(c, _, _, _) => c) <$> reqs.

(** What a game keeps from its creation to its end. *)
Definition sameSettings (g0 g : Game) : Prop :=
  Rows g = Rows g0 /\ Cols g = Cols g0 /\ Mode g = Mode g0
  /\ Player1 g = Player1 g0 /\ Player2 g = Player2 g0
  /\ Difficulty g = Difficulty g0 /\ LobbyCode g = LobbyCode g0
  /\ ThisIsRed g = ThisIsRed g0 /\ CreatedAt g = CreatedAt g0.

(** ** The lobbies of a running server *)

(** The game of the lobby [code] is reached from the game of a new lobby of
    that code; Red is seated, the chat holds 200 messages at most and the
    code has four characters or more. *)
Definition lobbyInv (code : string) (lb : lobby) : Prop :=
  (exists rows cols blocks p1 p2 diff now rnd,
      reachable (onlineGame rows cols blocks p1 p2 diff code now rnd) (lobbyGame lb))
  /\ HasRed lb = true /\ len (Chat lb) <= 200 /\ (4 <= String.length code)%nat.

(** The characters of lobby codes: capitals and digits. *)
Definition capitalOrDigit (a : Ascii.ascii) : bool :=
  let n := Z.of_nat (Ascii.nat_of_ascii a) in
  ((65 <=? n) && (n <=? 90)) || ((48 <=? n) && (n <=? 57)).
(** ** Facts on cells *)

Lemma getAt_Some_range {A} (m : list (list A)) r c x :
  getAt m r c = Some x -> 0 <= r < len m /\ 0 <= c.
Proof.
  unfold getAt, len.
  destruct (r <? 0) eqn:Hr; simpl; [done|].
  destruct (c <? 0) eqn:Hc; simpl; [done|].
  destruct (m !! Z.to_nat r) as [row|] eqn:E; [|done].
  intros _. apply lookup_lt_Some in E. lia.
Qed.

Lemma getAt_setAt_eq {A} (m : list (list A)) r c v :
  is_Some (getAt m r c) -> getAt (setAt m r c v) r c = Some v.
Proof.
  unfold getAt, setAt. destruct ((r <? 0) || (c <? 0)); [by intros [? ?]|].
  rewrite list_lookup_alter_eq.
  destruct (m !! Z.to_nat r) as [row|]; simpl; [|by intros [? ?]].
  intros [x Hx]. apply list_lookup_insert_eq. by eapply lookup_lt_Some.
Qed.

Lemma getAt_setAt_ne {A} (m : list (list A)) r c v r' c' :
  (r', c') <> (r, c) -> getAt (setAt m r c v) r' c' = getAt m r' c'.
Proof.
  intros Hne. unfold getAt, setAt.
  destruct (r' <? 0) eqn:Hr'; simpl; [done|].
  destruct (c' <? 0) eqn:Hc'; simpl; [done|].
  destruct (r <? 0) eqn:Hr; simpl; [done|].
  destruct (c <? 0) eqn:Hc; simpl; [done|].
  apply Z.ltb_ge in Hr', Hc', Hr, Hc.
  destruct (decide (r' = r)) as [->|Hrr].
  - rewrite list_lookup_alter_eq.
    destruct (m !! Z.to_nat r) as [row|]; simpl; [|done].
    apply list_lookup_insert_ne. intros E. apply Hne. f_equal. lia.
  - rewrite list_lookup_alter_ne by lia. done.
Qed.

(** Writing a cell and writing back what it held leaves the slice as it
    was: the way [chooseAIMove] tries a piece and takes it back. *)
Lemma setAt_restore {A} (m : list (list A)) r c v x :
  getAt m r c = Some x -> setAt (setAt m r c v) r c x = m.
Proof.
  unfold getAt, setAt. destruct ((r <? 0) || (c <? 0)); [done|].
  destruct (m !! Z.to_nat r) as [row|] eqn:E; [|done]. intros Hx.
  apply list_eq. intros i.
  destruct (decide (i = Z.to_nat r)) as [->|Hi].
  - rewrite !list_lookup_alter_eq, E. simpl. f_equal.
    rewrite list_insert_insert_eq. by apply list_insert_id.
  - by rewrite !list_lookup_alter_ne.
Qed.

Lemma len_setAt {A} (m : list (list A)) r c v : len (setAt m r c v) = len m.
Proof.
  unfold setAt, len. destruct ((r <? 0) || (c <? 0)); [done|].
  by rewrite length_alter.
Qed.

Lemma length_setAt {A} (m : list (list A)) r c v : length (setAt m r c v) = length m.
Proof. pose proof (len_setAt m r c v) as H. unfold len in H. lia. Qed.

Lemma width_setAt {A} (m : list (list A)) r c v : width (setAt m r c v) = width m.
Proof.
  unfold setAt, width, len. destruct ((r <? 0) || (c <? 0)); [done|].
  destruct (decide (Z.to_nat r = 0%nat)) as [E|E].
  - rewrite E. destruct m as [|row m]; simpl; [done|]. by rewrite length_insert.
  - by rewrite list_lookup_alter_ne.
Qed.

Lemma cellAt_byte_getAt grid r c x :
  x <> outOfRange -> cellAt grid r c = x -> getAt grid r c = Some x.
Proof.
  unfold cellAt. destruct (getAt grid r c) as [y|]; simpl; congruence.
Qed.

Lemma cellAt_empty_getAt grid r c :
  cellAt grid r c = cellEmpty -> getAt grid r c = Some cellEmpty.
Proof. by apply cellAt_byte_getAt. Qed.

Lemma cellAt_empty_inside grid r c :
  cellAt grid r c = cellEmpty -> 0 <= r < len grid /\ 0 <= c.
Proof. intros H. apply cellAt_empty_getAt in H. by eapply getAt_Some_range. Qed.

Lemma cellAt_setAt_eq grid r c v :
  cellAt grid r c <> outOfRange -> cellAt (setAt grid r c v) r c = v.
Proof.
  intros H. unfold cellAt in *. rewrite getAt_setAt_eq; [done|].
  destruct (getAt grid r c); [by eexists|done].
Qed.

Lemma cellAt_setAt_ne grid r c v r' c' :
  (r', c') <> (r, c) -> cellAt (setAt grid r c v) r' c' = cellAt grid r' c'.
Proof. intros H. unfold cellAt. by rewrite getAt_setAt_ne. Qed.

(** ** dropRow: the landing cell *)

Lemma dropDown_spec grid col n :
  let r := dropDown grid col n in
  (r = -1 /\ forall i, 0 <= i < Z.of_nat n -> cellAt grid i col <> cellEmpty)
  \/ (0 <= r < Z.of_nat n /\ cellAt grid r col = cellEmpty /\
      forall i, r < i < Z.of_nat n -> cellAt grid i col <> cellEmpty).
Proof.
  induction n as [|k IH]; simpl.
  - left. split; [done|]. intros i Hi. lia.
  - destruct (cellAt grid (Z.of_nat k) col =? cellEmpty) eqn:E.
    + right. apply Z.eqb_eq in E. split; [lia|]. split; [done|].
      intros i Hi. lia.
    + apply Z.eqb_neq in E. destruct IH as [[H1 H2]|(H1 & H2 & H3)].
      * left. split; [done|]. intros i Hi.
        destruct (decide (i = Z.of_nat k)) as [->|]; [done|]. apply H2. lia.
      * right. split; [lia|]. split; [done|]. intros i Hi.
        destruct (decide (i = Z.of_nat k)) as [->|]; [done|]. apply H3. lia.
Qed.

Lemma dropUp_spec grid col n : forall r0, 0 <= r0 ->
  let r := dropUp grid col r0 n in
  (r = -1 /\ forall i, r0 <= i < r0 + Z.of_nat n -> cellAt grid i col <> cellEmpty)
  \/ (r0 <= r < r0 + Z.of_nat n /\ cellAt grid r col = cellEmpty /\
      forall i, r0 <= i < r -> cellAt grid i col <> cellEmpty).
Proof.
  induction n as [|k IH]; intros r0 Hr0; simpl.
  - left. split; [done|]. intros i Hi. lia.
  - destruct (cellAt grid r0 col =? cellEmpty) eqn:E.
    + right. apply Z.eqb_eq in E. split; [lia|]. split; [done|].
      intros i Hi. lia.
    + apply Z.eqb_neq in E.
      destruct (IH (r0 + 1) ltac:(lia)) as [[H1 H2]|(H1 & H2 & H3)].
      * left. split; [done|]. intros i Hi.
        destruct (decide (i = r0)) as [->|]; [done|]. apply H2. lia.
      * right. split; [lia|]. split; [done|]. intros i Hi.
        destruct (decide (i = r0)) as [->|]; [done|]. apply H3. lia.
Qed.

(** The three cases of [dropRow] on a column in range. *)
Lemma dropRow_cases grid col up :
  0 <= col < width grid ->
  let r := dropRow grid col up in
  (r = -1 /\ forall i, 0 <= i < len grid -> cellAt grid i col <> cellEmpty)
  \/ (0 <= r < len grid /\ cellAt grid r col = cellEmpty /\
      forall i, 0 <= i < len grid -> cellAt grid i col = cellEmpty ->
                if up then r <= i else i <= r).
Proof.
  intros Hcol. unfold dropRow.
  destruct (len grid =? 0) eqn:Hh; simpl.
  { left. split; [done|]. apply Z.eqb_eq in Hh. intros i Hi. lia. }
  replace (col <? 0) with false by (symmetry; apply Z.ltb_ge; lia).
  replace (width grid <=? col) with false by (symmetry; apply Z.leb_gt; lia).
  simpl. destruct up; simpl.
  - destruct (dropUp_spec grid col (length grid) 0 ltac:(lia))
      as [[H1 H2]|(H1 & H2 & H3)].
    + left. split; [done|]. intros i Hi. apply H2. unfold len in Hi. lia.
    + right. unfold len. split; [lia|]. split; [done|]. intros i Hi Hc.
      destruct (Z_lt_le_dec i (dropUp grid col 0 (length grid))) as [Hlt|]; [|done].
      exfalso. apply (H3 i); [lia|done].
  - destruct (dropDown_spec grid col (length grid)) as [[H1 H2]|(H1 & H2 & H3)].
    + left. split; [done|]. intros i Hi. apply H2. unfold len in Hi. lia.
    + right. unfold len. split; [lia|]. split; [done|]. intros i Hi Hc.
      destruct (Z_lt_le_dec (dropDown grid col (length grid)) i) as [Hlt|]; [|done].
      exfalso. apply (H3 i); [unfold len in Hi; lia|done].
Qed.

(** C3. On a board and a column in range, [dropRow] yields -1 exactly when
    the column has no empty cell; otherwise it yields an empty cell of the
    column, the one of largest row index under normal gravity and the one of
    smallest row index under inverted gravity, whatever the pieces and blocks
    that lie between that cell and the edge the scan starts from. *)
Theorem dropRow_landing_cell (grid : list (list Z)) (col : Z) (up : bool) :
  rectangular grid -> 0 <= col < width grid ->
  let r := dropRow grid col up in
  (r = -1 <-> forall i, 0 <= i < len grid -> cellAt grid i col <> cellEmpty)
  /\ (r <> -1 ->
      0 <= r < len grid /\ cellAt grid r col = cellEmpty /\
      forall i, 0 <= i < len grid -> cellAt grid i col = cellEmpty ->
                if up then r <= i else i <= r).
Proof.
  intros _ Hcol r.
  destruct (dropRow_cases grid col up Hcol) as [[H1 H2]|(H1 & H2 & H3)];
    fold r in H1, H2 |- *.
  - split; [done|]. intros Hne. done.
  - split.
    + split; [lia|]. intros Hall. exfalso. by apply (Hall r).
    + intros _. fold r in H3. done.
Qed.

Lemma dropRow_landing_cell_witness :
  let r := dropRow columnSample 0 false in
  (r = -1 <-> forall i, 0 <= i < len columnSample -> cellAt columnSample i 0 <> cellEmpty)
  /\ (r <> -1 ->
      0 <= r < len columnSample /\ cellAt columnSample r 0 = cellEmpty /\
      forall i, 0 <= i < len columnSample -> cellAt columnSample i 0 = cellEmpty ->
                i <= r).
Proof.
  apply (dropRow_landing_cell columnSample 0 false).
  - unfold rectangular. repeat constructor.
  - unfold width, len. simpl. lia.
Defined.

(** Whatever the column, a landing row is the row of an empty cell. *)
Lemma dropRow_lands_on_empty grid col up :
  dropRow grid col up <> -1 ->
  cellAt grid (dropRow grid col up) col = cellEmpty.
Proof.
  intros Hne.
  assert (0 <= col < width grid) as Hcol.
  { unfold dropRow in Hne.
    destruct (len grid =? 0); simpl in Hne; [done|].
    destruct (col <? 0) eqn:H1; simpl in Hne; [done|].
    destruct (width grid <=? col) eqn:H2; simpl in Hne; [done|].
    apply Z.ltb_ge in H1. apply Z.leb_gt in H2. lia. }
  destruct (dropRow_cases grid col up Hcol) as [[H1 H2]|(H1 & H2 & H3)]; done.
Qed.

(** ** configByDifficulty *)

(** C4. [configByDifficulty] gives 6 rows, 7 columns and 3 blocks for easy,
    but 6 rows, 9 columns and 5 blocks for normal and 7 rows, 8 columns and 7
    blocks for hard, where the documented table has 6x8 with 5 blocks and 6x9
    with 7 blocks. *)
Theorem configByDifficulty_table :
  configByDifficulty "easy" = (6, 7, 3)
  /\ configByDifficulty "normal" = (6, 9, 5)
  /\ configByDifficulty "hard" = (7, 8, 7)
  /\ configByDifficulty "easy" = documentedConfig "easy"
  /\ configByDifficulty "normal" <> documentedConfig "normal"
  /\ configByDifficulty "hard" <> documentedConfig "hard".
Proof. repeat split; done. Qed.

(** ** winningLine: the run found along one axis *)

Section Axis.
Variables (grid : list (list Z)) (r c p : Z) (d : Z * Z).

Lemma cellOn_zero : cellOn r c d 0 = (r, c).
Proof. unfold cellOn. f_equal; lia. Qed.

Lemma extendFwd_run n : forall j line,
  exists k, 0 <= k <= Z.of_nat n
    /\ extendFwd n grid (len grid) (width grid) p d (r + j * d.1) (c + j * d.2) line
       = line ++ (cellOn r c d <$> seqZ j k)
    /\ (forall i, j <= i < j + k -> sameAt grid p (cellOn r c d i) = true)
    /\ (k < Z.of_nat n -> sameAt grid p (cellOn r c d (j + k)) = false).
Proof.
  induction n as [|n IH]; intros j line.
  - exists 0. rewrite seqZ_nil by lia. simpl. rewrite app_nil_r.
    split; [lia|]. split; [done|]. split; intros; lia.
  - simpl.
    destruct (inGrid (len grid) (width grid) (r + j * d.1) (c + j * d.2)
              && (cellAt grid (r + j * d.1) (c + j * d.2) =? p)) eqn:E.
    + replace (r + j * d.1 + d.1) with (r + (j + 1) * d.1) by ring.
      replace (c + j * d.2 + d.2) with (c + (j + 1) * d.2) by ring.
      destruct (IH (j + 1) (line ++ [(r + j * d.1, c + j * d.2)]))
        as (k & Hk & Heq & Hin & Hout).
      exists (k + 1). split; [lia|]. split; [|split].
      * rewrite Heq, <- app_assoc. f_equal.
        rewrite (seqZ_cons j (k + 1)) by lia. simpl.
        replace (Z.succ j) with (j + 1) by lia.
        replace (Z.pred (k + 1)) with k by lia. done.
      * intros i Hi. destruct (decide (i = j)) as [->|]; [exact E|].
        apply Hin. lia.
      * intros Hlt. replace (j + (k + 1)) with (j + 1 + k) by lia.
        apply Hout. lia.
    + exists 0. rewrite seqZ_nil by lia. simpl. rewrite app_nil_r.
      split; [lia|]. split; [done|]. split; [intros; lia|].
      intros _. replace (j + 0) with j by lia. exact E.
Qed.

Lemma extendBwd_run n : forall j line,
  exists k, 0 <= k <= Z.of_nat n
    /\ extendBwd n grid (len grid) (width grid) p d (r - j * d.1) (c - j * d.2) line
       = (cellOn r c d <$> seqZ (- (j + k) + 1) k) ++ line
    /\ (forall i, - (j + k) < i <= - j -> sameAt grid p (cellOn r c d i) = true)
    /\ (k < Z.of_nat n -> sameAt grid p (cellOn r c d (- (j + k))) = false).
Proof.
  induction n as [|n IH]; intros j line.
  - exists 0. rewrite seqZ_nil by lia. simpl.
    split; [lia|]. split; [done|]. split; intros; lia.
  - simpl.
    destruct (inGrid (len grid) (width grid) (r - j * d.1) (c - j * d.2)
              && (cellAt grid (r - j * d.1) (c - j * d.2) =? p)) eqn:E.
    + replace (r - j * d.1 - d.1) with (r - (j + 1) * d.1) by ring.
      replace (c - j * d.2 - d.2) with (c - (j + 1) * d.2) by ring.
      destruct (IH (j + 1) ((r - j * d.1, c - j * d.2) :: line))
        as (k & Hk & Heq & Hin & Hout).
      exists (k + 1). split; [lia|]. split; [|split].
      * rewrite Heq.
        replace (k + 1) with (Z.of_nat (S (Z.to_nat k))) at 2 by lia.
        rewrite seqZ_S, fmap_app, <- app_assoc. simpl.
        replace (Z.of_nat (Z.to_nat k)) with k by lia.
        f_equal; [f_equal; f_equal; lia|]. f_equal.
        unfold cellOn. f_equal; ring.
      * intros i Hi. destruct (decide (i = - j)) as [->|].
        -- unfold sameAt, cellOn. simpl.
           replace (r + - j * d.1) with (r - j * d.1) by ring.
           replace (c + - j * d.2) with (c - j * d.2) by ring. exact E.
        -- apply Hin. lia.
      * intros Hlt. replace (- (j + (k + 1))) with (- (j + 1 + k)) by lia.
        apply Hout. lia.
    + exists 0. rewrite seqZ_nil by lia. simpl.
      split; [lia|]. split; [done|]. split; [intros; lia|].
      intros _. unfold sameAt, cellOn. simpl.
      replace (r + - (j + 0) * d.1) with (r - j * d.1) by ring.
      replace (c + - (j + 0) * d.2) with (c - j * d.2) by ring. exact E.
Qed.

(** Cells of the grid on one line are fewer than the fuel of the loops. *)
Lemma run_inside_short j k :
  d <> (0, 0) ->
  (forall i, j <= i < j + k -> sameAt grid p (cellOn r c d i) = true) ->
  k < Z.of_nat (lineFuel (len grid) (width grid)).
Proof.
  intros Hd Hin.
  set (h := len grid) in *. set (w := width grid) in *.
  assert (0 <= h /\ 0 <= w) as [Hh Hw] by (unfold h, w, width, len; lia).
  unfold lineFuel. destruct (Z_le_gt_dec k 0) as [|Hk]; [lia|].
  pose proof (Hin j ltac:(lia)) as H1.
  pose proof (Hin (j + k - 1) ltac:(lia)) as H2.
  unfold sameAt, cellOn, inGrid in H1, H2. simpl in H1, H2.
  fold h w in H1, H2.
  apply andb_true_iff in H1 as [H1 _]. apply andb_true_iff in H2 as [H2 _].
  rewrite !andb_true_iff in H1, H2.
  destruct H1 as [[[A1 A2] A3] A4]. destruct H2 as [[[B1 B2] B3] B4].
  apply Z.leb_le in A1, A3, B1, B3. apply Z.ltb_lt in A2, A4, B2, B4.
  destruct d as [d1 d2]. simpl in *.
  assert (d1 <> 0 \/ d2 <> 0) as [Hd1|Hd2].
  { destruct (decide (d1 = 0)) as [->|]; [|by left].
    destruct (decide (d2 = 0)) as [->|]; [done|by right]. }
  - assert (k - 1 < h); [|lia].
    destruct (Z_lt_le_dec d1 0); nia.
  - assert (k - 1 < w); [|lia].
    destruct (Z_lt_le_dec d2 0); nia.
Qed.

(** The line built along [d] is the whole run of [p] through [(r, c)],
    listed from its backward end to its forward end; both loops stop
    because their condition fails. *)
Lemma axisLine_is_run :
  d <> (0, 0) ->
  exists b f, axisRun grid r c p d b f
              /\ axisLine grid r c p d = runCells r c d b f.
Proof.
  intros Hd. unfold axisLine.
  replace (r + d.1) with (r + 1 * d.1) by ring.
  replace (c + d.2) with (c + 1 * d.2) by ring.
  replace (r - d.1) with (r - 1 * d.1) by ring.
  replace (c - d.2) with (c - 1 * d.2) by ring.
  destruct (extendFwd_run (lineFuel (len grid) (width grid)) 1 [(r, c)]) as (f & Hf & -> & Hfin & Hfout).
  destruct (extendBwd_run (lineFuel (len grid) (width grid)) 1
              ([(r, c)] ++ (cellOn r c d <$> seqZ 1 f)))
    as (b & Hb & -> & Hbin & Hbout).
  exists b, f. split.
  - split; [lia|]. split; [lia|]. split; [|split].
    + intros i Hi Hi0. destruct (Z_lt_le_dec i 0).
      * apply Hbin. lia.
      * apply Hfin. lia.
    + replace (f + 1) with (1 + f) by lia. apply Hfout.
      by apply (run_inside_short 1).
    + replace (- b - 1) with (- (1 + b)) by lia. apply Hbout.
      apply (run_inside_short (- (1 + b) + 1)); [done|].
      intros i Hi. apply Hbin. lia.
  - unfold runCells.
    replace (b + 1 + f) with (b + (1 + f)) by lia.
    rewrite seqZ_app by lia. rewrite fmap_app. f_equal; [f_equal; f_equal; lia|].
    replace (- b + b) with 0 by lia.
    rewrite (seqZ_cons 0 (1 + f)) by lia. simpl. rewrite cellOn_zero.
    f_equal. f_equal. f_equal; lia.
Qed.

Lemma axisRun_unique b f b' f' :
  axisRun grid r c p d b f -> axisRun grid r c p d b' f' -> b = b' /\ f = f'.
Proof.
  intros (Hb & Hf & Hin & Hfo & Hbo) (Hb' & Hf' & Hin' & Hfo' & Hbo').
  split.
  - destruct (Z.lt_trichotomy b b') as [Hlt|[->|Hgt]]; [|done|].
    + rewrite Hin' in Hbo; [done|lia|lia].
    + rewrite Hin in Hbo'; [done|lia|lia].
  - destruct (Z.lt_trichotomy f f') as [Hlt|[->|Hgt]]; [|done|].
    + rewrite Hin' in Hfo; [done|lia|lia].
    + rewrite Hin in Hfo'; [done|lia|lia].
Qed.

Lemma len_runCells b f : 0 <= b -> 0 <= f -> len (runCells r c d b f) = b + 1 + f.
Proof.
  intros Hb Hf. unfold runCells, len. rewrite length_fmap, length_seqZ. lia.
Qed.
End Axis.

Lemma dirs_nonzero d : d ∈ dirs -> d <> (0, 0).
Proof.
  unfold dirs. rewrite !elem_of_cons, elem_of_nil.
  intros [->|[->|[->|[->|[]]]]]; done.
Qed.

Lemma cellOn_shift r c d j i :
  cellOn (r + j * d.1) (c + j * d.2) d i = cellOn r c d (j + i).
Proof. unfold cellOn. f_equal; ring. Qed.

(** ** winningLine: the first axis whose run has four cells *)

Lemma winningLineLoop_first grid r c p ds :
  (winningLineLoop grid r c p ds = []
   /\ forall d, d ∈ ds -> len (axisLine grid r c p d) < 4)
  \/ (exists ds1 d ds2,
        ds = ds1 ++ d :: ds2
        /\ (forall d', d' ∈ ds1 -> len (axisLine grid r c p d') < 4)
        /\ 4 <= len (axisLine grid r c p d)
        /\ winningLineLoop grid r c p ds = axisLine grid r c p d).
Proof.
  induction ds as [|d ds IH]; simpl.
  - left. split; [done|]. intros d Hd. by apply elem_of_nil in Hd.
  - destruct (4 <=? len (axisLine grid r c p d)) eqn:E.
    + right. exists [], d, ds. apply Z.leb_le in E. split; [done|].
      split; [|done]. intros d' Hd'. by apply elem_of_nil in Hd'.
    + apply Z.leb_gt in E. destruct IH as [[H1 H2]|(ds1 & d0 & ds2 & -> & H2 & H3 & H4)].
      * left. split; [done|]. intros d' Hd'. apply elem_of_cons in Hd' as [->|Hd']; auto.
      * right. exists (d :: ds1), d0, ds2. split; [done|]. split; [|done].
        intros d' Hd'. apply elem_of_cons in Hd' as [->|Hd']; auto.
Qed.

Lemma winningLine_four_iff grid r c p :
  (exists d, d ∈ dirs /\ 4 <= len (axisLine grid r c p d))
  <-> 4 <= len (winningLine grid r c p).
Proof.
  unfold winningLine.
  destruct (winningLineLoop_first grid r c p dirs)
    as [[H1 H2]|(ds1 & d0 & ds2 & Hds & H2 & H3 & H4)].
  - rewrite H1. split.
    + intros (d & Hd & Hlen). specialize (H2 d Hd). lia.
    + unfold len. simpl. lia.
  - rewrite H4. split; [done|]. intros _. exists d0. split; [|done].
    rewrite Hds. apply elem_of_app. right. apply elem_of_cons. by left.
Qed.

(** Four cells in a line that hold [p] give a run of four through each of
    them. *)
Lemma four_in_line_run grid p d r0 c0 j :
  d ∈ dirs ->
  (forall i, 0 <= i < 4 -> sameAt grid p (cellOn r0 c0 d i) = true) ->
  0 <= j < 4 ->
  4 <= len (axisLine grid (r0 + j * d.1) (c0 + j * d.2) p d).
Proof.
  intros Hd Hall Hj.
  destruct (axisLine_is_run grid (r0 + j * d.1) (c0 + j * d.2) p d
              (dirs_nonzero d Hd)) as (b & f & Hrun & ->).
  destruct Hrun as (Hb & Hf & Hin & Hfo & Hbo).
  rewrite len_runCells by done.
  rewrite cellOn_shift in Hfo, Hbo.
  assert (3 - j <= f) as Hf3.
  { destruct (Z_le_gt_dec (3 - j) f); [done|].
    rewrite Hall in Hfo; [done|lia]. }
  assert (j <= b) as Hb3.
  { destruct (Z_le_gt_dec j b); [done|].
    rewrite Hall in Hbo; [done|lia]. }
  lia.
Qed.

(** ** checkResult: the highlighted cells *)

Lemma getAt_setAt {A} (m : list (list A)) r c v r' c' :
  getAt (setAt m r c v) r' c'
  = if decide ((r', c') = (r, c)) then (fun _ => v) <$> getAt m r c
    else getAt m r' c'.
Proof.
  case_decide as H.
  - injection H as -> ->. destruct (getAt m r c) as [x|] eqn:E.
    + simpl. apply getAt_setAt_eq. rewrite E. by eexists.
    + simpl. unfold getAt, setAt in *.
      destruct ((r <? 0) || (c <? 0)); [done|].
      rewrite list_lookup_alter_eq.
      destruct (m !! Z.to_nat r) as [row|]; simpl; [|done].
      apply lookup_ge_None. rewrite length_insert. by apply lookup_ge_None.
  - by apply getAt_setAt_ne.
Qed.

Lemma getAt_mark cells : forall (win : list (list bool)) i j,
  getAt (fold_left (fun m rc => setAt m rc.1 rc.2 true) cells win) i j
  = (fun b => if decide ((i, j) ∈ cells) then true else b) <$> getAt win i j.
Proof.
  induction cells as [|[r c] cells IH]; intros win i j; simpl.
  - destruct (getAt win i j); simpl; [|done]. f_equal.
  - rewrite IH, getAt_setAt. simpl.
    destruct (decide ((i, j) = (r, c))) as [E|E].
    + injection E as -> ->. destruct (getAt win r c); simpl; [|done]. f_equal.
      rewrite (decide_True (P := (r, c) ∈ (r, c) :: cells))
        by (apply elem_of_cons; by left).
      by destruct (decide ((r, c) ∈ cells)).
    + destruct (getAt win i j); simpl; [|done]. f_equal.
      destruct (decide ((i, j) ∈ cells)) as [Hin|Hin].
      * rewrite decide_True; [done|]. apply elem_of_cons. by right.
      * rewrite decide_False; [done|]. rewrite elem_of_cons. intros [?|?]; done.
Qed.

Lemma noneMarked_winAt win i j : noneMarked win = true -> winAt win i j = false.
Proof.
  intros H. unfold winAt, getAt.
  destruct ((i <? 0) || (j <? 0)); [done|].
  destruct (win !! Z.to_nat i) as [row|] eqn:E; [|done].
  destruct (row !! Z.to_nat j) as [b|] eqn:Eb; [|done]. simpl.
  unfold noneMarked in H. rewrite forallb_forall in H.
  apply list_elem_of_lookup_2, list_elem_of_In in E. specialize (H row E).
  rewrite forallb_forall in H.
  apply list_elem_of_lookup_2, list_elem_of_In in Eb. specialize (H b Eb).
  by destruct b.
Qed.

Lemma inGrid_getAt {A} (m : list (list A)) i j :
  rectangular m -> inGrid (len m) (width m) i j = true -> is_Some (getAt m i j).
Proof.
  intros Hrect Hin. unfold inGrid in Hin. rewrite !andb_true_iff in Hin.
  destruct Hin as [[[H1 H2] H3] H4].
  apply Z.leb_le in H1, H3. apply Z.ltb_lt in H2, H4.
  unfold getAt.
  replace (i <? 0) with false by (symmetry; apply Z.ltb_ge; lia).
  replace (j <? 0) with false by (symmetry; apply Z.ltb_ge; lia). simpl.
  destruct (m !! Z.to_nat i) as [row|] eqn:E.
  - apply lookup_lt_is_Some.
    unfold rectangular in Hrect. rewrite Forall_forall in Hrect.
    specialize (Hrect row (list_elem_of_lookup_2 _ _ _ E)).
    unfold len in Hrect. unfold len in H4. lia.
  - apply lookup_ge_None in E. unfold len in H2. lia.
Qed.

Lemma same_shape_getAt {A B} (m1 : list (list A)) (m2 : list (list B)) i j :
  length <$> m1 = length <$> m2 -> is_Some (getAt m2 i j) -> is_Some (getAt m1 i j).
Proof.
  intros Hs. unfold getAt. destruct ((i <? 0) || (j <? 0)); [done|].
  assert ((length <$> m1) !! Z.to_nat i = (length <$> m2) !! Z.to_nat i) as E
    by (by rewrite Hs).
  rewrite !list_lookup_fmap in E.
  destruct (m2 !! Z.to_nat i) as [row2|]; [|by intros [? ?]].
  destruct (m1 !! Z.to_nat i) as [row1|]; [|done].
  simpl in E. injection E as E.
  rewrite !lookup_lt_is_Some. lia.
Qed.

Lemma cellOn_inj r c d i j : d <> (0, 0) -> cellOn r c d i = cellOn r c d j -> i = j.
Proof.
  destruct d as [d1 d2]. unfold cellOn. simpl. intros Hd E.
  injection E as E1 E2.
  assert (d1 <> 0 \/ d2 <> 0) as [H|H].
  { destruct (decide (d1 = 0)) as [->|]; [|by left].
    destruct (decide (d2 = 0)) as [->|]; [done|by right]. }
  - nia.
  - nia.
Qed.

Lemma NoDup_runCells r c d b f : d <> (0, 0) -> NoDup (runCells r c d b f).
Proof.
  intros Hd. unfold runCells. apply NoDup_fmap_2_strong; [|apply NoDup_seqZ].
  intros i j _ _. by apply cellOn_inj.
Qed.

(** The cells of a run lie in the grid, the starting cell being in it. *)
Lemma runCells_inside grid r c p d b f rc :
  inGrid (len grid) (width grid) r c = true ->
  axisRun grid r c p d b f -> rc ∈ runCells r c d b f ->
  inGrid (len grid) (width grid) rc.1 rc.2 = true.
Proof.
  intros Hrc (Hb & Hf & Hin & _ & _) Hel.
  unfold runCells in Hel. apply list_elem_of_fmap in Hel as (i & -> & Hi).
  apply elem_of_seqZ in Hi.
  destruct (decide (i = 0)) as [->|Hi0].
  - by rewrite cellOn_zero.
  - specialize (Hin i ltac:(lia) Hi0). unfold sameAt in Hin.
    by apply andb_true_iff in Hin as [Hin _].
Qed.

(** The score of [checkResult] moves exactly when a line of four is found. *)
Lemma checkResult_win g r c p :
  4 <= len (winningLine (Grid g) r c p) ->
  checkResult g r c p
  = (setMessage "" ((if p =? cellR
                     then setScoresR (ScoresR g + 1)
                     else setScoresY (ScoresY g + 1))
       (setGameOver true
          (setWinning (markWinning (Winning g) (winningLine (Grid g) r c p)) g))),
     true).
Proof.
  intros H. unfold checkResult.
  replace (4 <=? len (winningLine (Grid g) r c p)) with true
    by (symmetry; by apply Z.leb_le).
  by destruct (p =? cellR).
Qed.

Lemma checkResult_no_win g r c p :
  len (winningLine (Grid g) r c p) < 4 ->
  checkResult g r c p
  = if isDraw (Grid g)
    then (setMessage drawMessage (setGameOver true g), true)
    else (g, false).
Proof.
  intros H. unfold checkResult.
  replace (4 <=? len (winningLine (Grid g) r c p)) with false
    by (symmetry; by apply Z.leb_gt).
  done.
Qed.

Lemma checkResult_win_fields g r c p :
  4 <= len (winningLine (Grid g) r c p) ->
  GameOver (checkResult g r c p).1 = true
  /\ Winning (checkResult g r c p).1
     = markWinning (Winning g) (winningLine (Grid g) r c p).
Proof.
  intros H. rewrite checkResult_win by exact H. by destruct (p =? cellR).
Qed.

(** C6, amended. Along each of the four axes the line built through the
    placed cell is the whole contiguous run of the player's pieces through
    it, listed from one end to the other.  [winningLine] returns the run of
    the first axis, in the order horizontal, vertical, diagonal,
    anti-diagonal, whose run has at least four cells (whether or not a later
    axis has a longer one) and nothing when no axis has one.  [checkResult]
    declares a win, adding one to a score, exactly when some axis has such a
    run, and then highlights the first four cells of the returned run and no
    other cell.  Four pieces of one player in a line along an axis are found
    from each of the four cells. *)
Theorem winningLine_first_axis_of_four (g : Game) (r c p : Z) :
  rectangular (Grid g) ->
  length <$> Winning g = length <$> Grid g ->
  noneMarked (Winning g) = true ->
  inGrid (len (Grid g)) (width (Grid g)) r c = true ->
  let grid := Grid g in
  let line := winningLine grid r c p in
  let res := checkResult g r c p in
  (forall d, d ∈ dirs ->
     exists b f, axisRun grid r c p d b f
                 /\ axisLine grid r c p d = runCells r c d b f)
  /\ ((line = [] /\ forall d, d ∈ dirs -> len (axisLine grid r c p d) < 4)
      \/ (exists ds1 d ds2,
            dirs = ds1 ++ d :: ds2
            /\ (forall d', d' ∈ ds1 -> len (axisLine grid r c p d') < 4)
            /\ 4 <= len (axisLine grid r c p d)
            /\ line = axisLine grid r c p d))
  /\ ((exists d, d ∈ dirs /\ 4 <= len (axisLine grid r c p d))
      <-> (res.2 = true
           /\ ScoresR res.1 + ScoresY res.1 = ScoresR g + ScoresY g + 1))
  /\ (4 <= len line ->
      GameOver res.1 = true
      /\ length (take 4 line) = 4%nat /\ NoDup (take 4 line)
      /\ forall i j, winAt (Winning res.1) i j = true <-> (i, j) ∈ take 4 line)
  /\ (len line < 4 -> Winning res.1 = Winning g)
  /\ (forall d r0 c0 j,
        d ∈ dirs ->
        (forall i, 0 <= i < 4 -> sameAt grid p (cellOn r0 c0 d i) = true) ->
        0 <= j < 4 ->
        4 <= len (winningLine grid (r0 + j * d.1) (c0 + j * d.2) p)).
Proof.
  intros Hrect Hshape Hnone Hrc grid line res.
  assert (forall d, d ∈ dirs ->
            exists b f, axisRun grid r c p d b f
                        /\ axisLine grid r c p d = runCells r c d b f) as Hruns.
  { intros d Hd. apply axisLine_is_run. by apply dirs_nonzero. }
  pose proof (winningLineLoop_first grid r c p dirs) as Hfirst.
  fold (winningLine grid r c p) in Hfirst. fold line in Hfirst.
  pose proof (winningLine_four_iff grid r c p) as Hiff. fold line in Hiff.
  split; [exact Hruns|]. split; [exact Hfirst|]. split; [|split; [|split]].
  - rewrite Hiff. subst res. split.
    + intros H4. rewrite checkResult_win by exact H4. simpl.
      split; [done|]. destruct (p =? cellR); simpl; lia.
    + intros [_ Hs]. destruct (Z_le_gt_dec 4 (len line)) as [|Hlt]; [done|].
      exfalso. rewrite checkResult_no_win in Hs by (fold grid line; lia).
      destruct (isDraw (Grid g)); simpl in Hs; lia.
  - intros H4. subst res.
    destruct (checkResult_win_fields g r c p H4) as [Hover Hwin].
    fold grid in Hwin. fold line in Hwin.
    destruct Hfirst as [[Hnil _]|(ds1 & d & ds2 & Hds & _ & _ & Hline)].
    { rewrite Hnil in H4. unfold len in H4. simpl in H4. lia. }
    assert (d ∈ dirs) as Hd.
    { rewrite Hds. apply elem_of_app. right. apply elem_of_cons. by left. }
    destruct (Hruns d Hd) as (b & f & Hrun & Hcells).
    assert (NoDup line) as Hnd.
    { rewrite Hline, Hcells. apply NoDup_runCells. by apply dirs_nonzero. }
    split; [exact Hover|]. split; [|split].
    + rewrite length_take. unfold len in H4. lia.
    + eapply sublist_NoDup; [exact Hnd|apply sublist_take].
    + intros i j. rewrite Hwin.
      unfold winAt, markWinning. rewrite getAt_mark.
      pose proof (noneMarked_winAt (Winning g) i j Hnone) as Hf. unfold winAt in Hf.
      split.
      * destruct (getAt (Winning g) i j) as [b0|]; simpl; [|done].
        simpl in Hf. subst b0. by case_decide.
      * intros Hin.
        assert (is_Some (getAt (Winning g) i j)) as [b0 Hb0].
        { apply (same_shape_getAt _ (Grid g)); [done|].
          apply inGrid_getAt; [done|].
          apply (runCells_inside grid r c p d b f (i, j)); [done|done|].
          rewrite <- Hcells, <- Hline. by apply (subseteq_take 4). }
        rewrite Hb0. simpl. by rewrite decide_True.
  - intros Hlt. subst res. rewrite checkResult_no_win by exact Hlt.
    by destruct (isDraw (Grid g)).
  - intros d r0 c0 j Hd Hall Hj.
    apply winningLine_four_iff. exists d. split; [done|].
    by apply four_in_line_run.
Qed.

Lemma winningLine_first_axis_of_four_witness :
  GameOver (checkResult crossPlaced 3 4 cellY).1 = true
  /\ forall i j,
       winAt (Winning (checkResult crossPlaced 3 4 cellY).1) i j = true
       <-> (i, j) ∈ take 4 (winningLine (Grid crossPlaced) 3 4 cellY).
Proof.
  assert (rectangular (Grid crossPlaced)) as H1
    by (vm_compute; repeat constructor).
  assert (length <$> Winning crossPlaced = length <$> Grid crossPlaced) as H2
    by (vm_compute; reflexivity).
  assert (noneMarked (Winning crossPlaced) = true) as H3
    by (vm_compute; reflexivity).
  assert (inGrid (len (Grid crossPlaced)) (width (Grid crossPlaced)) 3 4 = true) as H4
    by (vm_compute; reflexivity).
  destruct (winningLine_first_axis_of_four crossPlaced 3 4 cellY H1 H2 H3 H4)
    as (_ & _ & _ & Hwin & _).
  assert (4 <= len (winningLine (Grid crossPlaced) 3 4 cellY)) as H5
    by (vm_compute; discriminate).
  destruct (Hwin H5) as (Hover & _ & _ & Hmark).
  split; [exact Hover|exact Hmark].
Defined.

Lemma reachable_playAll g0 cols : forall g,
  reachable g0 g -> reachable g0 (playAll g cols).
Proof.
  induction cols as [|col cols IH]; intros g Hg; simpl; [done|].
  apply IH. by apply reach_play.
Qed.

(** C6 as stated fails. In a local game on the easy board, Yellow's piece
    lands on (3,4) and completes a vertical run of four cells and a diagonal
    run of five; [winningLine] returns the vertical run, the first axis in
    its order to reach four, which is not the longest run through the
    cell. *)
Lemma winningLine_not_longest_run :
  fresh crossStart /\ reachable crossStart crossBefore
  /\ GameOver crossBefore = false /\ Current crossBefore = cellY
  /\ dropRow (Grid crossBefore) 4 (GravityUp crossBefore) = 3
  /\ handlePlay true crossBefore (Some 4)
     = ((checkResult crossPlaced 3 4 cellY).1, ToResult)
  /\ winningLine (Grid crossPlaced) 3 4 cellY = [(0, 4); (1, 4); (2, 4); (3, 4)]
  /\ axisLine (Grid crossPlaced) 3 4 cellY (1, 1)
     = [(1, 2); (2, 3); (3, 4); (4, 5); (5, 6)]
  /\ len (winningLine (Grid crossPlaced) 3 4 cellY)
     < len (axisLine (Grid crossPlaced) 3 4 cellY (1, 1)).
Proof.
  split; [apply fresh_start; by left|].
  split; [apply reachable_playAll, reach_start|].
  split; [vm_compute; reflexivity|]. split; [vm_compute; reflexivity|].
  split; [vm_compute; reflexivity|]. split; [vm_compute; reflexivity|].
  split; [vm_compute; reflexivity|]. split; [vm_compute; reflexivity|].
  vm_compute; reflexivity.
Qed.

(** ** One move *)

Lemma setGrid_same g : setGrid (Grid g) g = g.
Proof. by destruct g. Qed.

Lemma setGrid_setGrid v v' g : setGrid v (setGrid v' g) = setGrid v g.
Proof. done. Qed.

Lemma Grid_setGrid v g : Grid (setGrid v g) = v.
Proof. done. Qed.

(** What [checkResult] leaves alone, and when it ends the game. *)
Lemma checkResult_fields g r c p :
  let res := checkResult g r c p in
  Grid res.1 = Grid g /\ Turns res.1 = Turns g
  /\ GravityUp res.1 = GravityUp g /\ Current res.1 = Current g
  /\ Mode res.1 = Mode g /\ Cols res.1 = Cols g
  /\ (res.2 = true -> GameOver res.1 = true)
  /\ (res.2 = false -> res.1 = g).
Proof.
  unfold checkResult.
  destruct (4 <=? len (winningLine (Grid g) r c p)).
  - destruct (p =? cellR); simpl; repeat split; done.
  - destruct (isDraw (Grid g)); simpl; repeat split; done.
Qed.

Lemma flipGravity_fields g :
  Grid (flipGravity g) = Grid g /\ Turns (flipGravity g) = Turns g
  /\ GameOver (flipGravity g) = GameOver g /\ Current (flipGravity g) = Current g
  /\ Mode (flipGravity g) = Mode g /\ Cols (flipGravity g) = Cols g
  /\ GravityUp (flipGravity g)
     = if Z.rem (Turns g) 5 =? 0 then negb (GravityUp g) else GravityUp g.
Proof. unfold flipGravity. destruct (Z.rem (Turns g) 5 =? 0); simpl; done. Qed.

Lemma humanTurn_effect g row c :
  let res := humanTurn g row c in
  moveEffect g res.1 row c (Current g) (if Current g =? cellR then cellY else cellR)
  /\ (res.2 = true -> GameOver res.1 = true)
  /\ (res.2 = false -> GameOver res.1 = GameOver g).
Proof.
  unfold humanTurn.
  match goal with
  | |- context [checkResult ?g1 row c ?p] =>
      pose proof (checkResult_fields g1 row c p) as H;
      destruct (checkResult g1 row c p) as [g2 over]
  end.
  simpl in H. destruct H as (HG & HT & HU & HC & HM & HCo & Hov & Hno).
  destruct over; simpl.
  - split; [|split; [auto|done]].
    unfold moveEffect. rewrite HG, HT, HU, HC, HM, HCo.
    split; [done|]. split; [done|]. split; [done|]. split; [done|].
    left. by rewrite Hov.
  - rewrite (Hno eq_refl). unfold flipGravity. simpl.
    split; [|split; [done|]].
    + unfold moveEffect.
      destruct (Z.rem (Turns g + 1) 5 =? 0); simpl;
        (split; [done|]; split; [done|]; split; [done|]; split; [done|]; by right).
    + intros _. by destruct (Z.rem (Turns g + 1) 5 =? 0).
Qed.

Lemma onlineTurn_effect g side c g' over :
  onlineTurn g side c = Some (g', over) ->
  let row := dropRow (Grid g) c (GravityUp g) in
  Current g = (if String.eqb side "Y" then cellY else cellR)
  /\ GameOver g = false /\ row <> -1 /\ cellAt (Grid g) row c = cellEmpty
  /\ moveEffect g g' row c (Current g) (if Current g =? cellR then cellY else cellR)
  /\ (over = true -> GameOver g' = true)
  /\ (over = false -> GameOver g' = false).
Proof.
  unfold onlineTurn.
  destruct (Current g =? (if String.eqb side "Y" then cellY else cellR)) eqn:E1;
    simpl; [|done].
  destruct (GameOver g) eqn:E2; simpl; [done|].
  destruct (dropRow (Grid g) c (GravityUp g) =? -1) eqn:E3; simpl; [done|].
  destruct (cellAt (Grid g) (dropRow (Grid g) c (GravityUp g)) c =? cellEmpty) eqn:E4;
    simpl; [|done].
  apply Z.eqb_eq in E1, E4. apply Z.eqb_neq in E3.
  match goal with
  | |- context [checkResult ?g1 ?row c ?p] =>
      pose proof (checkResult_fields g1 row c p) as H;
      destruct (checkResult g1 row c p) as [g2 ov]
  end.
  simpl in H. destruct H as (HG & HT & HU & HC & HM & HCo & Hov & Hno).
  destruct ov; intros [= <- <-].
  - split; [done|]. split; [done|]. split; [done|]. split; [done|].
    split; [|split; [auto|done]].
    unfold moveEffect. rewrite HG, HT, HU, HC, HM, HCo.
    split; [done|]. split; [done|]. split; [done|]. split; [done|].
    left. by rewrite Hov.
  - rewrite (Hno eq_refl). unfold flipGravity. simpl.
    split; [done|]. split; [done|]. split; [done|]. split; [done|].
    split; [|split; [done|]].
    + unfold moveEffect.
      destruct (Z.rem (Turns g + 1) 5 =? 0); simpl;
        (split; [done|]; split; [done|]; split; [done|]; split; [done|]; by right).
    + intros _. by destruct (Z.rem (Turns g + 1) 5 =? 0).
Qed.

Lemma onlineTurn_refused g side c :
  onlineTurn g side c = None
  <-> (Current g <> (if String.eqb side "Y" then cellY else cellR)
       \/ GameOver g = true \/ dropRow (Grid g) c (GravityUp g) = -1).
Proof.
  unfold onlineTurn.
  destruct (Current g =? (if String.eqb side "Y" then cellY else cellR)) eqn:E1; simpl.
  2:{ apply Z.eqb_neq in E1. split; [by left|done]. }
  apply Z.eqb_eq in E1.
  destruct (GameOver g) eqn:E2; simpl.
  { split; [by right; left|done]. }
  destruct (dropRow (Grid g) c (GravityUp g) =? -1) eqn:E3; simpl.
  { apply Z.eqb_eq in E3. split; [by right; right|done]. }
  apply Z.eqb_neq in E3.
  rewrite (dropRow_lands_on_empty _ _ _ E3). simpl.
  destruct (checkResult _ _ _ _) as [g2 ov]. destruct ov.
  - split; [done|]. intros [?|[?|?]]; done.
  - split; [done|]. intros [?|[?|?]]; done.
Qed.

(** ** The heuristic opponent leaves the game as it found it *)

Lemma try_and_restore grid r c v :
  cellAt grid r c = cellEmpty -> setAt (setAt grid r c v) r c cellEmpty = grid.
Proof. intros H. apply setAt_restore. by apply cellAt_empty_getAt. Qed.

Lemma needBlockLoop_grid n : forall grid cols up cc nb,
  (needBlockLoop n grid cols up cc nb).1 = grid.
Proof.
  induction n as [|n IH]; intros grid cols up cc nb; simpl; [done|].
  destruct ((cc <? cols) && negb nb); [|done].
  destruct (dropRow grid cc up =? -1); simpl; [apply IH|].
  destruct (cellAt grid (dropRow grid cc up) cc =? cellEmpty) eqn:E; simpl; [|apply IH].
  apply Z.eqb_eq in E. rewrite try_and_restore by done. apply IH.
Qed.

Lemma chooseLoop_game n : forall g c bestCol bestScore,
  (chooseLoop n g c bestCol bestScore).1 = g.
Proof.
  induction n as [|n IH]; intros g c bestCol bestScore; simpl; [done|].
  destruct (c <? Cols g); [|done].
  destruct (dropRow (Grid g) c (GravityUp g) =? -1); simpl; [apply IH|].
  destruct (cellAt (Grid g) (dropRow (Grid g) c (GravityUp g)) c =? cellEmpty) eqn:E;
    simpl; [|apply IH].
  apply Z.eqb_eq in E.
  destruct (4 <=? len (winningLine _ _ _ _)).
  - cbn [fst]. rewrite setGrid_setGrid.
    rewrite try_and_restore by done. apply setGrid_same.
  - match goal with
    | |- context [needBlockLoop ?k ?gr ?co ?u ?x ?b] =>
        pose proof (needBlockLoop_grid k gr co u x b) as Hnb;
        destruct (needBlockLoop k gr co u x b) as [grid' nb]
    end.
    cbn [fst] in Hnb. subst grid'.
    rewrite ?setGrid_setGrid, ?Grid_setGrid.
    rewrite try_and_restore by done. rewrite setGrid_same.
    destruct (bestScore <? _); apply IH.
Qed.

Lemma chooseAIMove_game g : (chooseAIMove g).1 = g.
Proof. apply chooseLoop_game. Qed.

(** The answer of the computer: nothing, or one move of Yellow on an empty
    cell. *)
Lemma aiTurn_cases g :
  (aiTurn g).1 = g
  \/ exists row c,
       GameOver g = false /\ Current g = cellY
       /\ cellAt (Grid g) row c = cellEmpty
       /\ moveEffect g (aiTurn g).1 row c cellY cellR.
Proof.
  unfold aiTurn.
  destruct (String.eqb (Mode g) "ai"); simpl; [|by left].
  destruct (Current g =? cellY) eqn:EC; simpl; [|by left].
  destruct (GameOver g) eqn:EO; simpl; [by left|].
  apply Z.eqb_eq in EC.
  pose proof (chooseAIMove_game g) as Hg.
  destruct (chooseAIMove g) as [g1 aiCol]. simpl in Hg. subst g1.
  destruct (0 <=? aiCol); [|by left].
  destruct (dropRow (Grid g) aiCol (GravityUp g) =? -1); simpl; [by left|].
  destruct (cellAt (Grid g) (dropRow (Grid g) aiCol (GravityUp g)) aiCol =? cellEmpty)
    eqn:E; [|by left].
  apply Z.eqb_eq in E. right.
  exists (dropRow (Grid g) aiCol (GravityUp g)), aiCol.
  split; [done|]. split; [done|]. split; [done|].
  match goal with
  | |- context [checkResult ?g1 ?row ?c ?p] =>
      pose proof (checkResult_fields g1 row c p) as H;
      destruct (checkResult g1 row c p) as [g2 ov]
  end.
  simpl in H. destruct H as (HG & HT & HU & HC & HM & HCo & Hov & Hno).
  destruct ov; simpl.
  - unfold moveEffect. rewrite HG, HT, HU, HC, HM, HCo.
    split; [done|]. split; [done|]. split; [done|]. split; [done|].
    left. by rewrite Hov.
  - rewrite (Hno eq_refl). unfold moveEffect, flipGravity. simpl.
    destruct (Z.rem (Turns g + 1) 5 =? 0); simpl;
      (split; [done|]; split; [done|]; split; [done|]; split; [done|]; by right).
Qed.

(** Every applied move writes one piece on an empty cell of a game that is
    not over. *)
Lemma applied_effect g g' :
  applied g g' ->
  exists row c piece next,
    GameOver g = false /\ cellAt (Grid g) row c = cellEmpty
    /\ moveEffect g g' row c piece next.
Proof.
  intros [g1 c Hover Hc Hrow|g1 Hturn|g1 side c g2 over Hturn].
  - exists (dropRow (Grid g1) c (GravityUp g1)), c, (Current g1),
      (if Current g1 =? cellR then cellY else cellR).
    split; [done|]. split; [by apply dropRow_lands_on_empty|].
    apply humanTurn_effect.
  - destruct (aiTurn_cases g1) as [E|(row & c & H1 & H2 & H3 & H4)].
    + by rewrite E in Hturn.
    + exists row, c, cellY, cellR. done.
  - destruct (onlineTurn_effect _ _ _ _ _ Hturn) as (H1 & H2 & H3 & H4 & H5 & _).
    exists (dropRow (Grid g1) c (GravityUp g1)), c, (Current g1),
      (if Current g1 =? cellR then cellY else cellR). done.
Qed.

(** A request to [handlePlay] applies no move, the move of the player, or
    the move of the player and the answer of the computer. *)
Lemma handlePlay_moves g col :
  let g' := (handlePlay true g col).1 in
  g' = g \/ applied g g' \/ exists g1, applied g g1 /\ applied g1 g'.
Proof.
  unfold handlePlay. simpl.
  destruct (GameOver g) eqn:EO; [by left|].
  destruct col as [c|]; [|by left].
  destruct (c <? 0) eqn:E1; simpl; [by left|].
  destruct (Cols g <=? c) eqn:E2; simpl; [by left|].
  destruct (dropRow (Grid g) c (GravityUp g) =? -1) eqn:E3; simpl; [by left|].
  apply Z.ltb_ge in E1. apply Z.leb_gt in E2. apply Z.eqb_neq in E3.
  rewrite (dropRow_lands_on_empty _ _ _ E3). simpl.
  assert (applied g (humanTurn g (dropRow (Grid g) c (GravityUp g)) c).1) as Hap
    by (apply applied_human; [done|lia|done]).
  destruct (humanTurn g (dropRow (Grid g) c (GravityUp g)) c) as [g1 over].
  simpl in Hap. destruct over; simpl; [by right; left|].
  destruct (decide (Turns (aiTurn g1).1 = Turns g1)) as [E|E].
  - destruct (aiTurn_cases g1) as [->|(row & c' & _ & _ & _ & Hm)]; [by right; left|].
    destruct Hm as (_ & HT & _). lia.
  - right. right. exists g1. split; [done|]. by apply applied_ai.
Qed.

Lemma reachable_movesFrom g0 g : reachable g0 g -> exists n, movesFrom g0 n g.
Proof.
  induction 1 as [|g col _ [n IH]|g side c g' over _ [n IH] Hturn].
  - exists O. constructor.
  - destruct (handlePlay_moves g col) as [->|[Hap|(g1 & H1 & H2)]].
    + by exists n.
    + exists (S n). by econstructor.
    + exists (S (S n)). econstructor; [|exact H2]. by econstructor.
  - exists (S n). econstructor; [done|]. by eapply applied_online.
Qed.

(** ** New games *)

Lemma fresh_start_state g :
  fresh g -> Turns g = 0 /\ GameOver g = false /\ GravityUp g = false.
Proof.
  intros [now rnd|mode p1 p2 diff now rnd _|rows cols blocks p1 p2 diff code now rnd
         |g0 now rnd].
  - done.
  - unfold startGame. by destruct (configByDifficulty diff) as [[? ?] ?].
  - done.
  - unfold replayGame. by destruct (configByDifficulty (Difficulty g0)) as [[? ?] ?].
Qed.

Lemma movesFrom_turns g0 n g :
  movesFrom g0 n g -> Turns g = Turns g0 + Z.of_nat n.
Proof.
  induction 1 as [|n g g' _ IH Hap]; [lia|].
  destruct (applied_effect _ _ Hap) as (row & c & piece & next & _ & _ & Hm).
  destruct Hm as (_ & HT & _). lia.
Qed.

(** ** Gravity *)

(** C2. Along any sequence of applied moves from a new game, the move that
    brings the count of applied moves to [n + 1] leaves [Turns] at [n + 1],
    and it inverts [GravityUp] exactly when [n + 1] is a multiple of five and
    the move does not end the game; a move that ends the game, by a win or a
    draw, leaves gravity as it was. *)
Theorem gravity_flips_on_fifth_moves (g0 g g' : Game) (n : nat) :
  fresh g0 -> movesFrom g0 n g -> applied g g' ->
  Turns g' = Z.of_nat n + 1
  /\ (GravityUp g' = negb (GravityUp g)
      <-> (Z.of_nat n + 1) `mod` 5 = 0 /\ GameOver g' = false)
  /\ (GameOver g' = true -> GravityUp g' = GravityUp g).
Proof.
  intros Hfresh Hmoves Hap.
  destruct (fresh_start_state g0 Hfresh) as (HT0 & _ & _).
  pose proof (movesFrom_turns g0 n g Hmoves) as HT.
  destruct (applied_effect g g' Hap)
    as (row & c & piece & next & Hover & _ & _ & HT' & _ & _ & Hcases).
  assert (Turns g + 1 = Z.of_nat n + 1) as E by lia.
  rewrite E in Hcases. split; [lia|].
  rewrite Z.rem_mod_nonneg in Hcases by lia.
  destruct Hcases as [(Ho & Hu & _)|(Ho & _ & Hu)].
  - split; [|done]. rewrite Hu, Ho. split.
    + by destruct (GravityUp g).
    + by intros [_ ?].
  - rewrite Hover in Ho. split; [|by rewrite Ho].
    rewrite Hu, Ho.
    destruct ((Z.of_nat n + 1) `mod` 5 =? 0) eqn:E5.
    + apply Z.eqb_eq in E5. done.
    + apply Z.eqb_neq in E5. split; [by destruct (GravityUp g)|by intros [? _]].
Qed.

Lemma gravity_flips_on_fifth_moves_witness :
  Turns (humanMove crossAfter4 4) = 5
  /\ (GravityUp (humanMove crossAfter4 4) = negb (GravityUp crossAfter4)
      <-> (Z.of_nat 4 + 1) `mod` 5 = 0 /\ GameOver (humanMove crossAfter4 4) = false)
  /\ (GameOver (humanMove crossAfter4 4) = true
      -> GravityUp (humanMove crossAfter4 4) = GravityUp crossAfter4).
Proof.
  apply (gravity_flips_on_fifth_moves crossStart crossAfter4 (humanMove crossAfter4 4) 4).
  - apply fresh_start. by left.
  - unfold crossAfter4.
    apply moves_next with (g := humanMove (humanMove (humanMove crossStart 3) 3) 5).
    apply moves_next with (g := humanMove (humanMove crossStart 3) 3).
    apply moves_next with (g := humanMove crossStart 3).
    apply moves_next with (g := crossStart).
    + apply moves_none.
    + apply applied_human; vm_compute; [reflexivity|split; [discriminate|reflexivity]|discriminate].
    + apply applied_human; vm_compute; [reflexivity|split; [discriminate|reflexivity]|discriminate].
    + apply applied_human; vm_compute; [reflexivity|split; [discriminate|reflexivity]|discriminate].
    + apply applied_human; vm_compute; [reflexivity|split; [discriminate|reflexivity]|discriminate].
  - apply applied_human; vm_compute; [reflexivity|split; [discriminate|reflexivity]|discriminate].
Defined.

(** ** Blocks *)

Lemma movesFrom_keepsBlocks g0 n g :
  movesFrom g0 n g -> keepsBlocks (Grid g0) (Grid g).
Proof.
  induction 1 as [|n g g' _ IH Hap]; [by intros r c|].
  destruct (applied_effect _ _ Hap) as (row & c & piece & next & _ & Hempty & HG & _).
  intros r' c' Hblk. rewrite HG. rewrite cellAt_setAt_ne; [by apply IH|].
  intros [= -> ->]. rewrite (IH _ _ Hblk) in Hempty. done.
Qed.

(** C9. In every state reached from a new game by requests of the local
    game (the answers of the computer included) and of the online game, each
    cell that held a block in the new game still holds it; and whenever
    [dropRow] yields a landing row, the cell there is empty. *)
Theorem blocks_never_overwritten (g0 g : Game) :
  fresh g0 -> reachable g0 g ->
  (forall r c, cellAt (Grid g0) r c = cellBlk -> cellAt (Grid g) r c = cellBlk)
  /\ (forall col, dropRow (Grid g) col (GravityUp g) <> -1 ->
        cellAt (Grid g) (dropRow (Grid g) col (GravityUp g)) col = cellEmpty).
Proof.
  intros _ Hreach. split.
  - destruct (reachable_movesFrom g0 g Hreach) as [n Hn].
    exact (movesFrom_keepsBlocks g0 n g Hn).
  - intros col. apply dropRow_lands_on_empty.
Qed.

Lemma blocks_never_overwritten_witness :
  cellAt (Grid crossStart) 4 1 = cellBlk /\ cellAt (Grid crossBefore) 4 1 = cellBlk.
Proof.
  assert (cellAt (Grid crossStart) 4 1 = cellBlk) as H by (vm_compute; reflexivity).
  split; [exact H|].
  refine (proj1 (blocks_never_overwritten crossStart crossBefore _ _) 4 1 H).
  - apply fresh_start. by left.
  - apply reachable_playAll, reach_start.
Defined.

(** ** A draw on a board that still has room *)

(** C10. A local game on the easy board reaches, by seventeen requests, a
    state in which the last piece lines up no four, row 0 holds no empty
    cell, and [checkResult] has ended the game with the draw message and the
    scores untouched, while every column still has an empty cell on which
    [dropRow] lands. *)
Theorem draw_declared_with_room_left :
  exists g0 cols,
    fresh g0 /\ reachable g0 (playAll g0 cols)
    /\ let g := playAll g0 cols in
       GameOver g = true /\ Message g = drawMessage
       /\ Turns g = 17 /\ ScoresR g = 0 /\ ScoresY g = 0
       /\ isDraw (Grid g) = true
       /\ len (winningLine (Grid g) 0 6 cellR) < 4
       /\ forall col, 0 <= col < Cols g ->
            dropRow (Grid g) col (GravityUp g) = 1
            /\ cellAt (Grid g) 1 col = cellEmpty.
Proof.
  exists drawStart, drawMoves.
  split; [apply fresh_start; by left|].
  split; [apply reachable_playAll, reach_start|].
  cbv zeta.
  split; [vm_compute; reflexivity|]. split; [vm_compute; reflexivity|].
  split; [vm_compute; reflexivity|]. split; [vm_compute; reflexivity|].
  split; [vm_compute; reflexivity|]. split; [vm_compute; reflexivity|].
  split; [vm_compute; reflexivity|].
  intros col Hcol.
  replace (Cols (playAll drawStart drawMoves)) with 7 in Hcol
    by (vm_compute; reflexivity).
  assert (col = 0 \/ col = 1 \/ col = 2 \/ col = 3 \/ col = 4 \/ col = 5 \/ col = 6)
    as Hc by lia.
  destruct Hc as [->|[->|[->|[->|[->|[->| ->]]]]]];
    (split; vm_compute; reflexivity).
Qed.

(** ** Online moves *)



(** ** The chat: texts and logs *)




Lemma capChat_spec chat :
  len (capChat chat) = Z.min 200 (len chat)
  /\ exists evicted, chat = evicted ++ capChat chat.
Proof.
  unfold capChat, len. destruct (200 <? Z.of_nat (length chat)) eqn:E.
  - apply Z.ltb_lt in E. rewrite length_drop. split; [lia|].
    exists (take (length chat - 200) chat). by rewrite take_drop.
  - apply Z.ltb_ge in E. split; [lia|]. by exists [].
Qed.

Lemma chatSorted_bounds chat : forall lo hi, chatSorted lo chat hi -> lo <= hi.
Proof.
  induction chat as [|m chat IH]; intros lo hi; simpl; [done|].
  intros [H1 H2]. apply IH in H2. lia.
Qed.

Lemma chatSorted_weaken chat : forall lo lo' hi hi',
  lo' <= lo -> hi <= hi' -> chatSorted lo chat hi -> chatSorted lo' chat hi'.
Proof.
  induction chat as [|m chat IH]; intros lo lo' hi hi' Hlo Hhi; simpl; [lia|].
  intros [H1 H2]. split; [lia|]. by apply (IH (ID m) (ID m) hi hi').
Qed.

Lemma chatSorted_app chat m : forall lo hi,
  chatSorted lo chat hi -> hi < ID m -> chatSorted lo (chat ++ [m]) (ID m).
Proof.
  induction chat as [|m0 chat IH]; intros lo hi; simpl.
  - intros H1 H2. lia.
  - intros [H1 H2] H3. split; [done|]. by apply (IH _ hi).
Qed.

Lemma chatSorted_suffix evicted : forall chat lo hi,
  chatSorted lo (evicted ++ chat) hi -> chatSorted lo chat hi.
Proof.
  induction evicted as [|m evicted IH]; intros chat lo hi; simpl; [done|].
  intros [H1 H2]. apply IH in H2. by apply (chatSorted_weaken _ (ID m) lo hi hi); [lia|lia|].
Qed.

Lemma chatSorted_elem chat : forall lo hi m,
  chatSorted lo chat hi -> m ∈ chat -> lo < ID m <= hi.
Proof.
  induction chat as [|m0 chat IH]; intros lo hi m; simpl.
  - intros _ H. by apply elem_of_nil in H.
  - intros [H1 H2] Hm. apply elem_of_cons in Hm as [->|Hm].
    + apply chatSorted_bounds in H2. lia.
    + specialize (IH _ _ _ H2 Hm). lia.
Qed.

Lemma chatSorted_increasing chat : forall lo hi i j a b,
  chatSorted lo chat hi ->
  chat !! i = Some a -> chat !! j = Some b -> (i < j)%nat -> ID a < ID b.
Proof.
  induction chat as [|m chat IH]; intros lo hi i j a b Hs Ha Hb Hij; [done|].
  destruct Hs as [H1 H2]. destruct j as [|j]; [lia|]. simpl in Hb.
  destruct i as [|i]; simpl in Ha.
  - injection Ha as ->.
    pose proof (chatSorted_elem chat (ID a) hi b H2 (list_elem_of_lookup_2 _ _ _ Hb)).
    lia.
  - apply (IH (ID m) hi i j a b); [done|done|done|lia].
Qed.

(** ** The chat: what a feed collects *)

Lemma collectSince_elem chat since m :
  m ∈ collectSince chat since <-> m ∈ chat /\ since < ID m.
Proof.
  induction chat as [|m0 chat IH]; simpl.
  - rewrite elem_of_nil. split; [done|by intros [? _]].
  - destruct (since <? ID m0) eqn:E.
    + apply Z.ltb_lt in E. rewrite !elem_of_cons, IH. split.
      * intros [->|[? ?]]; [split; [by left|done]|split; [by right|done]].
      * intros [[->|?] ?]; [by left|by right].
    + apply Z.ltb_ge in E. rewrite elem_of_cons, IH. split.
      * intros [? ?]. split; [by right|done].
      * intros [[->|?] ?]; [lia|done].
Qed.

Lemma collectSince_sublist chat since : collectSince chat since `sublist_of` chat.
Proof.
  induction chat as [|m0 chat IH]; simpl; [constructor|].
  destruct (since <? ID m0); by constructor.
Qed.

Lemma collectSince_all chat since :
  (forall m, m ∈ chat -> since < ID m) -> collectSince chat since = chat.
Proof.
  induction chat as [|m0 chat IH]; simpl; [done|]. intros H.
  replace (since <? ID m0) with true.
  - f_equal. apply IH. intros m Hm. apply H. apply elem_of_cons. by right.
  - symmetry. apply Z.ltb_lt. apply H. apply elem_of_cons. by left.
Qed.

Lemma collectSince_none chat since :
  (forall m, m ∈ chat -> ID m <= since) -> collectSince chat since = [].
Proof.
  induction chat as [|m0 chat IH]; simpl; [done|]. intros H.
  replace (since <? ID m0) with false.
  - apply IH. intros m Hm. apply H. apply elem_of_cons. by right.
  - symmetry. apply Z.ltb_ge. apply H. apply elem_of_cons. by left.
Qed.

Lemma collectSince_sorted chat since : forall lo hi,
  chatSorted lo chat hi ->
  chatSorted (Z.max lo since) (collectSince chat since) (Z.max hi since).
Proof.
  induction chat as [|m0 chat IH]; intros lo hi; simpl; [lia|].
  intros [H1 H2]. destruct (since <? ID m0) eqn:E.
  - apply Z.ltb_lt in E. simpl. split; [lia|].
    apply (chatSorted_weaken _ (Z.max (ID m0) since) _ (Z.max hi since)); [lia|lia|].
    by apply IH.
  - apply Z.ltb_ge in E.
    apply (chatSorted_weaken _ (Z.max (ID m0) since) _ (Z.max hi since)); [lia|lia|].
    by apply IH.
Qed.

(** ** The chat: the states of the server *)

Lemma handleChatPost_accepted s code side name text now s' :
  handleChatPost true s code side name text now = (s', 204) ->
  exists lb,
    lobbies s !! code = Some lb
    /\ s' = mkServer (sessions s)
              (<[code := postedLobby lb side name text now]> (lobbies s)).
Proof.
  unfold handleChatPost. cbn [negb].
  destruct (String.eqb code "" || (negb (String.eqb side "R") && negb (String.eqb side "Y"))
            || String.eqb text ""); [done|].
  destruct (lobbies s !! code) as [lb|]; [|done].
  intros [= <-]. by exists lb.
Qed.

Lemma servingInv_update s log code lb lb' ss :
  servingInv s log -> lobbies s !! code = Some lb ->
  Chat lb' = Chat lb -> NextChatID lb' = NextChatID lb ->
  servingInv (mkServer ss (<[code := lb']> (lobbies s))) log.
Proof.
  intros [H1 H2] Hlb Hc Hn. split; simpl.
  - intros code0 lb0. rewrite lookup_insert. case_decide as E.
    + subst code0. intros [= <-]. destruct (H1 code lb Hlb) as [? ?].
      split; [done|]. by rewrite Hc, Hn.
    + apply H1.
  - intros code0 id Hin. destruct (H2 code0 id Hin) as (lb0 & Hlb0 & Hid).
    rewrite lookup_insert. case_decide as E.
    + subst code0. exists lb'. split; [done|]. rewrite Hn. congruence.
    + by exists lb0.
Qed.

Lemma servingInv_sessions s log ss :
  servingInv s log -> servingInv (mkServer ss (lobbies s)) log.
Proof. by intros [H1 H2]. Qed.

Lemma servingInv_post s log code side name text now lb :
  servingInv s log -> lobbies s !! code = Some lb ->
  servingInv (mkServer (sessions s)
                (<[code := postedLobby lb side name text now]> (lobbies s)))
    ((code, NextChatID lb + 1) :: log).
Proof.
  intros [H1 H2] Hlb. split; simpl.
  - intros code0 lb0. rewrite lookup_insert. case_decide as E; [|apply H1].
    subst code0. intros [= <-]. destruct (H1 code lb Hlb) as [Hlen Hs].
    split; [done|]. simpl.
    destruct (capChat_spec (Chat lb ++ [postedMessage lb side name text now]))
      as [_ [evicted Hev]].
    apply (chatSorted_suffix evicted). rewrite <- Hev.
    change (NextChatID lb + 1) with (ID (postedMessage lb side name text now)).
    apply (chatSorted_app _ _ _ (NextChatID lb)); [done|simpl; lia].
  - intros code0 id Hin. apply elem_of_cons in Hin as [[= -> ->]|Hin].
    + exists (postedLobby lb side name text now).
      rewrite lookup_insert_eq. split; [done|]. simpl. lia.
    + destruct (H2 code0 id Hin) as (lb0 & Hlb0 & Hid).
      rewrite lookup_insert. case_decide as E.
      * subst code0. exists (postedLobby lb side name text now).
        split; [done|]. simpl. assert (lb0 = lb) as -> by congruence. lia.
      * by exists lb0.
Qed.

Lemma serving_inv s log : serving s log -> servingInv s log.
Proof.
  induction 1 as [|s log ss _ IH
                  |s log rows cols blocks p1 p2 diff code gen now rnd _ IH Hgen
                  |s log code now _ IH
                  |s log code side col sid now _ IH
                  |s log code side name text now s' lb' _ IH Hpost Hlb'].
  - split; simpl.
    + intros code lb H. by rewrite lookup_empty in H.
    + intros code id H. by apply elem_of_nil in H.
  - by apply servingInv_sessions.
  - unfold handleOnlineCreate.
    set (code' := if strlen code <? 4 then gen else code).
    destruct (lobbies s !! code') as [lb|] eqn:E; simpl; [done|].
    destruct IH as [H1 H2]. split; simpl.
    + intros code0 lb0. rewrite lookup_insert. case_decide as E0; [|apply H1].
      subst code0. intros [= <-]. split; [|simpl; lia].
      unfold code', strlen. destruct (Z.of_nat (String.length code) <? 4) eqn:E4.
      * lia.
      * apply Z.ltb_ge in E4. lia.
    + intros code0 id Hin. destruct (H2 code0 id Hin) as (lb0 & Hlb0 & Hid).
      rewrite lookup_insert. case_decide as E0; [congruence|]. by exists lb0.
  - unfold handleOnlineJoin.
    destruct (String.eqb code ""); [done|].
    destruct (lobbies s !! code) as [lb|] eqn:E; [|done].
    destruct (negb (HasYellow lb)); [|done]. simpl.
    by apply (servingInv_update s log code lb).
  - unfold handleOnlinePlay. cbn [negb].
    destruct (lobbies s !! code) as [lb|] eqn:E; [|done].
    destruct (onlineTurn (lobbyGame lb) side (default 0 col)) as [[g over]|]; [|done].
    destruct over; simpl; by apply (servingInv_update s log code lb).
  - destruct (handleChatPost_accepted _ _ _ _ _ _ _ Hpost) as (lb & Hlb & ->).
    simpl in Hlb'. rewrite lookup_insert_eq in Hlb'. injection Hlb' as <-.
    simpl. by apply servingInv_post.
Qed.

(** ** The chat: posting *)


Lemma serving_sample : serving sampleServer [].
Proof. apply serving_create; [apply serving_start|reflexivity]. Qed.

Lemma lookup_sample : lobbies sampleServer !! "ABCD" = Some sampleLobby.
Proof. vm_compute. reflexivity. Qed.

Lemma serving_chat1 : serving chatServer1 [("ABCD", 1)].
Proof.
  refine (serving_chat sampleServer [] "ABCD" "R" "Ann" "un" 1 chatServer1
            (postedLobby sampleLobby "R" "Ann" "un" 1) serving_sample _ _).
  - vm_compute. reflexivity.
  - vm_compute. reflexivity.
Qed.



(** ** The chat: reading *)

(** C8, amended. On a server reached from its start, a feed request for the
    code of a lobby it holds is answered with exactly the stored messages
    whose identifier is above [since], in the order of the log, which is the
    increasing order of the identifiers; the answer has no message when no
    stored identifier is above [since], and it is the whole log when [since]
    is 0.  For a code that names no lobby the answer is not a sequence but
    the error 404 (400 for an empty code). *)
Theorem handleChatFeed_since (s : server) (log : list (string * Z))
    (code : string) (since : option Z) :
  serving s log ->
  match lobbies s !! code with
  | Some lb =>
      exists out,
        handleChatFeed s code since = FeedItems out
        /\ (forall m, m ∈ out <-> m ∈ Chat lb /\ default 0 since < ID m)
        /\ out `sublist_of` Chat lb
        /\ (forall i j a b, out !! i = Some a -> out !! j = Some b ->
              (i < j)%nat -> ID a < ID b)
        /\ ((forall m, m ∈ Chat lb -> ID m <= default 0 since) -> out = [])
        /\ (default 0 since = 0 -> out = Chat lb)
  | None =>
      handleChatFeed s code since
      = if String.eqb code "" then FeedBadRequest else FeedNotFound
  end.
Proof.
  intros Hserv. destruct (serving_inv s log Hserv) as [H1 _].
  unfold handleChatFeed.
  destruct (lobbies s !! code) as [lb|] eqn:Hlb; [|done].
  destruct (H1 code lb Hlb) as [Hlen Hsorted].
  assert (String.eqb code "" = false) as ->.
  { apply String.eqb_neq. intros ->. simpl in Hlen. lia. }
  exists (collectSince (Chat lb) (default 0 since)).
  split; [done|]. split; [apply collectSince_elem|].
  split; [apply collectSince_sublist|]. split; [|split].
  - intros i j a b. eapply chatSorted_increasing.
    by apply collectSince_sorted.
  - apply collectSince_none.
  - intros ->. apply collectSince_all. intros m Hm.
    pose proof (chatSorted_elem _ _ _ m Hsorted Hm). lia.
Qed.

Lemma serving_chat2 : serving chatServer2 [("ABCD", 2); ("ABCD", 1)].
Proof.
  refine (serving_chat chatServer1 _ "ABCD" "R" "Ann" "deux" 2 chatServer2
            (postedLobby (postedLobby sampleLobby "R" "Ann" "un" 1) "R" "Ann" "deux" 2)
            serving_chat1 _ _).
  - vm_compute. reflexivity.
  - vm_compute. reflexivity.
Qed.

Lemma handleChatFeed_since_witness :
  exists out,
    handleChatFeed chatServer2 "ABCD" (Some 1) = FeedItems out
    /\ forall m, m ∈ out
       <-> m ∈ Chat (postedLobby (postedLobby sampleLobby "R" "Ann" "un" 1)
                       "R" "Ann" "deux" 2)
           /\ 1 < ID m.
Proof.
  pose proof (handleChatFeed_since chatServer2 _ "ABCD" (Some 1) serving_chat2) as H.
  replace (lobbies chatServer2 !! "ABCD")
    with (Some (postedLobby (postedLobby sampleLobby "R" "Ann" "un" 1)
                  "R" "Ann" "deux" 2)) in H by (vm_compute; reflexivity).
  destruct H as (out & H1 & H2 & _). exists out. split; [exact H1|exact H2].
Defined.

(** C8 as stated fails for an absent lobby: the feed of a code that names no
    lobby is the error 404, not an empty sequence of messages. *)
Lemma handleChatFeed_absent_lobby :
  lobbies sampleServer !! "WXYZ" = None
  /\ handleChatFeed sampleServer "WXYZ" (Some 0) = FeedNotFound
  /\ handleChatFeed sampleServer "WXYZ" (Some 0) <> FeedItems [].
Proof.
  split; [vm_compute; reflexivity|].
  split; [vm_compute; reflexivity|].
  vm_compute. discriminate.
Qed.

(** ** The heuristic opponent and the threats of Red *)

(** The flag [needBlock] is raised exactly when, on the grid that holds
    Yellow's candidate piece, Red still has a column in which it lines up
    four. *)
Lemma needBlockLoop_flag n : forall grid cols up cc nb,
  (needBlockLoop n grid cols up cc nb).2 = true
  <-> nb = true
      \/ exists c', cc <= c' < cc + Z.of_nat n /\ c' < cols
                    /\ winsAt grid up cellR c' = true.
Proof.
  induction n as [|n IH]; intros grid cols up cc nb.
  - simpl. split; [by left|]. intros [?|(c' & ? & _)]; [done|lia].
  - cbn [needBlockLoop].
    destruct (cc <? cols) eqn:Ecc; cbn [andb].
    2:{ apply Z.ltb_ge in Ecc. simpl. split; [by left|].
        intros [?|(c' & ? & ? & _)]; [done|lia]. }
    apply Z.ltb_lt in Ecc.
    destruct nb; cbn [negb].
    { simpl. split; [by left|done]. }
    unfold winsAt at 1.
    destruct (dropRow grid cc up =? -1) eqn:E1; cbn [orb negb andb].
    { rewrite IH. split.
      - intros [?|(c' & ? & ? & ?)]; [done|]. right. exists c'. split; [lia|done].
      - intros [?|(c' & ? & ? & Hw)]; [done|]. right.
        destruct (decide (c' = cc)) as [->|].
        + unfold winsAt in Hw. by rewrite E1 in Hw.
        + exists c'. split; [lia|done]. }
    destruct (cellAt grid (dropRow grid cc up) cc =? cellEmpty) eqn:E2; cbn [orb negb andb].
    2:{ rewrite IH. split.
      - intros [?|(c' & ? & ? & ?)]; [done|]. right. exists c'. split; [lia|done].
      - intros [?|(c' & ? & ? & Hw)]; [done|]. right.
        destruct (decide (c' = cc)) as [->|].
        + unfold winsAt in Hw. rewrite E1, E2 in Hw. done.
        + exists c'. split; [lia|done]. }
    apply Z.eqb_eq in E2. rewrite try_and_restore by done. rewrite IH.
    destruct (4 <=? len (winningLine (setAt grid (dropRow grid cc up) cc cellR)
                           (dropRow grid cc up) cc cellR)) eqn:E3.
    + split; [|by left]. intros _. right. exists cc. split; [lia|]. split; [done|].
      unfold winsAt. rewrite E1, E3. apply Z.eqb_eq in E2. by rewrite E2.
    + split.
      * intros [?|(c' & ? & ? & ?)]; [done|]. right. exists c'. split; [lia|done].
      * intros [?|(c' & ? & ? & Hw)]; [done|]. right.
        destruct (decide (c' = cc)) as [->|].
        -- unfold winsAt in Hw. rewrite E1, E3 in Hw.
           by rewrite andb_false_r in Hw.
        -- exists c'. split; [lia|done].
Qed.

Lemma bonusFor_iff_threat_remains g c :
  bonusFor g c = true
  <-> exists c', 0 <= c' < Cols g
                 /\ winsAt (withYellow g c) (GravityUp g) cellR c' = true.
Proof.
  unfold bonusFor. rewrite needBlockLoop_flag. split.
  - intros [?|(c' & ? & ? & ?)]; [done|]. exists c'. split; [lia|done].
  - intros (c' & ? & ?). right. exists c'. split; [lia|]. split; [lia|done].
Qed.

(** One turn of the outer loop on a column where Yellow can play without
    winning: the column is scored with [candidateScore], that is with the
    bonus exactly when [bonusFor] holds, and is kept when it beats the best
    score so far. *)
Lemma chooseLoop_candidate n g c bestCol bestScore :
  c < Cols g -> dropRow (Grid g) c (GravityUp g) <> -1 ->
  winsAt (Grid g) (GravityUp g) cellY c = false ->
  chooseLoop (S n) g c bestCol bestScore
  = if bestScore <? candidateScore g c
    then chooseLoop n g (c + 1) c (candidateScore g c)
    else chooseLoop n g (c + 1) bestCol bestScore.
Proof.
  intros Hc Hrow Hwin. cbn [chooseLoop].
  replace (c <? Cols g) with true by (symmetry; by apply Z.ltb_lt).
  pose proof (dropRow_lands_on_empty _ _ _ Hrow) as Hempty.
  unfold winsAt in Hwin. rewrite Hempty in Hwin.
  replace (dropRow (Grid g) c (GravityUp g) =? -1) with false in *
    by (symmetry; by apply Z.eqb_neq).
  rewrite Hempty. rewrite Z.eqb_refl in *. cbn [negb orb andb] in *.
  rewrite Grid_setGrid, Hwin.
  unfold candidateScore, bonusFor, withYellow.
  change (Cols (setGrid ?v g)) with (Cols g).
  change (GravityUp (setGrid ?v g)) with (GravityUp g).
  pose proof (needBlockLoop_grid (Z.to_nat (Cols g))
                (setAt (Grid g) (dropRow (Grid g) c (GravityUp g)) c cellY)
                (Cols g) (GravityUp g) 0 false) as Hnb.
  destruct (needBlockLoop (Z.to_nat (Cols g))
              (setAt (Grid g) (dropRow (Grid g) c (GravityUp g)) c cellY)
              (Cols g) (GravityUp g) 0 false) as [grid' nb].
  cbn [fst snd] in *. subst grid'.
  rewrite ?setGrid_setGrid, ?Grid_setGrid.
  rewrite try_and_restore by done. rewrite setGrid_same. done.
Qed.

(** C1, on the code. In a game against the computer reached by three
    requests, Yellow has no winning column and Red lines up four by playing
    column 0.  Yellow's piece in column 0 removes that threat, and that
    column receives no bonus; in every other column the threat remains, and
    each of them receives the bonus, so that column 0 has by far the lowest
    score.  [chooseAIMove] picks column 3, and Red's next request in column
    0 wins the game. *)
Theorem chooseAIMove_rewards_open_threat :
  fresh blockStart /\ reachable blockStart blockBefore
  /\ applied blockBefore blockThreat
  /\ Mode blockThreat = "ai" /\ Current blockThreat = cellY
  /\ GameOver blockThreat = false /\ GravityUp blockThreat = true
  /\ Cols blockThreat = 7
  /\ (forall c, 0 <= c < 7 -> winsAt (Grid blockThreat) true cellY c = false)
  /\ winsAt (Grid blockThreat) true cellR 0 = true
  /\ (forall c', 0 <= c' < 7 -> winsAt (withYellow blockThreat 0) true cellR c' = false)
  /\ bonusFor blockThreat 0 = false
  /\ (forall c, 1 <= c < 7 ->
        winsAt (withYellow blockThreat c) true cellR 0 = true
        /\ bonusFor blockThreat c = true)
  /\ candidateScore blockThreat <$> seqZ 0 7
     = [-63; 4938; 4939; 4940; 4939; 4938; 4937]
  /\ chooseAIMove blockThreat = (blockThreat, 3)
  /\ (let g := (handlePlay true blockBefore (Some 0)).1 in
      cellAt (Grid g) 0 3 = cellY /\ cellAt (Grid g) 2 0 = cellEmpty
      /\ GameOver g = false
      /\ GameOver (handlePlay true g (Some 0)).1 = true
      /\ ScoresR (handlePlay true g (Some 0)).1 = 1).
Proof.
  split; [apply fresh_start; by right|].
  split; [apply reachable_playAll, reach_start|].
  split.
  { apply applied_human; vm_compute;
      [reflexivity|split; [discriminate|reflexivity]|discriminate]. }
  split; [vm_compute; reflexivity|]. split; [vm_compute; reflexivity|].
  split; [vm_compute; reflexivity|]. split; [vm_compute; reflexivity|].
  split; [vm_compute; reflexivity|].
  split.
  { intros c Hc.
    assert (c = 0 \/ c = 1 \/ c = 2 \/ c = 3 \/ c = 4 \/ c = 5 \/ c = 6) as Hcs by lia.
    destruct Hcs as [->|[->|[->|[->|[->|[->| ->]]]]]]; vm_compute; reflexivity. }
  split; [vm_compute; reflexivity|].
  split.
  { intros c Hc.
    assert (c = 0 \/ c = 1 \/ c = 2 \/ c = 3 \/ c = 4 \/ c = 5 \/ c = 6) as Hcs by lia.
    destruct Hcs as [->|[->|[->|[->|[->|[->| ->]]]]]]; vm_compute; reflexivity. }
  split; [vm_compute; reflexivity|].
  split.
  { intros c Hc.
    assert (c = 1 \/ c = 2 \/ c = 3 \/ c = 4 \/ c = 5 \/ c = 6) as Hcs by lia.
    destruct Hcs as [->|[->|[->|[->|[->| ->]]]]];
      (split; vm_compute; reflexivity). }
  split; [vm_compute; reflexivity|]. split; [vm_compute; reflexivity|].
  cbv zeta.
  split; [vm_compute; reflexivity|]. split; [vm_compute; reflexivity|].
  split; [vm_compute; reflexivity|]. split; [vm_compute; reflexivity|].
  vm_compute; reflexivity.
Qed.

(** ** Shapes and counts of grids *)

Lemma shape_setAt {A} (m : list (list A)) r c v :
  length <$> setAt m r c v = length <$> m.
Proof.
  unfold setAt. destruct ((r <? 0) || (c <? 0)); [done|].
  rewrite (list_fmap_alter length _ id).
  - by apply list_alter_id.
  - apply Forall_forall. intros row _. by rewrite length_insert.
Qed.

Lemma shape_len {A B} (m1 : list (list A)) (m2 : list (list B)) :
  length <$> m1 = length <$> m2 -> len m1 = len m2.
Proof.
  intros H. unfold len. apply (f_equal length) in H.
  rewrite !length_fmap in H. lia.
Qed.

Lemma shape_width {A B} (m1 : list (list A)) (m2 : list (list B)) :
  length <$> m1 = length <$> m2 -> width m1 = width m2.
Proof.
  intros H. unfold width, len.
  destruct m1 as [|r1 m1], m2 as [|r2 m2]; simpl in *; try done.
  injection H as H _. lia.
Qed.

Lemma shape_rectangular {A B} (m1 : list (list A)) (m2 : list (list B)) :
  length <$> m1 = length <$> m2 -> rectangular m2 -> rectangular m1.
Proof.
  intros H Hr. unfold rectangular in *.
  rewrite (shape_width m1 m2 H).
  pose proof (proj1 (Forall_lookup _ _) Hr) as Hr2. apply Forall_lookup.
  intros i row1 Hi.
  assert ((length <$> m1) !! i = (length <$> m2) !! i) as E by (by rewrite H).
  rewrite !list_lookup_fmap, Hi in E. simpl in E.
  destruct (m2 !! i) as [row2|] eqn:E2; [|done]. simpl in E.
  injection E as E. specialize (Hr2 i row2 E2). unfold len in *. simpl in Hr2. lia.
Qed.

Lemma rectangular_setAt {A} (m : list (list A)) r c v :
  rectangular m -> rectangular (setAt m r c v).
Proof. apply shape_rectangular, shape_setAt. Qed.

Lemma valid_setAt grid r c v :
  validCell v -> Forall (Forall validCell) grid ->
  Forall (Forall validCell) (setAt grid r c v).
Proof.
  intros Hv Hg. unfold setAt. destruct ((r <? 0) || (c <? 0)); [done|].
  apply Forall_alter; [done|]. intros row _ Hrow. by apply Forall_insert.
Qed.

Lemma valid_cellAt grid r c :
  Forall (Forall validCell) grid -> is_Some (getAt grid r c) ->
  validCell (cellAt grid r c).
Proof.
  intros Hg [x Hx]. unfold cellAt. rewrite Hx. simpl.
  unfold getAt in Hx. destruct ((r <? 0) || (c <? 0)); [done|].
  destruct (grid !! Z.to_nat r) as [row|] eqn:E; [|done].
  rewrite Forall_lookup in Hg. specialize (Hg _ _ E).
  rewrite Forall_lookup in Hg. by apply (Hg _ _ Hx).
Qed.

Lemma countRow_insert p row : forall i x v,
  row !! i = Some x ->
  countRow p (<[i := v]> row)
  = countRow p row - (if decide (x = p) then 1 else 0)
    + (if decide (v = p) then 1 else 0).
Proof.
  unfold countRow, len.
  induction row as [|y row IH]; intros [|i] x v Hx; simpl in Hx; try done.
  - injection Hx as ->. simpl. rewrite !filter_cons.
    destruct (decide (x = p)), (decide (v = p)); simpl; lia.
  - simpl. rewrite !filter_cons. specialize (IH i x v Hx).
    destruct (decide (y = p)); simpl; lia.
Qed.

Lemma countCells_alter p grid : forall i row c x v,
  grid !! i = Some row -> row !! c = Some x ->
  countCells p (alter (fun row => <[c := v]> row) i grid)
  = countCells p grid - (if decide (x = p) then 1 else 0)
    + (if decide (v = p) then 1 else 0).
Proof.
  unfold countCells.
  induction grid as [|row0 grid IH]; intros [|i] row c x v Hrow Hx;
    simpl in Hrow; try done.
  - injection Hrow as ->. simpl. rewrite (countRow_insert p row c x v Hx). lia.
  - simpl. pose proof (IH i row c x v Hrow Hx) as E. simpl in E.
    unfold alter in E. lia.
Qed.

(** Writing [v] over a cell that held [x] moves the counts of [x] and of
    [v] by one. *)
Lemma countCells_setAt p grid r c x v :
  getAt grid r c = Some x ->
  countCells p (setAt grid r c v)
  = countCells p grid - (if decide (x = p) then 1 else 0)
    + (if decide (v = p) then 1 else 0).
Proof.
  unfold getAt, setAt. destruct ((r <? 0) || (c <? 0)); [done|].
  destruct (grid !! Z.to_nat r) as [row|] eqn:E; [|done]. intros Hx.
  by apply (countCells_alter p grid _ row).
Qed.

Lemma countRow_nonneg p row : 0 <= countRow p row <= len row.
Proof.
  unfold countRow, len. pose proof (length_filter (fun x => x = p) row). lia.
Qed.

Lemma countCells_nonneg p grid : 0 <= countCells p grid.
Proof.
  induction grid as [|row grid IH]; simpl; [lia|].
  pose proof (countRow_nonneg p row). lia.
Qed.

Lemma countCells_replicate p n m x :
  x <> p -> countCells p (replicate n (replicate m x)) = 0.
Proof.
  intros Hx. induction n as [|n IH]; simpl; [done|]. rewrite IH.
  assert (countRow p (replicate m x) = 0) as ->; [|done].
  clear IH. unfold countRow, len. induction m as [|m IHm]; simpl; [done|].
  rewrite filter_cons_False; [exact IHm|done].
Qed.

(** ** isDraw *)

Lemma isDrawLoop_iff grid n : forall c,
  isDrawLoop grid c n = true
  <-> forall i, c <= i < c + Z.of_nat n -> cellAt grid 0 i <> cellEmpty.
Proof.
  induction n as [|n IH]; intros c; simpl.
  - split; [intros _ i Hi; lia|done].
  - destruct (cellAt grid 0 c =? cellEmpty) eqn:E.
    + apply Z.eqb_eq in E. split; [done|]. intros H. exfalso.
      apply (H c); [lia|done].
    + apply Z.eqb_neq in E. rewrite IH. split.
      * intros H i Hi. destruct (decide (i = c)) as [->|]; [done|]. apply H. lia.
      * intros H i Hi. apply H. lia.
Qed.

(** X3. [isDraw] holds exactly when no cell of row 0 is empty, whatever the
    rows below hold. *)
Theorem isDraw_iff_top_row_full (grid : list (list Z)) :
  isDraw grid = true
  <-> forall c, 0 <= c < width grid -> cellAt grid 0 c <> cellEmpty.
Proof.
  unfold isDraw. rewrite isDrawLoop_iff.
  assert (0 <= width grid) as Hw by (unfold width, len; lia).
  split; intros H c Hc; apply H; lia.
Qed.

(** ** placeBlocks and newGame *)

Lemma onlyBlocksAdded_refl grid : onlyBlocksAdded grid grid.
Proof. split; [done|]. intros r c. by left. Qed.

Lemma onlyBlocksAdded_trans g1 g2 g3 :
  onlyBlocksAdded g1 g2 -> onlyBlocksAdded g2 g3 -> onlyBlocksAdded g1 g3.
Proof.
  intros [S1 C1] [S2 C2]. split; [congruence|]. intros r c.
  destruct (C1 r c) as [E1|[E1 E1']], (C2 r c) as [E2|[E2 E2']].
  - left. congruence.
  - right. split; congruence.
  - right. split; congruence.
  - rewrite E1' in E2. done.
Qed.

Lemma onlyBlocksAdded_step grid r c :
  cellAt grid r c = cellEmpty -> onlyBlocksAdded grid (setAt grid r c cellBlk).
Proof.
  intros He. split; [apply shape_setAt|]. intros r' c'.
  destruct (decide ((r', c') = (r, c))) as [[= -> ->]|Hne].
  - right. split; [done|]. apply cellAt_setAt_eq. by rewrite He.
  - left. by apply cellAt_setAt_ne.
Qed.

Lemma placeBlocksLoop_inv fuel rnd : forall i grid h w n tries,
  let res := placeBlocksLoop fuel rnd i grid h w n tries in
  onlyBlocksAdded grid res
  /\ (Forall (Forall validCell) grid -> Forall (Forall validCell) res)
  /\ countCells cellBlk grid <= countCells cellBlk res
     <= countCells cellBlk grid + Z.max 0 n
  /\ (forall p, p <> cellEmpty -> p <> cellBlk ->
        countCells p res = countCells p grid).
Proof.
  induction fuel as [|fuel IH]; intros i grid h w n tries; simpl.
  { split; [apply onlyBlocksAdded_refl|]. split; [done|]. split; [lia|done]. }
  destruct (0 <? n) eqn:En; simpl.
  2:{ split; [apply onlyBlocksAdded_refl|]. split; [done|]. split; [lia|done]. }
  destruct (0 <? tries) eqn:Et; simpl.
  2:{ split; [apply onlyBlocksAdded_refl|]. split; [done|]. split; [lia|done]. }
  apply Z.ltb_lt in En.
  destruct (cellAt grid (rnd i `mod` h) (rnd (S i) `mod` w) =? cellEmpty) eqn:Ec.
  - apply Z.eqb_eq in Ec.
    destruct (IH (S (S i)) (setAt grid (rnd i `mod` h) (rnd (S i) `mod` w) cellBlk)
                h w (n - 1) (tries - 1)) as (H1 & H2 & H3 & H4).
    pose proof (cellAt_empty_getAt _ _ _ Ec) as Hget.
    split; [|split; [|split]].
    + eapply onlyBlocksAdded_trans; [by apply onlyBlocksAdded_step|exact H1].
    + intros Hv. apply H2. apply valid_setAt; [|done]. by right; right; right.
    + rewrite (countCells_setAt cellBlk _ _ _ _ cellBlk Hget) in H3.
      rewrite decide_False in H3 by done. rewrite decide_True in H3 by done. lia.
    + intros p Hp1 Hp2. rewrite (H4 p Hp1 Hp2).
      rewrite (countCells_setAt p _ _ _ _ cellBlk Hget).
      rewrite !decide_False by (unfold cellEmpty, cellBlk in *; congruence). lia.
  - destruct (IH (S (S i)) grid h w n (tries - 1)) as (H1 & H2 & H3 & H4). done.
Qed.


Lemma getAt_replicate {A} (n m : nat) (x : A) r c :
  0 <= r < Z.of_nat n -> 0 <= c < Z.of_nat m ->
  getAt (replicate n (replicate m x)) r c = Some x.
Proof.
  intros Hr Hc. unfold getAt.
  replace (r <? 0) with false by (symmetry; apply Z.ltb_ge; lia).
  replace (c <? 0) with false by (symmetry; apply Z.ltb_ge; lia). simpl.
  rewrite lookup_replicate_2 by lia. apply lookup_replicate_2. lia.
Qed.

Lemma shape_replicate {A} (n m : nat) (x : A) :
  length <$> replicate n (replicate m x) = replicate n m.
Proof. rewrite fmap_replicate. by rewrite length_replicate. Qed.

Lemma noneMarked_replicate n m : noneMarked (replicate n (replicate m false)) = true.
Proof.
  unfold noneMarked. apply forallb_forall. intros row Hrow.
  apply list_elem_of_In, elem_of_replicate in Hrow as [-> _].
  apply forallb_forall. intros b Hb.
  by apply list_elem_of_In, elem_of_replicate in Hb as [-> _].
Qed.

Lemma newGame_state (rows cols blocks now : Z) (rnd : nat -> Z) :
  0 < rows -> 0 < cols ->
  let g := newGame rows cols blocks now rnd in
  wfGame g
  /\ (forall r c, 0 <= r < rows -> 0 <= c < cols ->
        cellAt (Grid g) r c = cellEmpty \/ cellAt (Grid g) r c = cellBlk)
  /\ countCells cellBlk (Grid g) <= Z.max 0 blocks
  /\ countCells cellR (Grid g) = 0 /\ countCells cellY (Grid g) = 0
  /\ noneMarked (Winning g) = true
  /\ Turns g = 0 /\ GameOver g = false /\ GravityUp g = false
  /\ Current g = cellR /\ Mode g = "local".
Proof.
  intros Hrows Hcols g. subst g. unfold newGame.
  set (grid0 := replicate (Z.to_nat rows) (replicate (Z.to_nat cols) cellEmpty)).
  cbn [Grid Winning Turns GameOver GravityUp Current Mode Rows Cols].
  destruct (placeBlocksLoop_inv (Z.to_nat (blocks * 10)) rnd 0 grid0 (len grid0)
              (width grid0) blocks (blocks * 10)) as ([Hs Hc] & Hv & Hb & Hp).
  fold (placeBlocks rnd grid0 blocks) in Hs, Hc, Hv, Hb, Hp.
  assert (length <$> grid0 = replicate (Z.to_nat rows) (Z.to_nat cols)) as Hs0
    by apply shape_replicate.
  assert (len grid0 = rows) as Hlen0
    by (unfold grid0, len; rewrite length_replicate; lia).
  assert (width grid0 = cols) as Hw0.
  { unfold grid0, width, len. rewrite lookup_replicate_2 by lia. simpl.
    rewrite length_replicate. lia. }
  assert (rectangular grid0) as Hr0.
  { unfold rectangular. rewrite Hw0. unfold grid0. apply Forall_replicate.
    unfold len. rewrite length_replicate. lia. }
  assert (Forall (Forall validCell) grid0) as Hv0.
  { unfold grid0. apply Forall_replicate, Forall_replicate. by left. }
  split; [|split; [|split; [|split; [|split; [|split]]]]].
  - unfold wfGame. cbn [Grid Winning Turns Current Rows Cols].
    split; [done|]. split; [done|].
    split; [by rewrite (shape_len _ _ Hs)|].
    split; [by rewrite (shape_width _ _ Hs)|].
    split; [by apply (shape_rectangular _ _ Hs)|].
    split; [by rewrite Hs, Hs0, shape_replicate|].
    split; [by apply Hv|]. split; [by left|done].
  - intros r c Hr Hc'.
    assert (cellAt grid0 r c = cellEmpty) as E0.
    { unfold cellAt, grid0. rewrite getAt_replicate by lia. done. }
    destruct (Hc r c) as [E|[_ E]]; [left; congruence|by right].
  - assert (countCells cellBlk grid0 = 0) as E0
      by (by apply countCells_replicate).
    rewrite E0 in Hb. lia.
  - rewrite Hp by done. by apply countCells_replicate.
  - rewrite Hp by done. by apply countCells_replicate.
  - apply noneMarked_replicate.
  - done.
Qed.



(** ** dropRow: playable columns *)

Lemma dropRow_playable (grid : list (list Z)) (col : Z) (up : bool) :
  (dropRow grid col up = -1 \/ 0 <= dropRow grid col up < len grid)
  /\ (dropRow grid col up <> -1
      <-> 0 <= col < width grid
          /\ exists i, 0 <= i < len grid /\ cellAt grid i col = cellEmpty)
  /\ (dropRow grid col true = -1 <-> dropRow grid col false = -1).
Proof.
  assert (forall u, dropRow grid col u <> -1
            <-> 0 <= col < width grid
                /\ exists i, 0 <= i < len grid /\ cellAt grid i col = cellEmpty) as Hiff.
  { intros u. destruct (decide (0 <= col < width grid)) as [Hcol|Hcol].
    - destruct (dropRow_cases grid col u Hcol) as [[H1 H2]|(H1 & H2 & H3)].
      + split; [done|]. intros (_ & i & Hi & He). by apply H2 in He.
      + split; [|lia]. intros _. split; [done|]. by exists (dropRow grid col u).
    - split; [|by intros [? _]]. intros Hne. exfalso. apply Hne.
      unfold dropRow. destruct (len grid =? 0); simpl; [done|].
      destruct (col <? 0) eqn:E1; simpl; [done|].
      destruct (width grid <=? col) eqn:E2; simpl; [done|].
      apply Z.ltb_ge in E1. apply Z.leb_gt in E2. lia. }
  split; [|split].
  - destruct (decide (dropRow grid col up = -1)) as [?|Hne]; [by left|]. right.
    pose proof (proj1 (Hiff up) Hne) as [Hcol _].
    destruct (dropRow_cases grid col up Hcol) as [[H1 H2]|(H1 & H2 & H3)]; done.
  - apply Hiff.
  - pose proof (Hiff true) as Ht. pose proof (Hiff false) as Hf.
    destruct (decide (dropRow grid col true = -1)) as [E1|E1],
             (decide (dropRow grid col false = -1)) as [E2|E2]; try done.
    + exfalso. apply Hf in E2. apply Ht in E2. done.
    + exfalso. apply Ht in E1. apply Hf in E1. done.
Qed.

(** X4. [dropRow] yields a row of the grid or -1; it yields a row exactly
    when the column is in range and holds an empty cell, so that a column is
    playable under one gravity exactly when it is under the other. *)
Theorem dropRow_playable_iff (grid : list (list Z)) (col : Z) (up : bool) :
  (dropRow grid col up = -1 \/ 0 <= dropRow grid col up < len grid)
  /\ (dropRow grid col up <> -1
      <-> 0 <= col < width grid
          /\ exists i, 0 <= i < len grid /\ cellAt grid i col = cellEmpty)
  /\ (dropRow grid col true = -1 <-> dropRow grid col false = -1).
Proof. apply dropRow_playable. Qed.

Lemma filter_agree (P Q : Z -> Prop) `{!forall x, Decision (P x)}
    `{!forall x, Decision (Q x)} (l : list Z) :
  (forall y, y ∈ l -> (P y <-> Q y)) -> filter P l = filter Q l.
Proof.
  induction l as [|y l IH]; intros Hagree; [done|]. rewrite !filter_cons.
  assert (P y <-> Q y) as Hy by (apply Hagree; by left).
  rewrite IH by (intros z Hz; apply Hagree; by right).
  destruct (decide (P y)), (decide (Q y)); try done; tauto.
Qed.

Lemma filter_remove_one (P Q : Z -> Prop) `{!forall x, Decision (P x)}
    `{!forall x, Decision (Q x)} (l : list Z) (x : Z) :
  NoDup l -> x ∈ l -> P x -> ~ Q x ->
  (forall y, y ∈ l -> y <> x -> (P y <-> Q y)) ->
  length (filter P l) = S (length (filter Q l)).
Proof.
  induction l as [|y l IH]; intros Hnd Hin HP HQ Hagree.
  - by apply elem_of_nil in Hin.
  - apply NoDup_cons in Hnd as [Hy Hnd]. rewrite !filter_cons.
    destruct (decide (y = x)) as [->|Hne].
    + rewrite decide_True by done. rewrite decide_False by done. simpl. f_equal.
      f_equal. apply filter_agree.
      intros z Hz. apply Hagree; [by right|]. intros ->. done.
    + apply elem_of_cons in Hin as [?|Hin]; [done|].
      assert (P y <-> Q y) as Hy' by (apply Hagree; [by left|done]).
      assert (length (filter P l) = S (length (filter Q l))) as E.
      { apply IH; [done|done|done|done|]. intros z Hz. apply Hagree. by right. }
      destruct (decide (P y)), (decide (Q y)); simpl; try lia; tauto.
Qed.

(** X5. A column in range is refused exactly when it has no empty cell left.
    A piece placed on the landing cell takes one empty cell from its column
    and none from the other columns: a column with [k] empty cells accepts
    exactly [k] more pieces, whatever the gravity at each of them. *)
Theorem dropRow_fills_column (grid : list (list Z)) (col p : Z) (up : bool) :
  (0 <= col < width grid ->
     (dropRow grid col up = -1 <-> emptyInColumn grid col = 0))
  /\ (dropRow grid col up <> -1 -> p <> cellEmpty ->
      let grid' := setAt grid (dropRow grid col up) col p in
      emptyInColumn grid' col = emptyInColumn grid col - 1
      /\ (forall col', col' <> col -> emptyInColumn grid' col' = emptyInColumn grid col')
      /\ (forall up', dropRow grid' col up' <> dropRow grid col up)).
Proof.
  split.
  - intros Hcol. unfold emptyInColumn, len.
    destruct (dropRow_cases grid col up Hcol) as [[H1 H2]|(H1 & H2 & H3)].
    + split; [|done]. intros _.
      destruct (filter (fun r => cellAt grid r col = cellEmpty)
                  (seqZ 0 (Z.of_nat (length grid)))) as [|r rs] eqn:Ef; [done|].
      exfalso.
      assert (r ∈ filter (fun r => cellAt grid r col = cellEmpty)
                    (seqZ 0 (Z.of_nat (length grid)))) as Hr
        by (rewrite Ef; apply elem_of_cons; by left).
      apply list_elem_of_filter in Hr as [He Hr]. apply elem_of_seqZ in Hr.
      apply (H2 r); [unfold len; lia|done].
    + split; [lia|]. intros E. exfalso.
      assert (dropRow grid col up
              ∈ filter (fun r => cellAt grid r col = cellEmpty)
                  (seqZ 0 (Z.of_nat (length grid)))) as Hin.
      { apply list_elem_of_filter. split; [done|]. apply elem_of_seqZ.
        unfold len in H1. lia. }
      destruct (filter _ _) as [|? ?]; [by apply elem_of_nil in Hin|].
      simpl in E. lia.
  - intros Hne Hp grid'.
    pose proof (dropRow_lands_on_empty grid col up Hne) as He.
    destruct (cellAt_empty_inside _ _ _ He) as [Hr _].
    assert (cellAt grid' (dropRow grid col up) col = p) as Hp'.
    { apply cellAt_setAt_eq. by rewrite He. }
    split; [|split].
    + unfold emptyInColumn, grid'. rewrite len_setAt. unfold len.
      rewrite (filter_remove_one (fun r => cellAt grid r col = cellEmpty)
                 (fun r => cellAt (setAt grid (dropRow grid col up) col p) r col
                           = cellEmpty)
                 _ (dropRow grid col up)).
      * lia.
      * apply NoDup_seqZ.
      * apply elem_of_seqZ. unfold len in Hr. lia.
      * done.
      * fold grid'. rewrite Hp'. done.
      * intros y _ Hy. rewrite cellAt_setAt_ne; [done|]. intros [= ?]. done.
    + intros col' Hc'. unfold emptyInColumn, grid'. rewrite len_setAt.
      f_equal. f_equal. apply list_filter_iff. intros r.
      rewrite cellAt_setAt_ne; [done|]. intros [= ? ?]. done.
    + intros up' E.
      assert (dropRow grid' col up' <> -1) as Hne' by (rewrite E; done).
      pose proof (dropRow_lands_on_empty grid' col up' Hne') as He'.
      rewrite E, Hp' in He'. done.
Qed.

Lemma dropRow_fills_column_witness :
  emptyInColumn (setAt columnSample (dropRow columnSample 0 false) 0 cellY) 0
  = emptyInColumn columnSample 0 - 1.
Proof.
  refine (proj1 (proj2 (dropRow_fills_column columnSample 0 cellY false) _ _)).
  - vm_compute. discriminate.
  - discriminate.
Defined.

(** ** The step common to the three kinds of move *)

Lemma stepResult_cases g row c :
  let grid' := setAt (Grid g) row c (Current g) in
  let line := winningLine grid' row c (Current g) in
  let g1 := setTurns (Turns g + 1) (setGrid grid' g) in
  stepResult g row c
  = if 4 <=? len line
    then setMessage ""
           ((if Current g =? cellR then setScoresR (ScoresR g + 1)
             else setScoresY (ScoresY g + 1))
              (setGameOver true (setWinning (markWinning (Winning g) line) g1)))
    else if isDraw grid' then setMessage drawMessage (setGameOver true g1)
    else flipGravity (setCurrent (other (Current g)) g1).
Proof.
  intros grid' line g1. unfold stepResult, checkResult. fold grid'. fold g1.
  change (Grid g1) with grid'. fold line.
  destruct (4 <=? len line).
  - by destruct (Current g =? cellR).
  - by destruct (isDraw grid').
Qed.

Lemma humanTurn_step g row c :
  (humanTurn g row c).1 = stepResult (setLastPlayed (Current g) g) row c.
Proof.
  unfold humanTurn, stepResult, other.
  change (Current (setLastPlayed (Current g) g)) with (Current g).
  match goal with
  | |- context [checkResult ?g1 row c ?p] =>
      pose proof (checkResult_fields g1 row c p) as H;
      change (checkResult (setTurns (Turns (setLastPlayed (Current g) g) + 1)
                (setGrid (setAt (Grid (setLastPlayed (Current g) g)) row c (Current g))
                   (setLastPlayed (Current g) g))) row c (Current g))
        with (checkResult g1 row c p);
      destruct (checkResult g1 row c p) as [g2 over]
  end.
  destruct H as (_ & _ & _ & HC & _ & _ & _ & Hno).
  destruct over; [done|]. cbn [fst snd] in *. rewrite (Hno eq_refl). done.
Qed.

Lemma onlineTurn_step g side c g' over :
  onlineTurn g side c = Some (g', over) ->
  g' = stepResult g (dropRow (Grid g) c (GravityUp g)) c.
Proof.
  unfold onlineTurn, stepResult, other.
  destruct (negb (Current g =? (if String.eqb side "Y" then cellY else cellR))
            || GameOver g); [done|].
  destruct ((dropRow (Grid g) c (GravityUp g) =? -1)
            || negb (cellAt (Grid g) (dropRow (Grid g) c (GravityUp g)) c =? cellEmpty));
    [done|].
  match goal with
  | |- context [checkResult ?g1 ?row c ?p] =>
      pose proof (checkResult_fields g1 row c p) as H;
      change (checkResult (setTurns (Turns g + 1)
                (setGrid (setAt (Grid g) row c (Current g)) g)) row c (Current g))
        with (checkResult g1 row c p);
      destruct (checkResult g1 row c p) as [g2 ov]
  end.
  destruct H as (_ & _ & _ & HC & _ & _ & _ & Hno).
  destruct ov; intros [= <- <-]; [done|].
  cbn [fst snd] in *. rewrite (Hno eq_refl). done.
Qed.

Lemma aiTurn_step g :
  (aiTurn g).1 = g
  \/ (Mode g = "ai" /\ Current g = cellY /\ GameOver g = false
      /\ 0 <= (chooseAIMove g).2
      /\ dropRow (Grid g) (chooseAIMove g).2 (GravityUp g) <> -1
      /\ (aiTurn g).1
         = stepResult (setLastPlayed cellY g)
             (dropRow (Grid g) (chooseAIMove g).2 (GravityUp g)) (chooseAIMove g).2).
Proof.
  unfold aiTurn.
  destruct (String.eqb (Mode g) "ai") eqn:EM; simpl; [|by left].
  destruct (Current g =? cellY) eqn:EC; simpl; [|by left].
  destruct (GameOver g) eqn:EO; simpl; [by left|].
  apply Z.eqb_eq in EC. apply String.eqb_eq in EM.
  pose proof (chooseAIMove_game g) as Hg.
  destruct (chooseAIMove g) as [g1 aiCol]. simpl in Hg. subst g1. cbn [snd].
  destruct (0 <=? aiCol) eqn:E0; [|by left]. apply Z.leb_le in E0.
  destruct (dropRow (Grid g) aiCol (GravityUp g) =? -1) eqn:E1; simpl; [by left|].
  destruct (cellAt (Grid g) (dropRow (Grid g) aiCol (GravityUp g)) aiCol =? cellEmpty)
    eqn:E2; [|by left].
  apply Z.eqb_neq in E1. right.
  split; [done|]. split; [done|]. split; [done|]. split; [done|]. split; [done|].
  unfold stepResult, other.
  change (Current (setLastPlayed cellY g)) with (Current g). rewrite EC.
  match goal with
  | |- context [checkResult ?g1 ?row aiCol cellY] =>
      pose proof (checkResult_fields g1 row aiCol cellY) as H;
      change (checkResult (setTurns (Turns (setLastPlayed cellY g) + 1)
                (setGrid (setAt (Grid (setLastPlayed cellY g)) row aiCol cellY)
                   (setLastPlayed cellY g))) row aiCol cellY)
        with (checkResult g1 row aiCol cellY);
      destruct (checkResult g1 row aiCol cellY) as [g2 ov]
  end.
  destruct H as (_ & _ & _ & HC & _ & _ & _ & Hno).
  destruct ov; [done|]. cbn [fst snd] in *. rewrite (Hno eq_refl). done.
Qed.

(** An applied move is the common step on the landing cell of a column in
    which [dropRow] lands, [LastPlayed] being set before it or not. *)
Lemma applied_step g g' :
  applied g g' ->
  exists c lp,
    (lp = g \/ lp = setLastPlayed (Current g) g)
    /\ GameOver g = false
    /\ dropRow (Grid g) c (GravityUp g) <> -1
    /\ g' = stepResult lp (dropRow (Grid g) c (GravityUp g)) c.
Proof.
  intros [g1 c Hover Hc Hrow|g1 Hturn|g1 side c g2 over Hturn].
  - exists c, (setLastPlayed (Current g1) g1).
    split; [by right|]. split; [done|]. split; [done|]. apply humanTurn_step.
  - destruct (aiTurn_step g1) as [E|(_ & HC & HO & _ & Hrow & E)].
    + by rewrite E in Hturn.
    + exists (chooseAIMove g1).2, (setLastPlayed (Current g1) g1).
      split; [by right|]. split; [done|]. split; [done|]. by rewrite HC.
  - destruct (onlineTurn_effect _ _ _ _ _ Hturn) as (_ & HO & Hrow & _).
    exists c, g1. split; [by left|]. split; [done|]. split; [done|].
    by eapply onlineTurn_step.
Qed.

(** The fields of the game after the step, in its three outcomes: a line of
    four, a draw, or the game going on. *)
Lemma stepResult_fields g row c :
  let grid' := setAt (Grid g) row c (Current g) in
  let line := winningLine grid' row c (Current g) in
  let g' := stepResult g row c in
  Rows g' = Rows g /\ Cols g' = Cols g /\ Mode g' = Mode g
  /\ Grid g' = grid' /\ Turns g' = Turns g + 1
  /\ ((4 <= len line /\ GameOver g' = true /\ Current g' = Current g
       /\ GravityUp g' = GravityUp g
       /\ Winning g' = markWinning (Winning g) line
       /\ ScoresR g' = ScoresR g + (if Current g =? cellR then 1 else 0)
       /\ ScoresY g' = ScoresY g + (if Current g =? cellR then 0 else 1))
      \/ (len line < 4 /\ isDraw grid' = true
          /\ GameOver g' = true /\ Current g' = Current g
          /\ GravityUp g' = GravityUp g /\ Message g' = drawMessage
          /\ Winning g' = Winning g
          /\ ScoresR g' = ScoresR g /\ ScoresY g' = ScoresY g)
      \/ (len line < 4 /\ isDraw grid' = false
          /\ GameOver g' = GameOver g /\ Current g' = other (Current g)
          /\ GravityUp g'
             = (if Z.rem (Turns g + 1) 5 =? 0 then negb (GravityUp g)
                else GravityUp g)
          /\ Winning g' = Winning g
          /\ ScoresR g' = ScoresR g /\ ScoresY g' = ScoresY g)).
Proof.
  intros grid' line g'. subst g'. rewrite stepResult_cases. fold grid'. fold line.
  destruct (4 <=? len line) eqn:E4.
  - apply Z.leb_le in E4.
    destruct (Current g =? cellR); cbn;
      (split; [done|]; split; [done|]; split; [done|]; split; [done|];
       split; [done|]; left; repeat (split; [done|]); lia).
  - apply Z.leb_gt in E4. destruct (isDraw grid') eqn:Ed.
    + cbn. split; [done|]. split; [done|]. split; [done|]. split; [done|].
      split; [done|]. right. left. done.
    + unfold flipGravity.
      change (Turns (setCurrent (other (Current g))
                (setTurns (Turns g + 1) (setGrid grid' g)))) with (Turns g + 1).
      destruct (Z.rem (Turns g + 1) 5 =? 0); cbn;
        (split; [done|]; split; [done|]; split; [done|]; split; [done|];
         split; [done|]; right; right; done).
Qed.

Lemma shape_markWinning win line : length <$> markWinning win line = length <$> win.
Proof.
  unfold markWinning. generalize (take 4 line). intros cells. revert win.
  induction cells as [|rc cells IH]; intros win; simpl; [done|].
  by rewrite IH, shape_setAt.
Qed.

Lemma other_player p : p = cellR \/ p = cellY ->
  (other p = cellR \/ other p = cellY) /\ other p <> p
  /\ (p = cellR -> other p = cellY) /\ (p = cellY -> other p = cellR).
Proof. intros [->| ->]; cbv; intuition congruence. Qed.

(** The step keeps what holds of a game: it is taken on an empty cell of a
    game that is not over. *)
Lemma gameInv_step g0 g row c :
  gameInv g0 g -> GameOver g = false -> cellAt (Grid g) row c = cellEmpty ->
  gameInv g0 (stepResult g row c).
Proof.
  intros (Hwf & HR & HC & HM & HT & HB & Halt & Hgo & HsR & HsY & Hs & Hd) Hover He.
  destruct Hwf as (W1 & W2 & W3 & W4 & W5 & W6 & W7 & W8 & W9).
  rewrite Hover in Halt. destruct (Hgo Hover) as (Hnm & HR0 & HY0).
  pose proof (cellAt_empty_getAt _ _ _ He) as Hget.
  pose proof (countCells_setAt cellR _ _ _ _ (Current g) Hget) as CR.
  pose proof (countCells_setAt cellY _ _ _ _ (Current g) Hget) as CY.
  pose proof (countCells_setAt cellBlk _ _ _ _ (Current g) Hget) as CB.
  rewrite (decide_False (P := cellEmpty = cellR)) in CR by done.
  rewrite (decide_False (P := cellEmpty = cellY)) in CY by done.
  rewrite (decide_False (P := cellEmpty = cellBlk)) in CB by done.
  destruct (stepResult_fields g row c)
    as (F1 & F2 & F3 & F4 & F5 & Fcases).
  set (g' := stepResult g row c) in *.
  set (grid' := setAt (Grid g) row c (Current g)) in *.
  assert (Current g' = Current g \/ Current g' = other (Current g)) as Hcur.
  { destruct Fcases as [F|[F|F]]; [left|left|right]; tauto. }
  assert (length <$> Winning g' = length <$> Winning g) as Hwin.
  { destruct Fcases as [F|[F|F]].
    - destruct F as (_ & _ & _ & _ & -> & _). apply shape_markWinning.
    - destruct F as (_ & _ & _ & _ & _ & _ & -> & _). done.
    - destruct F as (_ & _ & _ & _ & _ & -> & _). done. }
  assert (validCell (Current g)) as Hvc.
  { destruct W8 as [->| ->]; [right; by left|right; right; by left]. }
  split.
  { unfold wfGame. rewrite F1, F2, F4, F5, Hwin.
    split; [done|]. split; [done|].
    split; [unfold grid'; by rewrite len_setAt|].
    split; [unfold grid'; by rewrite width_setAt|].
    split; [by apply rectangular_setAt|].
    split; [unfold grid'; by rewrite shape_setAt|].
    split; [by apply valid_setAt|].
    split; [|lia].
    destruct Hcur as [->| ->]; [done|]. by apply other_player. }
  rewrite F1, F2, F3, F4, F5.
  split; [done|]. split; [done|]. split; [done|].
  assert (countCells cellBlk grid' = countCells cellBlk (Grid g)
          /\ ((Current g = cellR
               /\ countCells cellR grid' = countCells cellR (Grid g) + 1
               /\ countCells cellY grid' = countCells cellY (Grid g))
              \/ (Current g = cellY
                  /\ countCells cellR grid' = countCells cellR (Grid g)
                  /\ countCells cellY grid' = countCells cellY (Grid g) + 1)))
    as [CB' Hcount].
  { destruct (decide (Current g = cellR)) as [E1|E1],
             (decide (Current g = cellY)) as [E2|E2],
             (decide (Current g = cellBlk)) as [E3|E3];
      destruct W8 as [E|E]; unfold cellR, cellY, cellBlk in *;
      first [lia | (split; [lia|]; left; lia) | (split; [lia|]; right; lia)]. }
  split; [destruct Hcount as [(_ & ? & ?)|(_ & ? & ?)]; lia|].
  split; [lia|].
  destruct Fcases as [F|[F|F]].
  - destruct F as (_ & -> & -> & _ & _ & -> & ->).
    split.
    { destruct Halt as [[E ?]|[E ?]], Hcount as [(E' & ? & ?)|(E' & ? & ?)];
        try (rewrite E in E'; discriminate E').
      - left. split; [done|lia].
      - right. split; [done|lia]. }
    split; [done|].
    destruct (Current g =? cellR); (split; [lia|]; split; [lia|]; split; [lia|done]).
  - destruct F as (_ & _ & -> & -> & _ & _ & _ & -> & ->).
    split.
    { destruct Halt as [[E ?]|[E ?]], Hcount as [(E' & ? & ?)|(E' & ? & ?)];
        try (rewrite E in E'; discriminate E').
      - left. split; [done|lia].
      - right. split; [done|lia]. }
    split; [done|]. split; [lia|]. split; [lia|]. split; [lia|done].
  - destruct F as (_ & Hnd & -> & -> & _ & -> & -> & ->). rewrite Hover.
    split.
    { destruct Halt as [[E ?]|[E ?]], Hcount as [(E' & ? & ?)|(E' & ? & ?)];
        try (rewrite E in E'; discriminate E'); rewrite E.
      - right. split; [done|lia].
      - left. split; [done|lia]. }
    split; [done|]. split; [lia|]. split; [lia|]. split; [lia|done].
Qed.

Lemma gameInv_lastPlayed g0 g x : gameInv g0 g -> gameInv g0 (setLastPlayed x g).
Proof. intros H. exact H. Qed.

Lemma gameInv_start g :
  wfGame g -> Turns g = 0 -> GameOver g = false -> Current g = cellR ->
  countCells cellR (Grid g) = 0 -> countCells cellY (Grid g) = 0 ->
  noneMarked (Winning g) = true -> gameInv g g.
Proof.
  intros Hwf HT HO HC HR HY HN. unfold gameInv. rewrite HO.
  split; [done|]. split; [done|]. split; [done|]. split; [done|].
  split; [lia|]. split; [done|]. split; [left; split; [done|lia]|].
  split; [done|]. split; [lia|]. split; [lia|]. split; [lia|]. intros _ ?. lia.
Qed.

Lemma configByDifficulty_positive d :
  let '(rows, cols, blocks) := configByDifficulty d in
  0 < rows /\ 0 < cols /\ 0 <= blocks < cols.
Proof.
  unfold configByDifficulty.
  destruct (String.eqb d "hard"); [lia|]. destruct (String.eqb d "normal"); lia.
Qed.

Lemma fresh_gameInv g : fresh g -> gameInv g g.
Proof.
  intros [now rnd|mode p1 p2 diff now rnd _|rows cols blocks p1 p2 diff code now rnd
         |g0 now rnd].
  - destruct (newGame_state 6 7 3 now rnd) as (H1 & _ & _ & H2 & H3 & H4 & H5 & H6 & _ & H7 & _);
      [lia|lia|].
    by apply gameInv_start.
  - unfold startGame. pose proof (configByDifficulty_positive diff) as Hp.
    destruct (configByDifficulty diff) as [[rows cols] blocks].
    destruct Hp as (Hr & Hc & _).
    destruct (newGame_state rows cols blocks now rnd Hr Hc)
      as (H1 & _ & _ & H2 & H3 & H4 & H5 & H6 & _ & H7 & _).
    by apply gameInv_start.
  - unfold onlineGame.
    set (rows' := if rows <=? 0 then 6 else rows).
    set (cols' := if cols <=? 0 then 7 else cols).
    assert (0 < rows') as Hr by (unfold rows'; destruct (rows <=? 0) eqn:E; [lia|apply Z.leb_gt in E; lia]).
    assert (0 < cols') as Hc by (unfold cols'; destruct (cols <=? 0) eqn:E; [lia|apply Z.leb_gt in E; lia]).
    destruct (newGame_state rows' cols' blocks now rnd Hr Hc)
      as (H1 & _ & _ & H2 & H3 & H4 & H5 & H6 & _ & H7 & _).
    by apply gameInv_start.
  - unfold replayGame. pose proof (configByDifficulty_positive (Difficulty g0)) as Hp.
    destruct (configByDifficulty (Difficulty g0)) as [[rows cols] blocks].
    destruct Hp as (Hr & Hc & _).
    destruct (newGame_state rows cols blocks now rnd Hr Hc)
      as (H1 & _ & _ & H2 & H3 & H4 & H5 & H6 & _ & H7 & _).
    by apply gameInv_start.
Qed.

Lemma movesFrom_gameInv g0 n g : fresh g0 -> movesFrom g0 n g -> gameInv g0 g.
Proof.
  intros Hfresh. induction 1 as [|n g g' _ IH Hap]; [by apply fresh_gameInv|].
  destruct (applied_step g g' Hap) as (c & lp & Hlp & Hover & Hrow & ->).
  pose proof (dropRow_lands_on_empty _ _ _ Hrow) as He.
  destruct Hlp as [->| ->].
  - by apply gameInv_step.
  - apply gameInv_step; [by apply gameInv_lastPlayed|done|done].
Qed.

Lemma reachable_gameInv g0 g : fresh g0 -> reachable g0 g -> gameInv g0 g.
Proof.
  intros Hfresh Hreach. destruct (reachable_movesFrom g0 g Hreach) as [n Hn].
  by apply (movesFrom_gameInv g0 n).
Qed.

Lemma countRow_total row :
  Forall validCell row ->
  countRow cellEmpty row + countRow cellR row + countRow cellY row
  + countRow cellBlk row = len row.
Proof.
  unfold countRow, len. induction 1 as [|x row Hx _ IH]; simpl; [done|].
  rewrite !filter_cons.
  destruct Hx as [->|[->|[->| ->]]];
    repeat (first [rewrite decide_True by done | rewrite decide_False by done]);
    simpl; lia.
Qed.

Lemma countCells_total grid w :
  Forall (Forall validCell) grid -> Forall (fun row => len row = w) grid ->
  countCells cellEmpty grid + countCells cellR grid + countCells cellY grid
  + countCells cellBlk grid = len grid * w.
Proof.
  intros Hv Hw. induction grid as [|row grid IH]; simpl; [unfold len; simpl; lia|].
  apply Forall_cons in Hv as [Hv1 Hv2]. apply Forall_cons in Hw as [Hw1 Hw2].
  specialize (IH Hv2 Hw2). pose proof (countRow_total row Hv1).
  unfold len in *. simpl. lia.
Qed.

(** ** Every state of a game *)

(** X6. Every state reached from a new game keeps the dimensions and the
    mode of that game; its grid is rectangular with [Rows] rows and [Cols]
    columns, every cell holds an empty cell, a piece or a block, the
    highlights have the shape of the grid and the current player is Red or
    Yellow. *)
Theorem reachable_wellformed (g0 g : Game) :
  fresh g0 -> reachable g0 g ->
  wfGame g /\ Rows g = Rows g0 /\ Cols g = Cols g0 /\ Mode g = Mode g0
  /\ forall r c, 0 <= r < Rows g -> 0 <= c < Cols g -> validCell (cellAt (Grid g) r c).
Proof.
  intros Hf Hr. destruct (reachable_gameInv g0 g Hf Hr) as (Hwf & H1 & H2 & H3 & _).
  split; [done|]. split; [done|]. split; [done|]. split; [done|].
  intros r c Hr' Hc'. destruct Hwf as (_ & _ & W3 & W4 & W5 & _ & W7 & _).
  apply valid_cellAt; [done|]. apply inGrid_getAt; [done|].
  unfold inGrid. rewrite W3, W4.
  repeat (apply andb_true_iff; split); first [apply Z.leb_le|apply Z.ltb_lt]; lia.
Qed.

Lemma reachable_wellformed_witness :
  wfGame crossBefore /\ Rows crossBefore = Rows crossStart.
Proof.
  destruct (reachable_wellformed crossStart crossBefore) as (H1 & H2 & _).
  - apply fresh_start. by left.
  - apply reachable_playAll, reach_start.
  - split; [exact H1|exact H2].
Defined.

(** X7. In every state reached from a new game [Turns] is the number of
    pieces on the board and the number of blocks is that of the new game;
    pieces, blocks and empty cells fill the board, so that a game never
    counts more turns than the board has cells without a block. *)
Theorem turns_count_the_pieces (g0 g : Game) :
  fresh g0 -> reachable g0 g ->
  Turns g = countCells cellR (Grid g) + countCells cellY (Grid g)
  /\ countCells cellBlk (Grid g) = countCells cellBlk (Grid g0)
  /\ Turns g + countCells cellBlk (Grid g0) + countCells cellEmpty (Grid g)
     = Rows g0 * Cols g0
  /\ 0 <= Turns g <= Rows g0 * Cols g0 - countCells cellBlk (Grid g0).
Proof.
  intros Hf Hr.
  destruct (reachable_gameInv g0 g Hf Hr) as (Hwf & H1 & H2 & _ & HT & HB & _).
  destruct Hwf as (_ & _ & W3 & W4 & W5 & _ & W7 & _ & W9).
  unfold rectangular in W5.
  pose proof (countCells_total (Grid g) (width (Grid g)) W7 W5) as Htot.
  pose proof (countCells_nonneg cellEmpty (Grid g)).
  rewrite W3, W4, H1, H2 in Htot.
  split; [done|]. split; [done|]. split; [lia|lia].
Qed.

Lemma turns_count_the_pieces_witness :
  Turns crossBefore
  = countCells cellR (Grid crossBefore) + countCells cellY (Grid crossBefore).
Proof.
  refine (proj1 (turns_count_the_pieces crossStart crossBefore _ _)).
  - apply fresh_start. by left.
  - apply reachable_playAll, reach_start.
Defined.

(** X8. The players alternate, Red first: in every state reached from a new
    game Red has as many pieces as Yellow or one more, and while the game is
    not over Red is to move exactly when the two have as many, that is when
    [Turns] is even. *)
Theorem players_alternate (g0 g : Game) :
  fresh g0 -> reachable g0 g ->
  countCells cellY (Grid g) <= countCells cellR (Grid g)
                            <= countCells cellY (Grid g) + 1
  /\ (GameOver g = false ->
      (Current g = cellR
       <-> countCells cellR (Grid g) = countCells cellY (Grid g))
      /\ (Current g = cellR <-> Z.even (Turns g) = true)
      /\ (Current g = cellY <-> Z.odd (Turns g) = true)).
Proof.
  intros Hf Hr.
  destruct (reachable_gameInv g0 g Hf Hr) as (_ & _ & _ & _ & HT & _ & Halt & _).
  split.
  - destruct (GameOver g); destruct Halt as [[_ ?]|[_ ?]]; lia.
  - intros Hover. rewrite Hover in Halt. rewrite HT.
    destruct Halt as [[E1 E2]|[E1 E2]]; rewrite E1, E2.
    + replace (countCells cellY (Grid g) + countCells cellY (Grid g))
        with (2 * countCells cellY (Grid g)) by lia.
      rewrite Z.even_mul, Z.odd_mul. simpl. done.
    + replace (countCells cellY (Grid g) + 1 + countCells cellY (Grid g))
        with (2 * countCells cellY (Grid g) + 1) by lia.
      rewrite Z.even_add, Z.odd_add, Z.even_mul, Z.odd_mul. simpl.
      split; [|split]; split; try done; lia.
Qed.

Lemma players_alternate_witness :
  countCells cellY (Grid crossBefore) <= countCells cellR (Grid crossBefore)
                                      <= countCells cellY (Grid crossBefore) + 1.
Proof.
  refine (proj1 (players_alternate crossStart crossBefore _ _)).
  - apply fresh_start. by left.
  - apply reachable_playAll, reach_start.
Defined.

(** X9. Scores and highlights move only with the end of a game: while a
    game reached from a new game is not over its scores are those of the new
    game and no cell is highlighted; when it is over each score is at least
    what it was and the two together have gained at most one point. *)
Theorem scores_move_at_the_end (g0 g : Game) :
  fresh g0 -> reachable g0 g ->
  (GameOver g = false ->
     ScoresR g = ScoresR g0 /\ ScoresY g = ScoresY g0
     /\ noneMarked (Winning g) = true)
  /\ ScoresR g0 <= ScoresR g /\ ScoresY g0 <= ScoresY g
  /\ ScoresR g + ScoresY g <= ScoresR g0 + ScoresY g0 + 1.
Proof.
  intros Hf Hr.
  destruct (reachable_gameInv g0 g Hf Hr)
    as (_ & _ & _ & _ & _ & _ & _ & Hgo & H1 & H2 & H3 & _).
  split; [|done]. intros Hover. destruct (Hgo Hover) as (? & ? & ?). done.
Qed.

Lemma scores_move_at_the_end_witness :
  ScoresR crossStart <= ScoresR crossBefore.
Proof.
  refine (proj1 (proj2 (scores_move_at_the_end crossStart crossBefore _ _))).
  - apply fresh_start. by left.
  - apply reachable_playAll, reach_start.
Defined.

Lemma isDrawLoop_false grid n : forall c,
  isDrawLoop grid c n = false ->
  exists i, c <= i < c + Z.of_nat n /\ cellAt grid 0 i = cellEmpty.
Proof.
  induction n as [|n IH]; intros c; simpl; [done|].
  destruct (cellAt grid 0 c =? cellEmpty) eqn:E.
  - intros _. exists c. apply Z.eqb_eq in E. split; [lia|done].
  - intros H. destruct (IH _ H) as (i & Hi & He). exists i. split; [lia|done].
Qed.

Lemma countCells_zero_lookup p grid : forall i row j x,
  countCells p grid = 0 -> grid !! i = Some row -> row !! j = Some x -> x <> p.
Proof.
  induction grid as [|row0 grid IH]; intros i row j x Hz Hi Hj; [done|].
  simpl in Hz. pose proof (countRow_nonneg p row0). pose proof (countCells_nonneg p grid).
  destruct i as [|i]; simpl in Hi.
  - injection Hi as ->. assert (countRow p row = 0) as Hrow by lia.
    intros ->. unfold countRow, len in Hrow.
    assert (p ∈ filter (fun x => x = p) row) as Hin.
    { apply list_elem_of_filter. split; [done|]. by eapply list_elem_of_lookup_2. }
    destruct (filter _ row); [by apply elem_of_nil in Hin|]. simpl in Hrow. lia.
  - apply (IH i row j x); [lia|done|done].
Qed.

Lemma row_has_empty_cell row :
  Forall (fun x => x = cellEmpty \/ x = cellBlk) row ->
  countRow cellBlk row < len row ->
  exists j, row !! j = Some cellEmpty.
Proof.
  unfold countRow, len. induction 1 as [|x row Hx _ IH]; simpl; [lia|].
  rewrite filter_cons. destruct Hx as [->| ->].
  - intros _. by exists 0%nat.
  - rewrite decide_True by done. simpl. intros Hlt.
    destruct IH as [j Hj]; [lia|]. by exists (S j).
Qed.

(** A new grid with fewer blocks than columns has an empty cell in its
    first row. *)
Lemma top_row_has_room g :
  wfGame g -> countCells cellR (Grid g) = 0 -> countCells cellY (Grid g) = 0 ->
  countCells cellBlk (Grid g) < Cols g ->
  exists c, 0 <= c < Cols g /\ cellAt (Grid g) 0 c = cellEmpty.
Proof.
  intros (W1 & W2 & W3 & W4 & W5 & _ & W7 & _) HR HY HB.
  destruct (Grid g) as [|row0 grid] eqn:EG.
  { unfold len in W3. simpl in W3. lia. }
  unfold width, len in W4. simpl in W4.
  apply Forall_cons in W7 as [Hv0 _].
  assert (Forall (fun x => x = cellEmpty \/ x = cellBlk) row0) as Hrow.
  { apply Forall_lookup. intros j x Hj.
    rewrite Forall_lookup in Hv0. destruct (Hv0 j x Hj) as [?|[->|[->|?]]];
      [by left| | |by right].
    - exfalso. by apply (countCells_zero_lookup cellR (row0 :: grid) 0%nat row0 j cellR).
    - exfalso. by apply (countCells_zero_lookup cellY (row0 :: grid) 0%nat row0 j cellY). }
  destruct (row_has_empty_cell row0 Hrow) as [j Hj].
  { simpl in HB. pose proof (countCells_nonneg cellBlk grid). unfold len. lia. }
  exists (Z.of_nat j). pose proof (lookup_lt_Some _ _ _ Hj).
  split; [lia|]. unfold cellAt, getAt.
  replace (0 <? 0) with false by done.
  replace (Z.of_nat j <? 0) with false by (symmetry; apply Z.ltb_ge; lia).
  simpl. rewrite Nat2Z.id, Hj. done.
Qed.

(** X10. A game that is not over always has a playable column, once a move
    has been applied or when the new game has fewer blocks than columns (as
    the three difficulties have): the game cannot be stuck before it
    ends. *)
Theorem some_column_is_playable (g0 g : Game) :
  fresh g0 -> reachable g0 g -> GameOver g = false ->
  0 < Turns g \/ countCells cellBlk (Grid g0) < Cols g0 ->
  exists c, 0 <= c < Cols g /\ dropRow (Grid g) c (GravityUp g) <> -1.
Proof.
  intros Hf Hr Hover Hcond.
  pose proof (reachable_gameInv g0 g Hf Hr) as Hinv.
  destruct Hinv as (Hwf & _ & _ & _ & _ & _ & _ & _ & _ & _ & _ & Hd).
  assert (exists c, 0 <= c < Cols g /\ cellAt (Grid g) 0 c = cellEmpty)
    as (c & Hc & He).
  { destruct (decide (0 < Turns g)) as [Ht|Ht].
    - specialize (Hd Hover Ht). unfold isDraw in Hd.
      destruct (isDrawLoop_false _ _ _ Hd) as (i & Hi & He).
      destruct Hwf as (_ & _ & _ & W4 & _). exists i. split; [|done].
      rewrite <- W4. assert (0 <= width (Grid g)) by (unfold width, len; lia). lia.
    - destruct Hcond as [?|Hb]; [done|].
      destruct (reachable_movesFrom g0 g Hr) as [n Hn].
      pose proof (movesFrom_turns g0 n g Hn) as HT.
      destruct (fresh_start_state g0 Hf) as (HT0 & _ & _).
      destruct Hn as [|n g1 g2 Hn Hap]; [|lia].
      destruct (fresh_gameInv g0 Hf) as (Hwf0 & _ & _ & _ & HT1 & _ & Halt & _).
      rewrite Hover in Halt.
      pose proof (countCells_nonneg cellR (Grid g0)).
      pose proof (countCells_nonneg cellY (Grid g0)).
      apply top_row_has_room; [done|lia|lia|done]. }
  exists c. split; [done|].
  apply dropRow_playable. destruct Hwf as (W1 & _ & W3 & W4 & _).
  split; [lia|]. exists 0. split; [lia|done].
Qed.

Lemma some_column_is_playable_witness :
  exists c, 0 <= c < Cols crossBefore
            /\ dropRow (Grid crossBefore) c (GravityUp crossBefore) <> -1.
Proof.
  apply (some_column_is_playable crossStart crossBefore).
  - apply fresh_start. by left.
  - apply reachable_playAll, reach_start.
  - vm_compute. reflexivity.
  - left. vm_compute. reflexivity.
Defined.

(** The boards of the three difficulties and of a new session have fewer
    blocks than columns. *)
Lemma standard_boards_have_room mode p1 p2 diff now rnd g :
  countCells cellBlk (Grid (newGame 6 7 3 now rnd)) < Cols (newGame 6 7 3 now rnd)
  /\ countCells cellBlk (Grid (startGame mode p1 p2 diff now rnd))
     < Cols (startGame mode p1 p2 diff now rnd)
  /\ countCells cellBlk (Grid (replayGame g now rnd)) < Cols (replayGame g now rnd).
Proof.
  split; [|split].
  - destruct (newGame_state 6 7 3 now rnd) as (_ & _ & H & _); [lia|lia|].
    cbn [Cols newGame]. lia.
  - unfold startGame. pose proof (configByDifficulty_positive diff) as Hp.
    destruct (configByDifficulty diff) as [[rows cols] blocks].
    destruct Hp as (Hr & Hc & Hb).
    destruct (newGame_state rows cols blocks now rnd Hr Hc) as (_ & _ & H & _).
    cbn [Cols newGame setMode setDifficulty setPlayer1 setPlayer2 Grid] in *. lia.
  - unfold replayGame. pose proof (configByDifficulty_positive (Difficulty g)) as Hp.
    destruct (configByDifficulty (Difficulty g)) as [[rows cols] blocks].
    destruct Hp as (Hr & Hc & Hb).
    destruct (newGame_state rows cols blocks now rnd Hr Hc) as (_ & _ & H & _).
    cbn [Cols newGame setDifficulty setScoresR setScoresY setPlayer1 setPlayer2 Grid] in *.
    lia.
Qed.

(** X11. A game that is over stays as it is: [handlePlay] answers with the
    result page, the computer does not move, an online move is refused, and
    every state reached from it by further requests is the same state. *)
Theorem game_over_is_final (g : Game) :
  GameOver g = true ->
  (forall col, handlePlay true g col = (g, ToResult))
  /\ (forall side c, onlineTurn g side c = None)
  /\ (aiTurn g).1 = g
  /\ (forall g', reachable g g' -> g' = g).
Proof.
  intros Hover.
  assert (forall col, handlePlay true g col = (g, ToResult)) as H1.
  { intros col. unfold handlePlay. cbn [negb]. by rewrite Hover. }
  assert (forall side c, onlineTurn g side c = None) as H2.
  { intros side c. apply onlineTurn_refused. right. by left. }
  split; [done|]. split; [done|]. split.
  - destruct (aiTurn_step g) as [?|(_ & _ & ? & _)]; [done|congruence].
  - induction 1 as [|g1 col _ IH|g1 side c g2 over _ IH Hturn]; [done| |].
    + rewrite IH, H1. done.
    + rewrite IH, H2 in Hturn. done.
Qed.

Lemma game_over_is_final_witness :
  handlePlay true (playAll drawStart drawMoves) (Some 0)
  = (playAll drawStart drawMoves, ToResult).
Proof.
  refine (proj1 (game_over_is_final (playAll drawStart drawMoves) _) (Some 0)).
  vm_compute. reflexivity.
Defined.

(** ** The heuristic opponent: scores *)

Lemma fold_left_step_bounds {A} (F : Z -> A -> Z) (b : Z) (l : list A) :
  (forall t x, t <= F t x <= t + b) ->
  forall a, a <= fold_left F l a <= a + b * len l.
Proof.
  intros HF. unfold len. induction l as [|x l IH]; intros a; simpl; [lia|].
  specialize (IH (F a x)). specialize (HF a x).
  assert (0 <= b) by lia. nia.
Qed.

Lemma countK_bounds grid p k :
  0 <= countK grid p k <= 4 * len grid * width grid.
Proof.
  unfold countK.
  assert (0 <= len grid /\ 0 <= width grid) as [Hh Hw]
    by (unfold width, len; lia).
  set (F1 := fun (r c : Z) (total : Z) (d : Z * Z) =>
               let '(clear, cnt) :=
                 windowLoop (Z.to_nat k) grid (len grid) (width grid) p d r c 0 in
               if clear && (cnt =? k) then total + 1 else total).
  assert (forall r c t d, t <= F1 r c t d <= t + 1) as H1.
  { intros r c t d. unfold F1. destruct (windowLoop _ _ _ _ _ _ _ _ _) as [clear cnt].
    destruct (clear && (cnt =? k)); lia. }
  assert (forall r t c, t <= fold_left (F1 r c) dirs t <= t + 4) as H2.
  { intros r t c. pose proof (fold_left_step_bounds (F1 r c) 1 dirs (H1 r c) t) as H.
    replace (1 * len dirs) with 4 in H by (vm_compute; reflexivity). exact H. }
  assert (forall t r,
            t <= fold_left (fun total c => fold_left (F1 r c) dirs total)
                   (seqZ 0 (width grid)) t <= t + 4 * width grid) as H3.
  { intros t r.
    pose proof (fold_left_step_bounds
                  (fun total c => fold_left (F1 r c) dirs total) 4
                  (seqZ 0 (width grid)) (H2 r) t) as H.
    assert (len (seqZ 0 (width grid)) = width grid) as E
      by (unfold len; rewrite length_seqZ; lia).
    rewrite E in H. lia. }
  pose proof (fold_left_step_bounds
                (fun total r =>
                   fold_left (fun total c => fold_left (F1 r c) dirs total)
                     (seqZ 0 (width grid)) total)
                (4 * width grid) (seqZ 0 (len grid)) H3 0) as H.
  assert (len (seqZ 0 (len grid)) = len grid) as E
    by (unfold len; rewrite length_seqZ; lia).
  rewrite E in H.
  change (fold_left _ (seqZ 0 (len grid)) 0) with
    (fold_left (fun total r =>
       fold_left (fun total c => fold_left (F1 r c) dirs total)
         (seqZ 0 (width grid)) total) (seqZ 0 (len grid)) 0).
  nia.
Qed.

Lemma evalBoard_bounds g me :
  - (240 * len (Grid g) * width (Grid g)) <= evalBoard g me
  <= 240 * len (Grid g) * width (Grid g).
Proof.
  unfold evalBoard.
  pose proof (countK_bounds (Grid g) me 3).
  pose proof (countK_bounds (Grid g) me 2).
  pose proof (countK_bounds (Grid g) (if me =? cellR then cellY else cellR) 3).
  pose proof (countK_bounds (Grid g) (if me =? cellR then cellY else cellR) 2).
  lia.
Qed.

Lemma candidateScore_lower g c :
  0 <= c < Cols g ->
  - (240 * len (Grid g) * width (Grid g)) - Cols g <= candidateScore g c.
Proof.
  intros Hc. unfold candidateScore, columnScore.
  pose proof (evalBoard_bounds (setGrid (withYellow g c) g) cellY) as He.
  rewrite Grid_setGrid in He. unfold withYellow in He.
  rewrite len_setAt, width_setAt in He.
  change (Cols (setGrid (withYellow g c) g)) with (Cols g).
  assert (abs (c - Z.quot (Cols g) 2) <= Cols g) as Ha.
  { unfold abs. pose proof (Z.quot_pos (Cols g) 2 ltac:(lia) ltac:(lia)).
    assert (Z.quot (Cols g) 2 <= Cols g) by (apply Z.quot_le_upper_bound; lia).
    destruct (c - Z.quot (Cols g) 2 <? 0) eqn:E; lia. }
  unfold withYellow. destruct (bonusFor g c); lia.
Qed.

(** ** The heuristic opponent: the loop over the columns *)

Lemma chooseLoop_end n g c bestCol bestScore :
  Cols g <= c -> chooseLoop n g c bestCol bestScore = (g, bestCol).
Proof.
  intros Hc. destruct n; [done|]. cbn [chooseLoop].
  by replace (c <? Cols g) with false by (symmetry; apply Z.ltb_ge; lia).
Qed.

Lemma chooseLoop_full n g c bestCol bestScore :
  c < Cols g -> dropRow (Grid g) c (GravityUp g) = -1 ->
  chooseLoop (S n) g c bestCol bestScore = chooseLoop n g (c + 1) bestCol bestScore.
Proof.
  intros Hc Hrow. cbn [chooseLoop].
  replace (c <? Cols g) with true by (symmetry; by apply Z.ltb_lt).
  by rewrite Hrow.
Qed.

Lemma chooseLoop_wins n g c bestCol bestScore :
  c < Cols g -> winsAt (Grid g) (GravityUp g) cellY c = true ->
  chooseLoop (S n) g c bestCol bestScore = (g, c).
Proof.
  intros Hc Hwin. cbn [chooseLoop].
  replace (c <? Cols g) with true by (symmetry; by apply Z.ltb_lt).
  unfold winsAt in Hwin.
  apply andb_prop in Hwin as [Hwin H4]. apply andb_prop in Hwin as [Hrow He].
  rewrite He. apply negb_true_iff in Hrow. rewrite Hrow. cbn [negb orb].
  rewrite Grid_setGrid, H4. rewrite ?setGrid_setGrid, ?Grid_setGrid.
  apply Z.eqb_eq in He. rewrite try_and_restore by done. by rewrite setGrid_same.
Qed.

Lemma winsAt_playable grid up p c :
  winsAt grid up p c = true -> dropRow grid c up <> -1.
Proof.
  unfold winsAt. intros H.
  apply andb_prop in H as [H _]. apply andb_prop in H as [H _].
  apply negb_true_iff in H. by apply Z.eqb_neq in H.
Qed.

(** The column the loop returns is the best column so far or a playable
    column among those it visits. *)
Lemma chooseLoop_column n : forall g c bestCol bestScore,
  let r := (chooseLoop n g c bestCol bestScore).2 in
  r = bestCol
  \/ (c <= r < c + Z.of_nat n /\ r < Cols g
      /\ dropRow (Grid g) r (GravityUp g) <> -1).
Proof.
  induction n as [|n IH]; intros g c bc bs; [by left|].
  destruct (decide (c < Cols g)) as [Hc|Hc];
    [|left; by rewrite chooseLoop_end by lia].
  destruct (decide (dropRow (Grid g) c (GravityUp g) = -1)) as [Hrow|Hrow].
  { cbv zeta. rewrite chooseLoop_full by done.
    destruct (IH g (c + 1) bc bs) as [E|E]; [by left|right; lia]. }
  destruct (winsAt (Grid g) (GravityUp g) cellY c) eqn:Hwin.
  { cbv zeta. rewrite chooseLoop_wins by done. right. cbn [snd]. lia. }
  cbv zeta. rewrite chooseLoop_candidate by done.
  destruct (bs <? candidateScore g c).
  - destruct (IH g (c + 1) c (candidateScore g c)) as [E|E]; right; [|lia].
    rewrite E. lia.
  - destruct (IH g (c + 1) bc bs) as [E|E]; [by left|right; lia].
Qed.

(** When every candidate scores more than the best score so far, a playable
    column among those the loop visits is returned if there is one. *)
Lemma chooseLoop_finds n : forall g c bestCol bestScore L,
  (forall c', c <= c' < Cols g -> L <= candidateScore g c') ->
  bestScore < L ->
  (exists c', c <= c' < c + Z.of_nat n /\ c' < Cols g
              /\ dropRow (Grid g) c' (GravityUp g) <> -1) ->
  let r := (chooseLoop n g c bestCol bestScore).2 in
  c <= r < c + Z.of_nat n /\ r < Cols g
  /\ dropRow (Grid g) r (GravityUp g) <> -1.
Proof.
  induction n as [|n IH]; intros g c bc bs L HL Hbs (c' & Hc' & Hlt & Hrow');
    [lia|].
  assert (c < Cols g) as Hc by lia.
  destruct (decide (dropRow (Grid g) c (GravityUp g) = -1)) as [Hrow|Hrow].
  { cbv zeta. rewrite chooseLoop_full by done.
    assert (c' <> c) by (intros ->; done).
    destruct (IH g (c + 1) bc bs L) as (H1 & H2 & H3);
      [intros; apply HL; lia|done|exists c'; split; [lia|done]|].
    split; [lia|done]. }
  destruct (winsAt (Grid g) (GravityUp g) cellY c) eqn:Hwin.
  { cbv zeta. rewrite chooseLoop_wins by done. cbn [snd]. split; [lia|done]. }
  cbv zeta. rewrite chooseLoop_candidate by done.
  specialize (HL c ltac:(lia)).
  replace (bs <? candidateScore g c) with true by (symmetry; apply Z.ltb_lt; lia).
  destruct (chooseLoop_column n g (c + 1) c (candidateScore g c)) as [E|E].
  - rewrite E. split; [lia|done].
  - split; [lia|]. tauto.
Qed.

(** The leftmost column where Yellow wins at once is returned, when the loop
    visits one. *)
Lemma chooseLoop_takes_win n : forall g c bestCol bestScore,
  (exists c', c <= c' < c + Z.of_nat n /\ c' < Cols g
              /\ winsAt (Grid g) (GravityUp g) cellY c' = true) ->
  let r := (chooseLoop n g c bestCol bestScore).2 in
  c <= r < c + Z.of_nat n /\ r < Cols g
  /\ winsAt (Grid g) (GravityUp g) cellY r = true
  /\ forall c', c <= c' < r -> winsAt (Grid g) (GravityUp g) cellY c' = false.
Proof.
  induction n as [|n IH]; intros g c bc bs (c' & Hc' & Hlt & Hwin'); [lia|].
  assert (c < Cols g) as Hc by lia.
  destruct (winsAt (Grid g) (GravityUp g) cellY c) eqn:Hwin.
  { cbv zeta. rewrite chooseLoop_wins by done. cbn [snd].
    split; [lia|]. split; [done|]. split; [done|]. intros; lia. }
  assert (c' <> c) by (intros ->; congruence).
  assert (forall bc' bs',
            let r := (chooseLoop n g (c + 1) bc' bs').2 in
            c <= r < c + Z.of_nat (S n) /\ r < Cols g
            /\ winsAt (Grid g) (GravityUp g) cellY r = true
            /\ forall c', c <= c' < r -> winsAt (Grid g) (GravityUp g) cellY c' = false)
    as Hnext.
  { intros bc' bs'.
    destruct (IH g (c + 1) bc' bs') as (H1 & H2 & H3 & H4);
      [exists c'; split; [lia|done]|].
    split; [lia|]. split; [done|]. split; [done|].
    intros c'' Hc''. destruct (decide (c'' = c)) as [->|]; [done|].
    apply H4. lia. }
  destruct (decide (dropRow (Grid g) c (GravityUp g) = -1)) as [Hrow|Hrow].
  { cbv zeta. rewrite chooseLoop_full by done. apply Hnext. }
  cbv zeta. rewrite chooseLoop_candidate by done.
  destruct (bs <? candidateScore g c); apply Hnext.
Qed.

(** ** The heuristic opponent: the column it chooses *)

Lemma chooseAIMove_column g :
  (chooseAIMove g).2 = -1
  \/ (0 <= (chooseAIMove g).2 < Cols g
      /\ dropRow (Grid g) (chooseAIMove g).2 (GravityUp g) <> -1).
Proof.
  unfold chooseAIMove.
  destruct (chooseLoop_column (Z.to_nat (Cols g)) g 0 (-1) (-1000000)) as [E|E];
    [by left|right]. split; [lia|tauto].
Qed.

Lemma chooseAIMove_none_iff g :
  240 * len (Grid g) * width (Grid g) + Cols g < 1000000 ->
  (chooseAIMove g).2 = -1
  <-> forall c, 0 <= c < Cols g -> dropRow (Grid g) c (GravityUp g) = -1.
Proof.
  intros Hsize. split.
  - intros Hnone c Hc.
    destruct (decide (dropRow (Grid g) c (GravityUp g) = -1)) as [|Hrow]; [done|].
    exfalso. unfold chooseAIMove in Hnone.
    destruct (chooseLoop_finds (Z.to_nat (Cols g)) g 0 (-1) (-1000000)
                (- (240 * len (Grid g) * width (Grid g)) - Cols g)) as (H1 & _).
    + intros c' Hc'. by apply candidateScore_lower.
    + lia.
    + exists c. split; [lia|]. split; [lia|done].
    + lia.
  - intros Hall. destruct (chooseAIMove_column g) as [E|[Hc Hrow]]; [done|].
    by specialize (Hall _ Hc).
Qed.

Lemma aiTurn_applied g :
  Mode g = "ai" -> Current g = cellY -> GameOver g = false ->
  0 <= (chooseAIMove g).2 ->
  dropRow (Grid g) (chooseAIMove g).2 (GravityUp g) <> -1 ->
  (aiTurn g).1
  = stepResult (setLastPlayed cellY g)
      (dropRow (Grid g) (chooseAIMove g).2 (GravityUp g)) (chooseAIMove g).2
  /\ (aiTurn g).2 = if GameOver (aiTurn g).1 then ToResult else ToGame.
Proof.
  intros HM HC HO H0 Hrow.
  pose proof (dropRow_lands_on_empty _ _ _ Hrow) as He.
  unfold aiTurn. rewrite HM, HC, HO. cbn [String.eqb Ascii.eqb Bool.eqb andb negb].
  rewrite Z.eqb_refl. cbn [andb].
  pose proof (chooseAIMove_game g) as Hg.
  destruct (chooseAIMove g) as [g1 aiCol]. simpl in Hg. subst g1. cbn [snd] in *.
  replace (0 <=? aiCol) with true by (symmetry; by apply Z.leb_le).
  replace (dropRow (Grid g) aiCol (GravityUp g) =? -1) with false
    by (symmetry; by apply Z.eqb_neq).
  rewrite He, Z.eqb_refl. cbn [negb andb].
  unfold stepResult, other.
  change (Current (setLastPlayed cellY g)) with (Current g).
  change (Current (setGrid (setAt (Grid g) (dropRow (Grid g) aiCol (GravityUp g))
                              aiCol cellY) g)) with (Current g).
  rewrite HC.
  set (g1 := setTurns (Turns (setLastPlayed cellY g) + 1)
               (setGrid (setAt (Grid (setLastPlayed cellY g))
                           (dropRow (Grid g) aiCol (GravityUp g)) aiCol cellY)
                  (setLastPlayed cellY g))).
  change (checkResult _ (dropRow (Grid g) aiCol (GravityUp g)) aiCol cellY)
    with (checkResult g1 (dropRow (Grid g) aiCol (GravityUp g)) aiCol cellY).
  pose proof (checkResult_fields g1 (dropRow (Grid g) aiCol (GravityUp g))
                aiCol cellY) as H.
  destruct (checkResult g1 (dropRow (Grid g) aiCol (GravityUp g)) aiCol cellY)
    as [g2 ov].
  destruct H as (_ & _ & _ & _ & _ & _ & Hyes & Hno).
  destruct ov; cbv beta iota zeta; cbn [fst snd] in *.
  - by rewrite (Hyes eq_refl).
  - rewrite (Hno eq_refl). split; [done|].
    destruct (flipGravity_fields (setCurrent cellR g1)) as (_ & _ & HGO & _).
    rewrite HGO. cbn. by rewrite HO.
Qed.

Lemma playable_when_not_draw g :
  wfGame g -> isDraw (Grid g) = false ->
  exists c, 0 <= c < Cols g /\ dropRow (Grid g) c (GravityUp g) <> -1.
Proof.
  intros (W1 & W2 & W3 & W4 & _) Hd. unfold isDraw in Hd.
  destruct (isDrawLoop_false _ _ _ Hd) as (i & Hi & He).
  assert (0 <= width (Grid g)) by (unfold width, len; lia).
  exists i. split; [lia|]. apply dropRow_playable.
  split; [lia|]. exists 0. split; [lia|done].
Qed.

(** X12. [chooseAIMove] leaves the game as it found it and returns -1 or a
    playable column of the board; on a board of less than a million over 240
    cells it returns -1 only when no column is playable. *)
Theorem chooseAIMove_plays_when_possible (g : Game) :
  240 * len (Grid g) * width (Grid g) + Cols g < 1000000 ->
  let col := (chooseAIMove g).2 in
  (chooseAIMove g).1 = g
  /\ (col = -1
      \/ (0 <= col < Cols g /\ dropRow (Grid g) col (GravityUp g) <> -1))
  /\ (col = -1
      <-> forall c, 0 <= c < Cols g -> dropRow (Grid g) c (GravityUp g) = -1).
Proof.
  intros Hsize. split; [apply chooseAIMove_game|].
  split; [apply chooseAIMove_column|by apply chooseAIMove_none_iff].
Qed.

Lemma chooseAIMove_plays_when_possible_witness :
  (chooseAIMove blockThreat).1 = blockThreat.
Proof.
  refine (proj1 (chooseAIMove_plays_when_possible blockThreat _)).
  vm_compute. reflexivity.
Defined.

(** X13. When Yellow has a column that completes a line of four,
    [chooseAIMove] returns the leftmost such column, and the answer of the
    computer in [handlePlay] then ends the game: Yellow's piece is written
    on the landing cell, Yellow's score grows by one and the result page is
    answered. *)
Theorem chooseAIMove_takes_the_win (g : Game) (c0 : Z) :
  0 <= c0 < Cols g -> winsAt (Grid g) (GravityUp g) cellY c0 = true ->
  let col := (chooseAIMove g).2 in
  0 <= col <= c0
  /\ winsAt (Grid g) (GravityUp g) cellY col = true
  /\ (forall c', 0 <= c' < col -> winsAt (Grid g) (GravityUp g) cellY c' = false)
  /\ (Mode g = "ai" -> Current g = cellY -> GameOver g = false ->
      Grid (aiTurn g).1
      = setAt (Grid g) (dropRow (Grid g) col (GravityUp g)) col cellY
      /\ GameOver (aiTurn g).1 = true
      /\ ScoresY (aiTurn g).1 = ScoresY g + 1
      /\ ScoresR (aiTurn g).1 = ScoresR g
      /\ (aiTurn g).2 = ToResult).
Proof.
  intros Hc0 Hwin0. cbv zeta.
  destruct (chooseLoop_takes_win (Z.to_nat (Cols g)) g 0 (-1) (-1000000))
    as (H1 & H2 & H3 & H4); [exists c0; split; [lia|split; [lia|done]]|].
  fold (chooseAIMove g) in H1, H2, H3, H4.
  assert ((chooseAIMove g).2 <= c0) as Hle.
  { destruct (decide ((chooseAIMove g).2 <= c0)) as [|Hn]; [done|].
    rewrite H4 in Hwin0 by lia. done. }
  split; [lia|]. split; [done|]. split; [done|].
  intros HM HC HO.
  pose proof (winsAt_playable _ _ _ _ H3) as Hrow.
  destruct (aiTurn_applied g HM HC HO ltac:(lia) Hrow) as [E Eto].
  destruct (stepResult_fields (setLastPlayed cellY g)
              (dropRow (Grid g) (chooseAIMove g).2 (GravityUp g))
              (chooseAIMove g).2)
    as (_ & _ & _ & HG & _ & Hcases).
  rewrite <- E in HG, Hcases.
  change (Current (setLastPlayed cellY g)) with (Current g) in *.
  change (Grid (setLastPlayed cellY g)) with (Grid g) in *.
  change (ScoresR (setLastPlayed cellY g)) with (ScoresR g) in *.
  change (ScoresY (setLastPlayed cellY g)) with (ScoresY g) in *.
  rewrite HC in HG, Hcases.
  assert (4 <= len (winningLine
                      (setAt (Grid g)
                         (dropRow (Grid g) (chooseAIMove g).2 (GravityUp g))
                         (chooseAIMove g).2 cellY)
                      (dropRow (Grid g) (chooseAIMove g).2 (GravityUp g))
                      (chooseAIMove g).2 cellY)) as H4len.
  { unfold winsAt in H3. apply andb_prop in H3 as [_ H3]. by apply Z.leb_le in H3. }
  destruct Hcases as [(_ & HGO & _ & _ & _ & HsR & HsY)|[(Hlt & _)|(Hlt & _)]];
    [|lia|lia].
  rewrite HGO in Eto. change (cellY =? cellR) with false in HsR, HsY.
  cbv iota in HsR, HsY.
  split; [done|]. split; [done|]. split; [lia|]. split; [lia|done].
Qed.

Lemma chooseAIMove_takes_the_win_witness :
  0 <= (chooseAIMove yellowThreat).2 <= 3.
Proof.
  refine (proj1 (chooseAIMove_takes_the_win yellowThreat 3 _ _)).
  - split; [discriminate|reflexivity].
  - vm_compute. reflexivity.
Defined.

(** X14. In a game against the computer the computer always answers: when
    Red's move is applied and does not end the game, Yellow's piece is placed
    in the same request, and the game is then over or Red is to move again. *)
Theorem computer_always_answers (g0 g : Game) (c : Z) :
  fresh g0 -> reachable g0 g ->
  240 * Rows g * Cols g + Cols g < 1000000 ->
  Mode g = "ai" -> Current g = cellR -> GameOver g = false ->
  0 <= c < Cols g -> dropRow (Grid g) c (GravityUp g) <> -1 ->
  let g' := (handlePlay true g (Some c)).1 in
  (Turns g' = Turns g + 1 /\ GameOver g' = true)
  \/ (Turns g' = Turns g + 2 /\ (GameOver g' = true \/ Current g' = cellR)).
Proof.
  intros Hf Hr Hsize HM HC HO Hc Hrow. cbv zeta.
  pose proof (reachable_gameInv g0 g Hf Hr) as Hinv.
  pose proof (dropRow_lands_on_empty _ _ _ Hrow) as He.
  unfold handlePlay. cbn [negb]. rewrite HO.
  replace (c <? 0) with false by (symmetry; apply Z.ltb_ge; lia).
  replace (Cols g <=? c) with false by (symmetry; apply Z.leb_gt; lia).
  replace (dropRow (Grid g) c (GravityUp g) =? -1) with false
    by (symmetry; by apply Z.eqb_neq).
  rewrite He, Z.eqb_refl. cbn [orb negb].
  pose proof (humanTurn_step g (dropRow (Grid g) c (GravityUp g)) c) as Hstep.
  destruct (humanTurn_effect g (dropRow (Grid g) c (GravityUp g)) c)
    as ((_ & HT & HM1 & HC1 & Hcur) & Hyes & Hno).
  assert (gameInv g0 (humanTurn g (dropRow (Grid g) c (GravityUp g)) c).1) as Hinv1.
  { rewrite Hstep. apply gameInv_step; [by apply gameInv_lastPlayed|done|done]. }
  destruct (humanTurn g (dropRow (Grid g) c (GravityUp g)) c) as [g1 over].
  cbn [fst snd] in *.
  destruct over; [left; split; [done|by apply Hyes]|]. right.
  specialize (Hno eq_refl). rewrite HO in Hno.
  destruct Hcur as [(? & _)|(_ & HCur1 & _)]; [congruence|].
  rewrite HC in HCur1. change (cellR =? cellR) with true in HCur1.
  destruct Hinv as ((_ & _ & _ & _ & _ & _ & _ & _ & HT0) & HR & HCo & _).
  destruct Hinv1 as (Hwf1 & HR1 & HCo1 & _ & _ & _ & _ & _ & _ & _ & _ & Hd1).
  specialize (Hd1 Hno ltac:(lia)).
  destruct (playable_when_not_draw g1 Hwf1 Hd1) as (c1 & Hc1 & Hrow1).
  assert ((chooseAIMove g1).2 <> -1) as Hsome.
  { intros Hnone.
    assert (240 * len (Grid g1) * width (Grid g1) + Cols g1 < 1000000) as Hsize1.
    { destruct Hwf1 as (_ & _ & -> & -> & _). rewrite HR1, HCo1, <- HR, <- HCo.
      lia. }
    pose proof (proj1 (chooseAIMove_none_iff g1 Hsize1) Hnone) as Hall.
    by specialize (Hall c1 Hc1). }
  destruct (chooseAIMove_column g1) as [?|[Hcol Hrowai]]; [done|].
  rewrite HM in HM1.
  destruct (aiTurn_applied g1 HM1 HCur1 Hno ltac:(lia) Hrowai) as [E _].
  destruct (stepResult_fields (setLastPlayed cellY g1)
              (dropRow (Grid g1) (chooseAIMove g1).2 (GravityUp g1))
              (chooseAIMove g1).2)
    as (_ & _ & _ & _ & HT2 & Hcases).
  change (Grid (setLastPlayed cellY g1)) with (Grid g1) in *.
  change (GravityUp (setLastPlayed cellY g1)) with (GravityUp g1) in *.
  rewrite <- E in HT2, Hcases.
  change (Turns (setLastPlayed cellY g1)) with (Turns g1) in *.
  change (Current (setLastPlayed cellY g1)) with (Current g1) in *.
  split; [lia|].
  destruct Hcases as [(_ & HGO & _)|[(_ & _ & HGO & _)|(_ & _ & _ & HCur2 & _)]];
    [by left|by left|right].
  rewrite HCur2, HCur1. reflexivity.
Qed.

Lemma computer_always_answers_witness :
  (Turns (handlePlay true blockBefore (Some 0)).1 = Turns blockBefore + 1
   /\ GameOver (handlePlay true blockBefore (Some 0)).1 = true)
  \/ (Turns (handlePlay true blockBefore (Some 0)).1 = Turns blockBefore + 2
      /\ (GameOver (handlePlay true blockBefore (Some 0)).1 = true
          \/ Current (handlePlay true blockBefore (Some 0)).1 = cellR)).
Proof.
  apply (computer_always_answers blockStart blockBefore 0).
  - apply fresh_start. by right.
  - apply reachable_playAll, reach_start.
  - vm_compute. reflexivity.
  - vm_compute. reflexivity.
  - vm_compute. reflexivity.
  - vm_compute. reflexivity.
  - split; [discriminate|reflexivity].
  - vm_compute. discriminate.
Defined.

(** ** The view and the moves *)

Lemma vDisabled_lookup g c :
  0 <= c < Cols g ->
  vDisabled (viewModel g) !! Z.to_nat c
  = Some (if negb (if String.eqb (Mode g) "online"
                   then (if ThisIsRed g then Current g =? cellR
                         else Current g =? cellY)
                   else true) || GameOver g
          then true
          else dropRow (Grid g) c (GravityUp g) =? -1).
Proof.
  intros Hc. unfold viewModel. cbn [vDisabled].
  rewrite list_lookup_fmap, lookup_seqZ_lt by lia.
  cbn [fmap option_fmap option_map]. by rewrite Z.add_0_l, Z2Nat.id by lia.
Qed.

Lemma aiTurn_turns g : Turns g <= Turns (aiTurn g).1.
Proof.
  destruct (aiTurn_cases g) as [->|(row & c & _ & _ & _ & _ & HT & _)]; lia.
Qed.

Lemma handlePlay_turns g c :
  GameOver g = false -> 0 <= c < Cols g ->
  dropRow (Grid g) c (GravityUp g) <> -1 ->
  Turns g < Turns (handlePlay true g (Some c)).1.
Proof.
  intros HO Hc Hrow.
  pose proof (dropRow_lands_on_empty _ _ _ Hrow) as He.
  unfold handlePlay. cbn [negb]. rewrite HO.
  replace (c <? 0) with false by (symmetry; apply Z.ltb_ge; lia).
  replace (Cols g <=? c) with false by (symmetry; apply Z.leb_gt; lia).
  replace (dropRow (Grid g) c (GravityUp g) =? -1) with false
    by (symmetry; by apply Z.eqb_neq).
  rewrite He, Z.eqb_refl. cbn [orb negb].
  destruct (humanTurn_effect g (dropRow (Grid g) c (GravityUp g)) c)
    as ((_ & HT & _) & _).
  destruct (humanTurn g (dropRow (Grid g) c (GravityUp g)) c) as [g1 over].
  cbn [fst snd] in *. destruct over; cbn [fst]; [lia|].
  pose proof (aiTurn_turns g1). lia.
Qed.

(** X15. The page of a local game, or of a game against the computer, and
    [handlePlay] agree on the columns: the button of a column is disabled
    exactly when a request for that column leaves the game as it is, and
    enabled exactly when the request places a piece. *)
Theorem disabled_columns_are_refused (g : Game) (c : Z) :
  Mode g <> "online" -> 0 <= c < Cols g ->
  exists b : bool,
    vDisabled (viewModel g) !! Z.to_nat c = Some b
    /\ if b then (handlePlay true g (Some c)).1 = g
       else Turns g < Turns (handlePlay true g (Some c)).1.
Proof.
  intros HM Hc. rewrite vDisabled_lookup by done.
  apply String.eqb_neq in HM. rewrite HM. cbn [negb orb].
  destruct (GameOver g) eqn:HO.
  { exists true. split; [done|]. unfold handlePlay. cbn [negb]. by rewrite HO. }
  destruct (dropRow (Grid g) c (GravityUp g) =? -1) eqn:Hrow.
  - exists true. split; [done|]. unfold handlePlay. cbn [negb]. rewrite HO.
    destruct ((c <? 0) || (Cols g <=? c)); [done|]. by rewrite Hrow.
  - exists false. split; [done|]. apply Z.eqb_neq in Hrow.
    by apply handlePlay_turns.
Qed.

Lemma disabled_columns_are_refused_witness :
  exists b : bool,
    vDisabled (viewModel crossBefore) !! Z.to_nat 3 = Some b
    /\ if b then (handlePlay true crossBefore (Some 3)).1 = crossBefore
       else Turns crossBefore < Turns (handlePlay true crossBefore (Some 3)).1.
Proof.
  apply (disabled_columns_are_refused crossBefore 3).
  - vm_compute. discriminate.
  - split; [discriminate|reflexivity].
Defined.

(** X16. The page [handleOnlineWait] shows to a side of a lobby and
    [handleOnlinePlay] agree on the columns: a column is disabled exactly
    when the move of that side in that column is refused and leaves the
    server as it is, and enabled exactly when the move is applied to the
    game of the lobby. *)
Theorem online_disabled_columns_are_refused (s : server) (code side : string)
    (c : Z) (sid : string) (now : Z) (lb : lobby) :
  lobbies s !! code = Some lb -> code <> "" -> side = "R" \/ side = "Y" ->
  0 <= c < Cols (lobbyGame lb) ->
  exists (v : View) (b : bool),
    handleOnlineWait s code side = Some v
    /\ vIsOnline v = true
    /\ vDisabled v !! Z.to_nat c = Some b
    /\ if b then handleOnlinePlay true s code side (Some c) sid now = (s, ToWait)
       else exists lb',
              lobbies (handleOnlinePlay true s code side (Some c) sid now).1 !! code
              = Some lb'
              /\ Turns (lobbyGame lb') = Turns (lobbyGame lb) + 1.
Proof.
  intros Hlb Hcode Hside Hc.
  unfold handleOnlineWait. apply String.eqb_neq in Hcode. rewrite Hcode, Hlb.
  replace (negb (String.eqb side "R") && negb (String.eqb side "Y")) with false
    by (destruct Hside as [->| ->]; reflexivity).
  cbn [orb].
  set (gcopy := setThisIsRed (String.eqb side "R")
                  (setMode "online" (setLobbyCode code (lobbyGame lb)))).
  eexists _, _. split; [reflexivity|]. split; [reflexivity|].
  split; [by apply vDisabled_lookup|].
  change (Mode gcopy) with "online". change (ThisIsRed gcopy) with (String.eqb side "R").
  change (Current gcopy) with (Current (lobbyGame lb)).
  change (GameOver gcopy) with (GameOver (lobbyGame lb)).
  change (Grid gcopy) with (Grid (lobbyGame lb)).
  change (GravityUp gcopy) with (GravityUp (lobbyGame lb)).
  change (String.eqb "online" "online") with true. cbv iota.
  unfold handleOnlinePlay. cbn [negb]. change (default 0 (Some c)) with c.
  rewrite Hlb.
  assert ((if String.eqb side "R" then Current (lobbyGame lb) =? cellR
           else Current (lobbyGame lb) =? cellY)
          = (Current (lobbyGame lb) =? (if String.eqb side "Y" then cellY else cellR)))
    as -> by (destruct Hside as [->| ->]; reflexivity).
  destruct (onlineTurn (lobbyGame lb) side c) as [[g' over]|] eqn:Hturn.
  - destruct (onlineTurn_effect _ _ _ _ _ Hturn)
      as (HC & HO & Hrow & _ & (_ & HT & _) & _).
    rewrite HC, Z.eqb_refl, HO. cbn [negb orb].
    replace (dropRow (Grid (lobbyGame lb)) c (GravityUp (lobbyGame lb)) =? -1)
      with false by (symmetry; by apply Z.eqb_neq).
    cbv beta iota.
    destruct over; cbn [fst lobbies]; rewrite lookup_insert_eq; by eexists.
  - apply onlineTurn_refused in Hturn as [HC|[HO|Hrow]].
    + apply Z.eqb_neq in HC. by rewrite HC.
    + rewrite HO. by rewrite orb_true_r.
    + rewrite Hrow. change (-1 =? -1) with true.
      by destruct (negb (Current (lobbyGame lb)
                         =? (if String.eqb side "Y" then cellY else cellR))
                   || GameOver (lobbyGame lb)).
Qed.

Lemma online_disabled_columns_are_refused_witness :
  exists (v : View) (b : bool),
    handleOnlineWait sampleServer "ABCD" "Y" = Some v
    /\ vIsOnline v = true
    /\ vDisabled v !! Z.to_nat 3 = Some b
    /\ if b
       then handleOnlinePlay true sampleServer "ABCD" "Y" (Some 3) "s1" 1
            = (sampleServer, ToWait)
       else exists lb',
              lobbies (handleOnlinePlay true sampleServer "ABCD" "Y" (Some 3) "s1" 1).1
                !! "ABCD" = Some lb'
              /\ Turns (lobbyGame lb') = Turns (lobbyGame sampleLobby) + 1.
Proof.
  apply (online_disabled_columns_are_refused sampleServer "ABCD" "Y" 3 "s1" 1
           sampleLobby).
  - apply lookup_sample.
  - discriminate.
  - by right.
  - split; [discriminate|reflexivity].
Defined.

(** ** Sessions *)

Lemma gameForRequest_known s v g id now rnd :
  v <> "" -> sessions s !! v = Some g ->
  gameForRequest s (Some v) false id now rnd = (s, v, g, false).
Proof.
  intros Hv Hg. unfold gameForRequest.
  apply String.eqb_neq in Hv. by rewrite Hv, Hg.
Qed.

(** X17. [gameForRequest] answers with the game stored under the key it
    reports, writes no other session and no lobby, sets a cookie exactly when
    it draws a new identifier, and a later request that carries the reported
    key as its cookie is given the same game, the server being left as it
    is. *)
Theorem gameForRequest_round_trip (s : server) (cookie : option string)
    (reset : bool) (id : string) (now : Z) (rnd : nat -> Z)
    (id' : string) (now' : Z) (rnd' : nat -> Z) :
  id <> "" ->
  exists s' key g set,
    gameForRequest s cookie reset id now rnd = (s', key, g, set)
    /\ sessions s' !! key = Some g
    /\ lobbies s' = lobbies s
    /\ (forall k, k <> key -> sessions s' !! k = sessions s !! k)
    /\ (if set then key = id /\ g = newGame 6 7 3 now rnd
        else cookie = Some key /\ reset = false)
    /\ gameForRequest s' (Some key) false id' now' rnd' = (s', key, g, false).
Proof.
  intros Hid.
  assert (exists s' g,
            (mkServer (<[id := newGame 6 7 3 now rnd]> (sessions s)) (lobbies s),
             id, newGame 6 7 3 now rnd, true) = (s', id, g, true)
            /\ sessions s' !! id = Some g
            /\ lobbies s' = lobbies s
            /\ (forall k, k <> id -> sessions s' !! k = sessions s !! k)
            /\ (id = id /\ g = newGame 6 7 3 now rnd)
            /\ gameForRequest s' (Some id) false id' now' rnd' = (s', id, g, false))
    as (s1 & g1 & H1 & H2 & H3 & H4 & H5 & H6).
  { eexists _, _. split; [reflexivity|]. cbn [sessions lobbies].
    split; [by rewrite lookup_insert_eq|]. split; [done|].
    split; [by intros k Hk; rewrite lookup_insert_ne|]. split; [done|].
    apply gameForRequest_known; [done|]. cbn [sessions]. by rewrite lookup_insert_eq. }
  unfold gameForRequest at 1.
  destruct cookie as [v|]; [|by exists s1, id, g1, true].
  destruct (String.eqb v "") eqn:Hv; cbn [orb]; [by exists s1, id, g1, true|].
  destruct reset; [by exists s1, id, g1, true|].
  apply String.eqb_neq in Hv.
  destruct (sessions s !! v) as [g|] eqn:Hg.
  - exists s, v, g, false. split; [done|]. split; [done|]. split; [done|].
    split; [done|]. split; [done|]. by apply gameForRequest_known.
  - eexists _, v, _, false. split; [reflexivity|]. cbn [sessions lobbies].
    split; [by rewrite lookup_insert_eq|]. split; [done|].
    split; [by intros k Hk; rewrite lookup_insert_ne|]. split; [done|].
    apply gameForRequest_known; [done|]. cbn [sessions]. by rewrite lookup_insert_eq.
Qed.

Lemma gameForRequest_round_trip_witness :
  exists s' key g set,
    gameForRequest sampleServer None false "a1" 5 drawRnd = (s', key, g, set)
    /\ sessions s' !! key = Some g
    /\ lobbies s' = lobbies sampleServer
    /\ (forall k, k <> key -> sessions s' !! k = sessions sampleServer !! k)
    /\ (if set then key = "a1" /\ g = newGame 6 7 3 5 drawRnd
        else None = Some key /\ false = false)
    /\ gameForRequest s' (Some key) false "b2" 6 crossRnd = (s', key, g, false).
Proof.
  apply (gameForRequest_round_trip sampleServer None false "a1" 5 drawRnd
           "b2" 6 crossRnd).
  discriminate.
Defined.

Lemma servePlay_known s v g c id now rnd :
  v <> "" -> sessions s !! v = Some g ->
  (servePlay true s (Some v) (Some c) id now rnd).1
  = mkServer (<[v := (handlePlay true g (Some c)).1]> (sessions s)) (lobbies s).
Proof.
  intros Hv Hg. unfold servePlay. cbn [negb].
  rewrite (gameForRequest_known s v g) by done.
  by destruct (handlePlay true g (Some c)).
Qed.

(** X18. The play requests of one browser add up: after the requests
    [reqs] with the cookie [v], the session [v] holds the game that
    [handlePlay] yields for the columns in order, and neither another session
    nor a lobby has been written. *)
Theorem servePlays_plays_in_order (s : server) (v : string) (g : Game)
    (reqs : list (Z * string * Z * (nat -> Z))) :
  v <> "" -> sessions s !! v = Some g ->
  sessions (servePlays s v reqs) !! v = Some (playAll g (columnsOf reqs))
  /\ lobbies (servePlays s v reqs) = lobbies s
  /\ forall k, k <> v -> sessions (servePlays s v reqs) !! k = sessions s !! k.
Proof.
  intros Hv. revert s g.
  induction reqs as [|[[[c id] now] rnd] reqs IH]; intros s g Hg; [done|].
  unfold servePlays, columnsOf, playAll. cbn [fold_left fmap list_fmap].
  fold (servePlays (servePlay true s (Some v) (Some c) id now rnd).1 v reqs).
  fold (columnsOf reqs).
  fold (playAll (handlePlay true g (Some c)).1 (columnsOf reqs)).
  rewrite (servePlay_known s v g) by done.
  destruct (IH (mkServer (<[v := (handlePlay true g (Some c)).1]> (sessions s))
                  (lobbies s)) (handlePlay true g (Some c)).1) as (H1 & H2 & H3).
  { cbn [sessions]. by rewrite lookup_insert_eq. }
  split; [done|]. split; [done|].
  intros k Hk. rewrite H3 by done. cbn [sessions]. by rewrite lookup_insert_ne.
Qed.

Lemma servePlays_plays_in_order_witness :
  sessions (servePlays (mkServer {[ "a1" := crossStart ]} ∅) "a1"
              [(3, "x", 1, drawRnd); (3, "y", 2, drawRnd)]) !! "a1"
  = Some (playAll crossStart [3; 3]).
Proof.
  refine (proj1 (servePlays_plays_in_order (mkServer {[ "a1" := crossStart ]} ∅)
                   "a1" crossStart [(3, "x", 1, drawRnd); (3, "y", 2, drawRnd)] _ _)).
  - discriminate.
  - reflexivity.
Defined.

(** ** What a game keeps *)

Lemma stepResult_settings g row c : sameSettings g (stepResult g row c).
Proof.
  unfold sameSettings, stepResult, checkResult, flipGravity.
  destruct (4 <=? len _); [by destruct (Current g =? cellR)|].
  destruct (isDraw _); [done|].
  by destruct (Z.rem _ 5 =? 0).
Qed.

Lemma applied_settings g g' : applied g g' -> sameSettings g g'.
Proof.
  intros Hap. destruct (applied_step g g' Hap) as (c & lp & Hlp & _ & _ & ->).
  destruct Hlp as [->| ->]; [apply stepResult_settings|].
  exact (stepResult_settings (setLastPlayed (Current g) g) _ c).
Qed.

Lemma sameSettings_trans g0 g1 g2 :
  sameSettings g0 g1 -> sameSettings g1 g2 -> sameSettings g0 g2.
Proof. unfold sameSettings. intuition congruence. Qed.

Lemma reachable_settings g0 g : reachable g0 g -> sameSettings g0 g.
Proof.
  intros Hr. destruct (reachable_movesFrom g0 g Hr) as [n Hn].
  clear Hr. induction Hn as [|n g1 g2 _ IH Hap];
    [unfold sameSettings; repeat split|].
  eapply sameSettings_trans; [exact IH|by apply applied_settings].
Qed.

(** X19. From its creation to its end a game keeps its size, its mode, the
    names of its players, its difficulty, its lobby code and its creation
    time, whatever requests are made to [handlePlay] and
    [handleOnlinePlay]. *)
Theorem game_keeps_its_settings (g0 g : Game) :
  reachable g0 g -> sameSettings g0 g.
Proof. apply reachable_settings. Qed.

Lemma game_keeps_its_settings_witness : sameSettings crossStart crossBefore.
Proof.
  apply (game_keeps_its_settings crossStart crossBefore).
  apply reachable_playAll, reach_start.
Defined.

(** ** handleReplay *)

Lemma replayGame_fields g now rnd :
  let r := replayGame g now rnd in
  Mode r = "local" /\ Player1 r = Player1 g /\ Player2 r = Player2 g
  /\ Difficulty r = Difficulty g
  /\ ScoresR r = ScoresR g /\ ScoresY r = ScoresY g.
Proof.
  unfold replayGame. by destruct (configByDifficulty (Difficulty g)) as [[rows cols] blocks].
Qed.

Lemma aiTurn_other_mode g : Mode g <> "ai" -> aiTurn g = (g, ToGame).
Proof.
  intros HM. unfold aiTurn. apply String.eqb_neq in HM. by rewrite HM.
Qed.

Lemma handlePlay_without_computer g col :
  Mode g <> "ai" -> Turns (handlePlay true g col).1 <= Turns g + 1.
Proof.
  intros HM. unfold handlePlay. cbn [negb].
  destruct (GameOver g); cbn [fst]; [lia|].
  destruct col as [c|]; cbn [fst]; [|lia].
  destruct ((c <? 0) || (Cols g <=? c)); cbn [fst]; [lia|].
  destruct ((dropRow (Grid g) c (GravityUp g) =? -1) || _); cbn [fst]; [lia|].
  destruct (humanTurn_effect g (dropRow (Grid g) c (GravityUp g)) c)
    as ((_ & HT & HM1 & _) & _).
  destruct (humanTurn g (dropRow (Grid g) c (GravityUp g)) c) as [g1 over].
  cbn [fst snd] in *. destruct over; cbn [fst]; [lia|].
  rewrite aiTurn_other_mode by congruence. cbn [fst]. lia.
Qed.

(** X20. The game [handleReplay] starts keeps the names, the difficulty and
    the scores of the game it replaces, the scores growing by one point at
    most until its end, but not its mode: it is a local game in every state
    reached from it, so the computer never moves in it and a request to
    [handlePlay] places one piece at most, also when the game replaced was
    played against the computer. *)
Theorem replay_goes_local (g g' : Game) (now : Z) (rnd : nat -> Z) :
  reachable (replayGame g now rnd) g' ->
  Mode g' = "local"
  /\ Player1 g' = Player1 g /\ Player2 g' = Player2 g
  /\ Difficulty g' = Difficulty g
  /\ ScoresR g <= ScoresR g' /\ ScoresY g <= ScoresY g'
  /\ ScoresR g' + ScoresY g' <= ScoresR g + ScoresY g + 1
  /\ aiTurn g' = (g', ToGame)
  /\ forall col, Turns (handlePlay true g' col).1 <= Turns g' + 1.
Proof.
  intros Hr.
  destruct (replayGame_fields g now rnd) as (HM & HP1 & HP2 & HD & HsR & HsY).
  destruct (reachable_settings _ _ Hr) as (_ & _ & HM' & HP1' & HP2' & HD' & _).
  destruct (reachable_gameInv _ _ (fresh_replay g now rnd) Hr)
    as (_ & _ & _ & _ & _ & _ & _ & _ & H1 & H2 & H3 & _).
  assert (Mode g' <> "ai") as Hai by (rewrite HM', HM; discriminate).
  split; [congruence|]. split; [congruence|]. split; [congruence|].
  split; [congruence|]. split; [lia|]. split; [lia|]. split; [lia|].
  split; [by apply aiTurn_other_mode|].
  intros col. by apply handlePlay_without_computer.
Qed.

Lemma replay_goes_local_witness :
  Mode (playAll (replayGame blockThreat 9 blockRnd) [0]) = "local".
Proof.
  refine (proj1 (replay_goes_local blockThreat
                   (playAll (replayGame blockThreat 9 blockRnd) [0]) 9 blockRnd _)).
  apply reachable_playAll, reach_start.
Defined.

(** ** The lobbies of a running server *)

Lemma lobbyInv_insert (lbs : gmap string lobby) code lb' :
  (forall code0 lb0, lbs !! code0 = Some lb0 -> lobbyInv code0 lb0) ->
  lobbyInv code lb' ->
  forall code0 lb0, <[code := lb']> lbs !! code0 = Some lb0 -> lobbyInv code0 lb0.
Proof.
  intros Hall Hnew code0 lb0. rewrite lookup_insert. case_decide as E.
  - subst code0. by intros [= <-].
  - apply Hall.
Qed.

Lemma serving_lobbyInv s log :
  serving s log ->
  forall code lb, lobbies s !! code = Some lb -> lobbyInv code lb.
Proof.
  induction 1 as [|s log ss _ IH
                  |s log rows cols blocks p1 p2 diff code gen now rnd _ IH Hgen
                  |s log code now _ IH
                  |s log code side col sid now _ IH
                  |s log code side name text now s' lb _ IH Hpost Hlb'].
  - intros code lb H. cbn [lobbies] in H. by rewrite lookup_empty in H.
  - exact IH.
  - unfold handleOnlineCreate.
    set (code1 := if strlen code <? 4 then gen else code).
    destruct (lobbies s !! code1) as [lb1|] eqn:E; [exact IH|].
    cbn [fst lobbies]. apply lobbyInv_insert; [exact IH|].
    split; [|split; [done|split; [done|]]].
    + cbn [lobbyGame]. eexists _, _, _, _, _, _, _, _. apply reach_start.
    + unfold code1, strlen. destruct (Z.of_nat (String.length code) <? 4) eqn:E4.
      * by rewrite Hgen.
      * apply Z.ltb_ge in E4. lia.
  - unfold handleOnlineJoin. destruct (String.eqb code ""); [exact IH|].
    destruct (lobbies s !! code) as [lb|] eqn:E; [|exact IH].
    destruct (negb (HasYellow lb)); [|exact IH].
    cbn [fst lobbies]. apply lobbyInv_insert; [exact IH|].
    exact (IH code lb E).
  - unfold handleOnlinePlay. cbn [negb].
    destruct (lobbies s !! code) as [lb|] eqn:E; [|exact IH].
    destruct (onlineTurn (lobbyGame lb) side (default 0 col)) as [[g over]|] eqn:Hturn;
      [|exact IH].
    destruct (IH code lb E) as ((rows & cols & blocks & p1 & p2 & diff & now0 & rnd & Hr)
                                & H2 & H3 & H4).
    assert (lobbyInv code (mkLobby g now (HasRed lb) (HasYellow lb) (Chat lb)
                             (NextChatID lb))) as Hnew.
    { split; [|done]. exists rows, cols, blocks, p1, p2, diff, now0, rnd.
      by apply (reach_online _ (lobbyGame lb) side (default 0 col) g over). }
    destruct over; cbn [fst lobbies]; by apply lobbyInv_insert.
  - destruct (handleChatPost_accepted _ _ _ _ _ _ _ Hpost) as (lb0 & Hlb0 & ->).
    cbn [lobbies]. apply lobbyInv_insert; [exact IH|].
    destruct (IH code lb0 Hlb0) as (H1 & H2 & H3 & H4).
    split; [exact H1|]. split; [exact H2|]. split; [|exact H4].
    cbn [Chat postedLobby].
    destruct (capChat_spec (Chat lb0 ++ [postedMessage lb0 side name text now]))
      as [Hlen _].
    unfold postedLobby. cbn [Chat]. lia.
Qed.

(** X21. On a server reached from its start every lobby holds a game
    reached from the game of a new lobby of its own code: a well-formed
    online game that carries the code of the lobby; Red is seated, the chat
    holds 200 messages at most and the code has four characters or more. *)
Theorem lobbies_hold_online_games (s : server) (log : list (string * Z))
    (code : string) (lb : lobby) :
  serving s log -> lobbies s !! code = Some lb ->
  lobbyInv code lb
  /\ wfGame (lobbyGame lb)
  /\ Mode (lobbyGame lb) = "online" /\ LobbyCode (lobbyGame lb) = code.
Proof.
  intros Hs Hlb. pose proof (serving_lobbyInv s log Hs code lb Hlb) as Hinv.
  split; [exact Hinv|].
  destruct Hinv as ((rows & cols & blocks & p1 & p2 & diff & now & rnd & Hr) & _).
  destruct (reachable_gameInv _ _
              (fresh_online rows cols blocks p1 p2 diff code now rnd) Hr)
    as (Hwf & _).
  destruct (reachable_settings _ _ Hr) as (_ & _ & HM & _ & _ & _ & HL & _).
  split; [exact Hwf|]. split; [exact HM|exact HL].
Qed.

Lemma lobbies_hold_online_games_witness :
  lobbyInv "ABCD" sampleLobby
  /\ wfGame (lobbyGame sampleLobby)
  /\ Mode (lobbyGame sampleLobby) = "online"
  /\ LobbyCode (lobbyGame sampleLobby) = "ABCD".
Proof.
  apply (lobbies_hold_online_games sampleServer [] "ABCD" sampleLobby).
  - apply serving_sample.
  - apply lookup_sample.
Defined.

(** ** Requests and the other lobbies *)

Lemma insert_keeps (lbs : gmap string lobby) code code' lb lb' (P : lobby -> Prop) :
  lbs !! code = Some lb -> (code' = code -> lbs !! code = Some lb -> P lb') -> P lb ->
  exists lb1, <[code' := lb']> lbs !! code = Some lb1
              /\ P lb1 /\ (code' <> code -> lb1 = lb).
Proof.
  intros Hlb Hsame Hold. rewrite lookup_insert. case_decide as E.
  - exists lb'. split; [done|]. split; [by apply Hsame|]. intros Hne. done.
  - exists lb. by rewrite Hlb.
Qed.

(** X22. No request removes a lobby.  [handleOnlineCreate] leaves every
    existing lobby as it is; a request to [handleOnlineJoin],
    [handleOnlinePlay] or [handleChatPost] for another code leaves the lobby
    as it is; joining changes neither the game nor the chat, a move leaves
    the chat and a post leaves the game; the handlers of the sessions leave
    all lobbies as they are. *)
Theorem lobbies_are_never_removed (s : server) (code : string) (lb : lobby) :
  lobbies s !! code = Some lb ->
  (forall rows cols blocks p1 p2 diff code' gen now rnd,
      lobbies (handleOnlineCreate s rows cols blocks p1 p2 diff code' gen now rnd).1
        !! code = Some lb)
  /\ (forall code' now,
        exists lb', lobbies (handleOnlineJoin s code' now).1 !! code = Some lb'
                    /\ (lobbyGame lb' = lobbyGame lb /\ Chat lb' = Chat lb
                        /\ NextChatID lb' = NextChatID lb)
                    /\ (code' <> code -> lb' = lb))
  /\ (forall post code' side col sid now,
        exists lb', lobbies (handleOnlinePlay post s code' side col sid now).1 !! code
                    = Some lb'
                    /\ (Chat lb' = Chat lb /\ NextChatID lb' = NextChatID lb
                        /\ HasRed lb' = HasRed lb /\ HasYellow lb' = HasYellow lb)
                    /\ (code' <> code -> lb' = lb))
  /\ (forall post code' side name text now,
        exists lb', lobbies (handleChatPost post s code' side name text now).1 !! code
                    = Some lb'
                    /\ (lobbyGame lb' = lobbyGame lb
                        /\ HasRed lb' = HasRed lb /\ HasYellow lb' = HasYellow lb)
                    /\ (code' <> code -> lb' = lb))
  /\ (forall post cookie col id now rnd,
        lobbies (servePlay post s cookie col id now rnd).1 = lobbies s)
  /\ (forall post cookie id now rnd rnd',
        lobbies (serveReplay post s cookie id now rnd rnd').1 = lobbies s)
  /\ (forall post cookie id now rnd,
        lobbies (serveReset post s cookie id now rnd).1 = lobbies s).
Proof.
  intros Hlb.
  assert (forall cookie reset id now rnd,
            lobbies (gameForRequest s cookie reset id now rnd).1.1.1 = lobbies s)
    as Hreq.
  { intros cookie reset id now rnd. unfold gameForRequest.
    destruct cookie as [v|]; [|done].
    destruct (String.eqb v "" || reset); [done|].
    by destruct (sessions s !! v). }
  split; [|split; [|split; [|split; [|split; [|split]]]]].
  - intros. unfold handleOnlineCreate.
    set (code1 := if strlen code' <? 4 then gen else code').
    destruct (lobbies s !! code1) as [lb1|] eqn:E; [done|].
    cbn [fst lobbies]. rewrite lookup_insert_ne; [done|]. intros ->. congruence.
  - intros code' now. unfold handleOnlineJoin.
    destruct (String.eqb code' ""); [by exists lb|].
    destruct (lobbies s !! code') as [lb1|] eqn:E; [|by exists lb].
    destruct (negb (HasYellow lb1)); [|by exists lb].
    cbn [fst lobbies].
    apply (insert_keeps _ _ _ lb _
             (fun lb' => lobbyGame lb' = lobbyGame lb /\ Chat lb' = Chat lb
                         /\ NextChatID lb' = NextChatID lb)); [done| |done].
    intros -> _. rewrite Hlb in E. by injection E as <-.
  - intros post code' side col sid now. unfold handleOnlinePlay.
    destruct post; cbn [negb]; [|by exists lb].
    destruct (lobbies s !! code') as [lb1|] eqn:E; [|by exists lb].
    destruct (onlineTurn (lobbyGame lb1) side (default 0 col)) as [[g over]|];
      [|by exists lb].
    assert (code' = code -> lb1 = lb) as Hsame
      by (intros ->; rewrite Hlb in E; by injection E).
    destruct over; cbn [fst lobbies];
      apply (insert_keeps _ _ _ lb _
               (fun lb' => Chat lb' = Chat lb /\ NextChatID lb' = NextChatID lb
                           /\ HasRed lb' = HasRed lb /\ HasYellow lb' = HasYellow lb));
      try done; intros Hc _; by rewrite (Hsame Hc).
  - intros post code' side name text now. unfold handleChatPost.
    destruct post; cbn [negb]; [|by exists lb].
    destruct (String.eqb code' ""
              || negb (String.eqb side "R") && negb (String.eqb side "Y")
              || String.eqb text ""); [by exists lb|].
    destruct (lobbies s !! code') as [lb1|] eqn:E; [|by exists lb].
    cbn [fst lobbies].
    apply (insert_keeps _ _ _ lb _
             (fun lb' => lobbyGame lb' = lobbyGame lb
                         /\ HasRed lb' = HasRed lb /\ HasYellow lb' = HasYellow lb));
      [done| |done].
    intros -> _. rewrite Hlb in E. by injection E as <-.
  - intros post cookie col id now rnd. unfold servePlay.
    destruct post; cbn [negb]; [|done].
    specialize (Hreq cookie false id now rnd).
    destruct (gameForRequest s cookie false id now rnd) as [[[s1 key] g] set].
    by destruct (handlePlay true g col).
  - intros post cookie id now rnd rnd'. unfold serveReplay.
    destruct post; cbn [negb]; [|done].
    specialize (Hreq cookie false id now rnd).
    by destruct (gameForRequest s cookie false id now rnd) as [[[s1 key] g] set].
  - intros post cookie id now rnd. unfold serveReset.
    destruct post; cbn [negb]; [|done].
    specialize (Hreq cookie true id now rnd).
    by destruct (gameForRequest s cookie true id now rnd) as [[[s1 key] g] set].
Qed.

Lemma lobbies_are_never_removed_witness :
  lobbies (handleOnlineCreate sampleServer 6 7 3 "Cy" "Di" "easy" "ABCD" "WXYZ"
             3 crossRnd).1 !! "ABCD" = Some sampleLobby.
Proof.
  refine (proj1 (lobbies_are_never_removed sampleServer "ABCD" sampleLobby _)
            6 7 3 "Cy" "Di" "easy" "ABCD" "WXYZ" 3 crossRnd).
  apply lookup_sample.
Defined.

(** ** The chat: posting, then polling *)

Lemma collectSince_app chat1 chat2 since :
  collectSince (chat1 ++ chat2) since
  = collectSince chat1 since ++ collectSince chat2 since.
Proof.
  induction chat1 as [|m chat1 IH]; simpl; [done|].
  destruct (since <? ID m); simpl; by rewrite IH.
Qed.

Lemma capChat_snoc chat m :
  exists k, capChat (chat ++ [m]) = drop k chat ++ [m].
Proof.
  unfold capChat. destruct (200 <? len (chat ++ [m])) eqn:E.
  - exists (length (chat ++ [m]) - 200)%nat. apply drop_app_le.
    rewrite length_app. simpl. lia.
  - exists 0%nat. by rewrite drop_0.
Qed.

(** X23. Posting, then polling: once a post is accepted, the feed of the
    lobby asked for the messages after the former counter of the lobby holds
    the new message and nothing else, the feed asked for the messages after
    the new message is empty, and the feeds of the other lobbies are what
    they were. *)
Theorem post_then_feed (s : server) (log : list (string * Z))
    (code side name text : string) (now : Z) (s' : server) :
  serving s log ->
  handleChatPost true s code side name text now = (s', 204) ->
  exists lb,
    lobbies s !! code = Some lb
    /\ handleChatFeed s' code (Some (NextChatID lb))
       = FeedItems [postedMessage lb side name text now]
    /\ handleChatFeed s' code (Some (NextChatID lb + 1)) = FeedItems []
    /\ forall code' since, code' <> code ->
         handleChatFeed s' code' since = handleChatFeed s code' since.
Proof.
  intros Hs Hpost.
  destruct (handleChatPost_accepted _ _ _ _ _ _ _ Hpost) as (lb & Hlb & ->).
  exists lb. split; [done|].
  assert (String.eqb code "" = false) as Hcode.
  { unfold handleChatPost in Hpost. cbn [negb] in Hpost.
    destruct (String.eqb code ""); [|done]. cbn [orb] in Hpost. by injection Hpost. }
  destruct (serving_inv s log Hs) as [Hok _].
  destruct (Hok code lb Hlb) as [_ Hsorted].
  destruct (capChat_snoc (Chat lb) (postedMessage lb side name text now)) as [k Hk].
  assert (forall since, NextChatID lb <= since ->
            collectSince (drop k (Chat lb)) since = []) as Hold.
  { intros since Hsince. apply collectSince_none. intros m Hm.
    apply subseteq_drop in Hm.
    pose proof (chatSorted_elem _ _ _ _ Hsorted Hm). lia. }
  unfold handleChatFeed. rewrite Hcode. cbn [lobbies].
  change (default 0 (Some (NextChatID lb))) with (NextChatID lb).
  change (default 0 (Some (NextChatID lb + 1))) with (NextChatID lb + 1).
  rewrite lookup_insert_eq. unfold postedLobby. cbn [Chat].
  rewrite Hk, !collectSince_app, !Hold by lia. cbn [collectSince app ID postedMessage].
  replace (NextChatID lb <? NextChatID lb + 1) with true
    by (symmetry; apply Z.ltb_lt; lia).
  replace (NextChatID lb + 1 <? NextChatID lb + 1) with false
    by (symmetry; apply Z.ltb_ge; lia).
  split; [done|]. split; [done|].
  intros code' since Hne. by rewrite lookup_insert_ne.
Qed.

Lemma post_then_feed_witness :
  exists lb,
    lobbies sampleServer !! "ABCD" = Some lb
    /\ handleChatFeed chatServer1 "ABCD" (Some (NextChatID lb))
       = FeedItems [postedMessage lb "R" "Ann" "un" 1]
    /\ handleChatFeed chatServer1 "ABCD" (Some (NextChatID lb + 1)) = FeedItems []
    /\ forall code' since, code' <> "ABCD" ->
         handleChatFeed chatServer1 code' since = handleChatFeed sampleServer code' since.
Proof.
  apply (post_then_feed sampleServer [] "ABCD" "R" "Ann" "un" 1 chatServer1).
  - apply serving_sample.
  - vm_compute. reflexivity.
Defined.

(** ** Lobby codes and query values *)

Lemma letters_get n :
  (n < 32)%nat ->
  exists a, String.get n letters = Some a /\ capitalOrDigit a = true.
Proof.
  intros Hn.
  do 32 (destruct n as [|n]; [eexists; split; reflexivity|]). lia.
Qed.

Lemma letterAt_capitalOrDigit x :
  capitalOrDigit (letterAt x) = true
  /\ exists n, (n < 32)%nat /\ String.get n letters = Some (letterAt x).
Proof.
  unfold letterAt. change (strlen letters) with 32.
  assert (Z.to_nat (x `mod` 32) < 32)%nat as Hn
    by (pose proof (Z.mod_pos_bound x 32 ltac:(lia)); lia).
  destruct (letters_get _ Hn) as (a & Ha & Hc).
  rewrite Ha. cbn [default from_option id]. split; [done|].
  by exists (Z.to_nat (x `mod` 32)).
Qed.

(** X24. A lobby code drawn by [newLobbyCode] has four characters, each a
    character of [letters], that is a capital or a digit, whatever the random
    source yields; so it is as long as [handleOnlineCreate] requires of a
    code. *)
Theorem newLobbyCode_four_capitals (rnd : nat -> Z) :
  String.length (newLobbyCode rnd) = 4%nat
  /\ (strlen (newLobbyCode rnd) <? 4) = false
  /\ forall i a, String.get i (newLobbyCode rnd) = Some a ->
       capitalOrDigit a = true
       /\ exists n, String.get n letters = Some a.
Proof.
  unfold newLobbyCode. cbn [fmap list_fmap String.string_of_list_ascii].
  split; [reflexivity|]. split; [reflexivity|].
  intros i a Hi.
  assert (exists x, a = letterAt x) as [x ->].
  { do 4 (destruct i as [|i]; [injection Hi as <-; by eexists|]). done. }
  destruct (letterAt_capitalOrDigit x) as (H1 & n & _ & H2).
  split; [done|by exists n].
Qed.

(** X25. [urlQueryEscape] puts a plus sign for every space and leaves the
    other characters: the result has the length of the value, holds no
    space, and escaping it again changes nothing. *)
Theorem urlQueryEscape_no_space (s : string) :
  String.length (urlQueryEscape s) = String.length s
  /\ (forall i, String.get i (urlQueryEscape s)
                = (fun a => if Ascii.eqb a spaceChar then plusChar else a)
                    <$> String.get i s)
  /\ (forall i, String.get i (urlQueryEscape s) <> Some spaceChar)
  /\ urlQueryEscape (urlQueryEscape s) = urlQueryEscape s.
Proof.
  induction s as [|a s (IH1 & IH2 & IH3 & IH4)]; [by repeat split|].
  cbn [urlQueryEscape String.length].
  split; [by rewrite IH1|]. split; [|split].
  - intros [|i]; cbn [String.get]; [done|apply IH2].
  - intros [|i]; cbn [String.get]; [|apply IH3].
    destruct (Ascii.eqb a spaceChar) eqn:E.
    + discriminate.
    + apply Ascii.eqb_neq in E. congruence.
  - rewrite IH4. f_equal.
    destruct (Ascii.eqb a spaceChar) eqn:E; [reflexivity|by rewrite E].
Qed.
